(** * xDS route resolution and call binding

    A shallow embedding of the xDS resolver (virtual-host matching, route
    predicates, weighted cluster selection, the cluster ref-count table and
    the watcher callbacks) and of [ResolvingCall] (buffering, deadline timer,
    single-shot ending), followed by the properties proved about them.

    Conventions.
    - JavaScript strings are [string]; one character stands for one code unit.
    - [Map<string, _>] is [gmap string _]; [Set<string>] is [gset string].
    - Calls into collaborators (the resolver listener, the xDS client, the
      inner call, timers, the tick queue) are recorded, in program order, in
      a list of effects returned next to the new state.
    - [Math.random()] reads the next element of an explicit sequence of
      draws; products with integer weights are taken in [Q]. *)

From Stdlib Require Import ZArith QArith String Ascii List Lia Sorted.
From stdpp Require Import gmap strings list fin_maps.
Close Scope Q_scope.
Set Warnings "-clear-no-such-hyp".

(** ** JavaScript string primitives used by the sources *)

Module Js.

(** [s.startsWith(p)] *)
Definition startsWith (s p : string) : bool := String.prefix p s.

(** [s.endsWith(p)] *)
Definition endsWith (s p : string) : bool :=
  let n := String.length s in
  let m := String.length p in
  (m <=? n) && String.eqb (substring (n - m) m s) p.

(** [s.substring(a)] and [s.substring(a, b)] for [a <= b <= s.length] *)
Definition substringFrom (s : string) (a : nat) : string :=
  substring a (String.length s - a) s.
Definition substringRange (s : string) (a b : nat) : string :=
  substring a (b - a) s.

(** [s.indexOf(c) < 0] *)
Definition lacks (s c : string) : bool :=
  match index 0 c s with
  | None => true
  | Some _ => false
  end.

(** [values.join(sep)] *)
Definition join (sep : string) (values : list string) : string :=
  String.concat sep values.

End Js.

(** ** What the sources import

    The routing feature switch of [./environment], the RE2 regular
    expression engine, the locale-independent lower-casing of strings and the
    printer of target URIs are taken as given. The constructor of RE2 is
    taken to accept every pattern it is given: the exception it raises on a
    pattern it cannot compile has no counterpart here, so what is proved of
    the compilation of routes that build a regular expression holds of the
    patterns that RE2 compiles. *)

Record GrpcUri := { scheme : option string; authority : option string; path : string }.

Class Environment := {
  GRPC_XDS_EXPERIMENTAL_ROUTING : bool;
  (** [new RE2(pattern, flags).test(value)] *)
  RE2_test : string -> string -> string -> bool;
  toLowerCase : string -> string;
  uriToString : GrpcUri -> string
}.

(** [Math.random()]: the [k]-th call returns [draws k]. A computation that
    draws takes the index of the next draw and returns the index after it. *)
Definition Draws := nat -> Q.
Definition Rand (A : Type) := Draws -> nat -> A * nat.

Definition Qltb (x y : Q) : bool := negb (Qle_bool y x).
Definition QofN (n : N) : Q := inject_Z (Z.of_N n).

(** [Metadata]: [metadata.get(name)] is all that the resolver uses. *)
Definition Metadata := string -> list string.

(** ** The xDS resolver *)

Module Resolver.

(** *** Match types: a better match type has a smaller value *)

Inductive MatchType :=
| EXACT_MATCH
| SUFFIX_MATCH
| PREFIX_MATCH
| UNIVERSE_MATCH
| INVALID_MATCH.

Definition MatchType_value (t : MatchType) : nat :=
  match t with
  | EXACT_MATCH => 0
  | SUFFIX_MATCH => 1
  | PREFIX_MATCH => 2
  | UNIVERSE_MATCH => 3
  | INVALID_MATCH => 4
  end.

Definition domainPatternMatchType (domainPattern : string) : MatchType :=
  if String.length domainPattern =? 0 then INVALID_MATCH
  else if Js.lacks domainPattern "*" then EXACT_MATCH
  else if String.eqb domainPattern "*" then UNIVERSE_MATCH
  else if Js.startsWith domainPattern "*" then SUFFIX_MATCH
  else if Js.endsWith domainPattern "*" then PREFIX_MATCH
  else INVALID_MATCH.

Definition domainMatch (matchType : MatchType) (domainPattern expectedHostName : string)
  : bool :=
  match matchType with
  | EXACT_MATCH => String.eqb expectedHostName domainPattern
  | SUFFIX_MATCH => Js.endsWith expectedHostName (Js.substringFrom domainPattern 1)
  | PREFIX_MATCH =>
      Js.startsWith expectedHostName
        (Js.substringRange domainPattern 0 (String.length domainPattern - 1))
  | UNIVERSE_MATCH => true
  | INVALID_MATCH => false
  end.

(** *** Routing tables *)

Inductive HeaderMatchSpecifier :=
| exact_match (value : string)
| safe_regex_match (regex : string)
| range_match (start end_ : Z)
| present_match
| prefix_match (value : string)
| suffix_match (value : string)
| header_match_specifier_unset.

Record HeaderMatcher := {
  name : string;
  invert_match : bool;
  header_match_specifier : HeaderMatchSpecifier
}.

Inductive PathSpecifier :=
| prefix (value : string)
| path_ (value : string)
| safe_regex (regex : string)
| path_specifier_unset.

Inductive DenominatorType := HUNDRED | TEN_THOUSAND | MILLION.

Record FractionalPercent := { numerator : N; denominator : DenominatorType }.

(** [runtime_fraction] holds [runtime_fraction?.default_value]. *)
Record RouteMatch := {
  path_specifier : PathSpecifier;
  case_sensitive : option bool;
  headers : list HeaderMatcher;
  runtime_fraction : option FractionalPercent
}.

Record ClusterWeight := { cw_name : string; weight : option N }.

Record WeightedCluster := { clusters : list ClusterWeight; total_weight : option N }.

Inductive RouteAction :=
| cluster (value : string)
| cluster_header (value : string)
| weighted_clusters (value : WeightedCluster).

Record Route := { match_ : option RouteMatch; route : option RouteAction }.

Record VirtualHost := { domains : list string; routes : list Route }.

Record RouteConfiguration := { virtual_hosts : list VirtualHost }.

(** *** findVirtualHostForDomain *)

Record Scan := {
  targetVhost : option VirtualHost;
  bestMatchType : MatchType;
  longestMatch : nat
}.

Definition isExact (t : MatchType) : bool :=
  MatchType_value t =? MatchType_value EXACT_MATCH.

(** The inner loop, over the patterns of one virtual host. The two
    [continue]s skip the test that ends the loop; a [break] returns. *)
Fixpoint scanDomains (virtualHost : VirtualHost) (domain : string)
    (patterns : list string) (s : Scan) : Scan :=
  match patterns with
  | [] => s
  | domainPattern :: rest =>
      let matchType := domainPatternMatchType domainPattern in
      if MatchType_value (bestMatchType s) <? MatchType_value matchType then
        scanDomains virtualHost domain rest s
      else if (MatchType_value matchType =? MatchType_value (bestMatchType s))
              && (String.length domainPattern <=? longestMatch s) then
        scanDomains virtualHost domain rest s
      else
        let s' :=
          if domainMatch matchType domainPattern domain then
            {| targetVhost := Some virtualHost;
               bestMatchType := matchType;
               longestMatch := String.length domainPattern |}
          else s in
        if isExact (bestMatchType s') then s'
        else scanDomains virtualHost domain rest s'
  end.

(** The outer loop, over the virtual hosts. *)
Fixpoint scanVirtualHosts (virtualHostList : list VirtualHost) (domain : string)
    (s : Scan) : Scan :=
  match virtualHostList with
  | [] => s
  | virtualHost :: rest =>
      let s' := scanDomains virtualHost domain (domains virtualHost) s in
      if isExact (bestMatchType s') then s'
      else scanVirtualHosts rest domain s'
  end.

Definition scanStart : Scan :=
  {| targetVhost := None; bestMatchType := INVALID_MATCH; longestMatch := 0 |}.

Definition findVirtualHostForDomain (virtualHostList : list VirtualHost)
    (domain : string) : option VirtualHost :=
  targetVhost (scanVirtualHosts virtualHostList domain scanStart).

(** The patterns in the order of the scan, each with its virtual host. *)
Definition candidates (virtualHostList : list VirtualHost)
  : list (VirtualHost * string) :=
  flat_map (fun virtualHost => map (fun p => (virtualHost, p)) (domains virtualHost))
    virtualHostList.

Definition patternMatches (domain domainPattern : string) : bool :=
  domainMatch (domainPatternMatchType domainPattern) domainPattern domain.

(** The order of the spec: a better match type first, and within a match
    type the longer pattern. *)
Definition betterPattern (p q : string) : Prop :=
  MatchType_value (domainPatternMatchType p) < MatchType_value (domainPatternMatchType q)
  \/ (MatchType_value (domainPatternMatchType p)
      = MatchType_value (domainPatternMatchType q)
      /\ String.length q < String.length p).

(** One turn of the inner loop without its final test. *)
Definition scanStep (domain : string) (s : Scan) (c : VirtualHost * string) : Scan :=
  let matchType := domainPatternMatchType (snd c) in
  if MatchType_value (bestMatchType s) <? MatchType_value matchType then s
  else if (MatchType_value matchType =? MatchType_value (bestMatchType s))
          && (String.length (snd c) <=? longestMatch s) then s
  else if domainMatch matchType (snd c) domain then
    {| targetVhost := Some (fst c);
       bestMatchType := matchType;
       longestMatch := String.length (snd c) |}
  else s.

(** A scan that holds an exact match holds one as long as the domain. *)
Definition settled (domain : string) (s : Scan) : Prop :=
  bestMatchType s = EXACT_MATCH -> String.length domain <= longestMatch s.

(** The choice of the spec among the patterns seen: a pattern that
    matches, strictly better than every matching pattern seen before it,
    and not bettered by any matching pattern seen after it. *)
Definition bestFirstSeen (domain : string) (seen : list (VirtualHost * string))
    (virtualHost : VirtualHost) (p : string) : Prop :=
  exists before after,
    seen = before ++ (virtualHost, p) :: after
    /\ patternMatches domain p = true
    /\ (forall vh q, In (vh, q) before -> patternMatches domain q = true ->
          betterPattern p q)
    /\ (forall vh q, In (vh, q) after -> patternMatches domain q = true ->
          ~ betterPattern q p).

(** What the loops maintain, after the patterns [seen]. *)
Definition scanInvariant (domain : string) (seen : list (VirtualHost * string))
    (s : Scan) : Prop :=
  match targetVhost s with
  | None =>
      bestMatchType s = INVALID_MATCH /\ longestMatch s = 0
      /\ forall vh q, In (vh, q) seen -> patternMatches domain q = false
  | Some virtualHost =>
      exists p, bestFirstSeen domain seen virtualHost p
        /\ bestMatchType s = domainPatternMatchType p
        /\ longestMatch s = String.length p
  end.

(** *** Predicates *)

(** [numberRegex = /^-?\d+$/u] and [BigInt(value)] on the strings it accepts *)
Definition isDigit (c : ascii) : bool :=
  (48 <=? nat_of_ascii c) && (nat_of_ascii c <=? 57).

Fixpoint allDigits (s : string) : bool :=
  match s with
  | EmptyString => true
  | String c rest => isDigit c && allDigits rest
  end.

Definition numberRegex_test (value : string) : bool :=
  match value with
  | EmptyString => false
  | String "-"%char EmptyString => false
  | String "-"%char rest => allDigits rest
  | _ => allDigits value
  end.

Fixpoint digitsValue (acc : Z) (s : string) : Z :=
  match s with
  | EmptyString => acc
  | String c rest => digitsValue (10 * acc + (Z.of_nat (nat_of_ascii c) - 48))%Z rest
  end.

Definition BigInt (value : string) : Z :=
  match value with
  | String "-"%char rest => (- digitsValue 0 rest)%Z
  | _ => digitsValue 0 value
  end.

(** A header predicate never draws. *)
Definition HeaderPredicate := string -> Metadata -> bool.

Definition valueChecker `{Environment} (specifier : HeaderMatchSpecifier)
  : option (string -> bool) :=
  match specifier with
  | exact_match v => Some (fun value => String.eqb value v)
  | safe_regex_match re => Some (fun value => RE2_test ("^" +:+ re +:+ "$") "u" value)
  | range_match start end_ =>
      Some (fun value =>
              if negb (numberRegex_test value) then false
              else
                let numberValue := BigInt value in
                (start <=? numberValue)%Z && (numberValue <? end_)%Z)
  | present_match => Some (fun value => true)
  | prefix_match v => Some (fun value => Js.startsWith value v)
  | suffix_match v => Some (fun value => Js.endsWith value v)
  | header_match_specifier_unset => None
  end.

(** Whether the rule has one of the six match kinds, that is, whether
    the [switch] does not take its [default] branch. *)
Definition hasValueChecker (specifier : HeaderMatchSpecifier) : bool :=
  match specifier with
  | header_match_specifier_unset => false
  | _ => true
  end.

Definition getPredicateForHeaderMatcher `{Environment} (headerMatch : HeaderMatcher)
  : HeaderPredicate :=
  match valueChecker (header_match_specifier headerMatch) with
  | None => fun methodName metadata => false
  | Some check =>
      let headerMatcher : HeaderPredicate := fun methodName metadata =>
        if Js.endsWith (name headerMatch) "-bin" then false
        else if String.eqb (name headerMatch) "content-type" then check "application/grpc"
        else
          let valueArray := metadata (name headerMatch) in
          match valueArray with
          | [] => false
          | _ => check (Js.join "," valueArray)
          end in
      if invert_match headerMatch then
        fun methodName metadata => negb (headerMatcher methodName metadata)
      else headerMatcher
  end.

Definition RUNTIME_FRACTION_DENOMINATOR_VALUES (d : DenominatorType) : N :=
  match d with
  | HUNDRED => 100
  | TEN_THOUSAND => 10000
  | MILLION => 1000000
  end.

(** A route predicate may draw once, for its runtime fraction. *)
Definition Matcher := string -> Metadata -> Rand bool.

Definition isFalse (b : option bool) : bool :=
  match b with
  | Some false => true
  | _ => false
  end.

Definition pathMatcher `{Environment} (routeMatch : RouteMatch)
  : option (string -> bool) :=
  match path_specifier routeMatch with
  | prefix p =>
      if isFalse (case_sensitive routeMatch) then
        let p' := toLowerCase p in
        Some (fun methodName => Js.startsWith (toLowerCase methodName) p')
      else Some (fun methodName => Js.startsWith methodName p)
  | path_ p =>
      if isFalse (case_sensitive routeMatch) then
        let p' := toLowerCase p in
        Some (fun methodName => String.eqb (toLowerCase methodName) p')
      else Some (fun methodName => String.eqb methodName p)
  | safe_regex re =>
      let flags := if isFalse (case_sensitive routeMatch) then "ui" else "u" in
      Some (fun methodName => RE2_test ("^" +:+ re +:+ "$") flags methodName)
  | path_specifier_unset => None
  end.

Definition runtimeFractionHandler (fraction : option FractionalPercent) : Rand bool :=
  match fraction with
  | None => fun draws k => (true, k)
  | Some f =>
      fun draws k =>
        let randomNumber :=
          (draws k * QofN (RUNTIME_FRACTION_DENOMINATOR_VALUES (denominator f)))%Q in
        (Qltb randomNumber (QofN (numerator f)), S k)
  end.

Definition getPredicateForMatcher `{Environment} (routeMatch : RouteMatch) : Matcher :=
  match pathMatcher routeMatch with
  | None => fun methodName metadata draws k => (false, k)
  | Some pathOk =>
      let headerMatchers := map getPredicateForHeaderMatcher (headers routeMatch) in
      fun methodName metadata draws k =>
        if pathOk methodName
           && forallb (fun matcher : HeaderPredicate => matcher methodName metadata)
                headerMatchers
        then runtimeFractionHandler (runtime_fraction routeMatch) draws k
        else (false, k)
  end.

(** *** Cluster selection *)

Record Choice := { choice_cluster : string; choice_numerator : N }.

(** The table of cumulative weights, in declaration order. *)
Fixpoint cumulate (clusterWeights : list ClusterWeight) (lastNumerator : N)
  : list Choice :=
  match clusterWeights with
  | [] => []
  | clusterWeight :: rest =>
      let lastNumerator' := (lastNumerator + default 0 (weight clusterWeight))%N in
      {| choice_cluster := cw_name clusterWeight; choice_numerator := lastNumerator' |}
        :: cumulate rest lastNumerator'
  end.

(** The loop of a weighted action; [None] is the fall-through. *)
Fixpoint firstChoice (randomNumber : Q) (clusterChoices : list Choice) : option string :=
  match clusterChoices with
  | [] => None
  | choice :: rest =>
      if Qltb randomNumber (QofN (choice_numerator choice)) then
        Some (choice_cluster choice)
      else firstChoice randomNumber rest
  end.

Definition totalWeight (w : WeightedCluster) : N := default 100%N (total_weight w).

(** The sum of the declared weights, a missing weight counting for 0. *)
Definition weightSum (clusterWeights : list ClusterWeight) : N :=
  fold_right (fun clusterWeight acc => (default 0 (weight clusterWeight) + acc)%N) 0%N
    clusterWeights.

Definition Action := Rand string.

Definition clusterAction (c : string) : Action := fun draws k => (c, k).

Definition weightedAction (w : WeightedCluster) : Action :=
  let clusterChoices := cumulate (clusters w) 0 in
  fun draws k =>
    let randomNumber := (draws k * QofN (totalWeight w))%Q in
    (default "" (firstChoice randomNumber clusterChoices), S k).

Record CompiledRoute := { matcher : Matcher; action : Action }.

(** The loop over the routes of the chosen virtual host. [None] stands for
    the [TypeError] raised on a route without an action or without a
    match. *)
Fixpoint compileRoutes `{Environment} (routes : list Route)
    (allConfigClusters : gset string) (matchList : list CompiledRoute)
  : option (gset string * list CompiledRoute) :=
  match routes with
  | [] => Some (allConfigClusters, matchList)
  | r :: rest =>
      match route r with
      | None => None
      | Some (cluster_header _) => compileRoutes rest allConfigClusters matchList
      | Some (cluster c) =>
          match match_ r with
          | None => None
          | Some routeMatch =>
              compileRoutes rest (allConfigClusters ∪ {[c]})
                (matchList ++ [{| matcher := getPredicateForMatcher routeMatch;
                                  action := clusterAction c |}])
          end
      | Some (weighted_clusters w) =>
          match match_ r with
          | None => None
          | Some routeMatch =>
              compileRoutes rest
                (allConfigClusters ∪ list_to_set (map cw_name (clusters w)))
                (matchList ++ [{| matcher := getPredicateForMatcher routeMatch;
                                  action := weightedAction w |}])
          end
      end
  end.

(** *** The resolver object *)

Record RefCount := { inLastConfig : bool; refCount : Z }.

Record XdsResolver := {
  hasReportedSuccess : bool;
  isLdsWatcherActive : bool;
  latestRouteConfigName : option string;
  latestRouteConfig : option RouteConfiguration;
  clusterRefcounts : gmap string RefCount;
  target : GrpcUri
}.

Definition newXdsResolver (target : GrpcUri) : XdsResolver :=
  {| hasReportedSuccess := false;
     isLdsWatcherActive := false;
     latestRouteConfigName := None;
     latestRouteConfig := None;
     clusterRefcounts := ∅;
     target := target |}.

Definition set_hasReportedSuccess (b : bool) (r : XdsResolver) : XdsResolver :=
  {| hasReportedSuccess := b;
     isLdsWatcherActive := isLdsWatcherActive r;
     latestRouteConfigName := latestRouteConfigName r;
     latestRouteConfig := latestRouteConfig r;
     clusterRefcounts := clusterRefcounts r;
     target := target r |}.

Definition set_isLdsWatcherActive (b : bool) (r : XdsResolver) : XdsResolver :=
  {| hasReportedSuccess := hasReportedSuccess r;
     isLdsWatcherActive := b;
     latestRouteConfigName := latestRouteConfigName r;
     latestRouteConfig := latestRouteConfig r;
     clusterRefcounts := clusterRefcounts r;
     target := target r |}.

Definition set_latestRouteConfigName (n : option string) (r : XdsResolver) : XdsResolver :=
  {| hasReportedSuccess := hasReportedSuccess r;
     isLdsWatcherActive := isLdsWatcherActive r;
     latestRouteConfigName := n;
     latestRouteConfig := latestRouteConfig r;
     clusterRefcounts := clusterRefcounts r;
     target := target r |}.

Definition set_latestRouteConfig (c : option RouteConfiguration) (r : XdsResolver)
  : XdsResolver :=
  {| hasReportedSuccess := hasReportedSuccess r;
     isLdsWatcherActive := isLdsWatcherActive r;
     latestRouteConfigName := latestRouteConfigName r;
     latestRouteConfig := c;
     clusterRefcounts := clusterRefcounts r;
     target := target r |}.

Definition set_clusterRefcounts (m : gmap string RefCount) (r : XdsResolver)
  : XdsResolver :=
  {| hasReportedSuccess := hasReportedSuccess r;
     isLdsWatcherActive := isLdsWatcherActive r;
     latestRouteConfigName := latestRouteConfigName r;
     latestRouteConfig := latestRouteConfig r;
     clusterRefcounts := m;
     target := target r |}.

(** What the resolver hands to its listener and asks of the xDS client. *)
Inductive LoadBalancingConfig :=
| CdsLoadBalancingConfig (cluster : string)
| XdsClusterManagerLoadBalancingConfig (children : gset string).

Inductive Effect :=
| onSuccessfulResolution (loadBalancingConfig : LoadBalancingConfig)
    (configSelector : option (list CompiledRoute))
| onError (details : string)
| addListenerWatcher (name : string)
| removeListenerWatcher (name : string)
| addRouteWatcher (name : string)
| removeRouteWatcher (name : string).

(** How a method finishes: it returns, or a [TypeError] leaves it. *)
Inductive Completion := Returned | Thrown.

Definition Outcome : Type := XdsResolver * list Effect * Completion.

Definition reportResolutionError `{Environment} (r : XdsResolver) (reason : string)
  : Effect :=
  onError ("xDS name resolution failed for target " +:+ uriToString (target r)
           +:+ ": " +:+ reason).

Definition refCluster (clusterName : string) (r : XdsResolver) : XdsResolver :=
  match clusterRefcounts r !! clusterName with
  | Some rc =>
      set_clusterRefcounts
        (<[clusterName := {| inLastConfig := inLastConfig rc;
                             refCount := (refCount rc + 1)%Z |}]> (clusterRefcounts r)) r
  | None => r
  end.

(** The first loop of the reconciliation: mark the clusters that are not
    in this route config, and remove the ones without references. *)
Definition markEntry (allConfigClusters : gset string) (name : string) (rc : RefCount)
  : option RefCount :=
  if decide (name ∈ allConfigClusters) then Some rc
  else if (refCount rc =? 0)%Z then None
  else Some {| inLastConfig := false; refCount := refCount rc |}.

Definition markClusters (allConfigClusters : gset string) (m : gmap string RefCount)
  : gmap string RefCount :=
  map_imap (markEntry allConfigClusters) m.

(** The second loop: add any new cluster of this route config. *)
Definition addCluster (name : string) (m : gmap string RefCount) : gmap string RefCount :=
  match m !! name with
  | Some rc => <[name := {| inLastConfig := true; refCount := refCount rc |}]> m
  | None => <[name := {| inLastConfig := true; refCount := 0 |}]> m
  end.

Definition addClusters (allConfigClusters : gset string) (m : gmap string RefCount)
  : gmap string RefCount :=
  set_fold addCluster m allConfigClusters.

(** The branch taken without experimental routing: the first virtual host
    that lists the target and whose last route is a catch-all to a cluster. *)
Inductive LegacyResult := LegacyCluster (c : string) | LegacyNone | LegacyThrown.

Definition isCatchAll (r : Route) : option string :=
  match match_ r, route r with
  | Some routeMatch, Some (cluster c) =>
      match path_specifier routeMatch with
      | prefix p => if String.eqb p "" then (if String.eqb c "" then None else Some c)
                    else None
      | _ => None
      end
  | _, _ => None
  end.

Fixpoint legacyScan (virtualHosts : list VirtualHost) (targetPath : string)
  : LegacyResult :=
  match virtualHosts with
  | [] => LegacyNone
  | virtualHost :: rest =>
      if existsb (String.eqb targetPath) (domains virtualHost) then
        match last (routes virtualHost) with
        | None => LegacyThrown
        | Some r =>
            match isCatchAll r with
            | Some c => LegacyCluster c
            | None => legacyScan rest targetPath
            end
        end
      else legacyScan rest targetPath
  end.

Definition handleRouteConfig `{Environment} (routeConfig : RouteConfiguration)
    (r0 : XdsResolver) : Outcome :=
  let r := set_latestRouteConfig (Some routeConfig) r0 in
  if GRPC_XDS_EXPERIMENTAL_ROUTING then
    match findVirtualHostForDomain (virtual_hosts routeConfig) (path (target r)) with
    | None => (r, [reportResolutionError r "No matching route found"], Returned)
    | Some virtualHost =>
        match compileRoutes (routes virtualHost) ∅ [] with
        | None => (r, [], Thrown)
        | Some (allConfigClusters, matchList) =>
            let refcounts :=
              addClusters allConfigClusters
                (markClusters allConfigClusters (clusterRefcounts r)) in
            (set_clusterRefcounts refcounts r,
             [onSuccessfulResolution
                (XdsClusterManagerLoadBalancingConfig (dom refcounts))
                (Some matchList)],
             Returned)
        end
    end
  else
    match legacyScan (virtual_hosts routeConfig) (path (target r)) with
    | LegacyCluster c =>
        (set_hasReportedSuccess true r,
         [onSuccessfulResolution (CdsLoadBalancingConfig c) None], Returned)
    | LegacyNone => (r, [reportResolutionError r "No matching route found"], Returned)
    | LegacyThrown => (r, [], Thrown)
    end.

Definition unrefCluster `{Environment} (clusterName : string) (r : XdsResolver)
  : Outcome :=
  match clusterRefcounts r !! clusterName with
  | Some rc =>
      let n := (refCount rc - 1)%Z in
      if negb (inLastConfig rc) && (n =? 0)%Z then
        let r' := set_clusterRefcounts (delete clusterName (clusterRefcounts r)) r in
        match latestRouteConfig r' with
        | Some routeConfig => handleRouteConfig routeConfig r'
        | None => (r', [], Thrown)
        end
      else
        (set_clusterRefcounts
           (<[clusterName := {| inLastConfig := inLastConfig rc; refCount := n |}]>
              (clusterRefcounts r)) r,
         [], Returned)
  | None => (r, [], Returned)
  end.

(** *** The published config selector *)

Inductive Status := OK | UNAVAILABLE.

(** [onCommitted], when present, is the closure that unrefs the cluster
    it captured. *)
Record CallConfig := {
  pickInformation_cluster : string;
  status : Status;
  onCommitted : option string
}.

Fixpoint configSelector (matchList : list CompiledRoute) (methodName : string)
    (metadata : Metadata) (r : XdsResolver) : Rand (CallConfig * XdsResolver) :=
  fun draws k =>
    match matchList with
    | [] =>
        ({| pickInformation_cluster := ""; status := UNAVAILABLE; onCommitted := None |},
         r, k)
    | m :: rest =>
        let '(matched, k1) := matcher m methodName metadata draws k in
        if matched then
          let '(clusterName, k2) := action m draws k1 in
          ({| pickInformation_cluster := clusterName;
              status := OK;
              onCommitted := Some clusterName |},
           refCluster clusterName r, k2)
        else configSelector rest methodName metadata r draws k1
    end.

(** *** The watchers *)

Inductive RouteSpecifier :=
| rds (route_config_name : string)
| route_config (value : RouteConfiguration)
| route_specifier_unset.

Definition truthy (s : option string) : option string :=
  match s with
  | Some n => if String.eqb n "" then None else Some n
  | None => None
  end.

Definition ldsWatcher_onValidUpdate `{Environment} (update : RouteSpecifier)
    (r : XdsResolver) : Outcome :=
  match update with
  | rds routeConfigName =>
      if bool_decide (latestRouteConfigName r = Some routeConfigName) then
        (r, [], Returned)
      else
        (set_latestRouteConfigName (Some routeConfigName) r,
         match latestRouteConfigName r with
         | Some previous => [removeRouteWatcher previous]
         | None => []
         end ++ [addRouteWatcher routeConfigName],
         Returned)
  | route_config routeConfig =>
      let removal :=
        match truthy (latestRouteConfigName r) with
        | Some previous => [removeRouteWatcher previous]
        | None => []
        end in
      let '(r', effects, completion) := handleRouteConfig routeConfig r in
      (r', removal ++ effects, completion)
  | route_specifier_unset => (r, [], Returned)
  end.

Definition onTransientError `{Environment} (details : string) (r : XdsResolver)
  : Outcome :=
  if negb (hasReportedSuccess r) then (r, [reportResolutionError r details], Returned)
  else (r, [], Returned).

Definition ldsWatcher_onTransientError `{Environment} := onTransientError.
Definition rdsWatcher_onTransientError `{Environment} := onTransientError.

Definition ldsWatcher_onResourceDoesNotExist `{Environment} (r : XdsResolver) : Outcome :=
  (r, [reportResolutionError r "Listener [object Object] does not exist"], Returned).

Definition rdsWatcher_onValidUpdate `{Environment} (update : RouteConfiguration)
    (r : XdsResolver) : Outcome :=
  handleRouteConfig update r.

Definition rdsWatcher_onResourceDoesNotExist `{Environment} (r : XdsResolver) : Outcome :=
  (r,
   [reportResolutionError r
      ("Route config " +:+ default "null" (latestRouteConfigName r) +:+ " does not exist")],
   Returned).

Definition updateResolution (r : XdsResolver) : XdsResolver * list Effect :=
  if negb (isLdsWatcherActive r) then
    (set_isLdsWatcherActive true r, [addListenerWatcher (path (target r))])
  else (r, []).

Definition destroy (r : XdsResolver) : list Effect :=
  removeListenerWatcher (path (target r))
    :: match truthy (latestRouteConfigName r) with
       | Some n => [removeRouteWatcher n]
       | None => []
       end.

(** *** Routes, as the compilation sorts them *)

(** A route whose action routes by header is left out of the compilation. *)
Definition routedByHeader (r : Route) : bool :=
  match route r with
  | Some (cluster_header _) => true
  | _ => false
  end.

(** A route that the compilation cannot read: no action, or an action to
    clusters without a match. *)
Definition unreadable (r : Route) : bool :=
  match route r, match_ r with
  | None, _ => true
  | Some (cluster_header _), _ => false
  | Some _, None => true
  | Some _, Some _ => false
  end.

(** The clusters that the routes name, header-routed routes apart. *)
(** A route for which the compilation constructs a regular expression:
    one with an action to clusters whose match has a [safe_regex] path, or
    a path of another kind and a [safe_regex_match] header rule. A match
    without path specifier returns before its header rules are compiled. *)
Definition buildsRegex (r : Route) : bool :=
  match route r, match_ r with
  | Some (cluster_header _), _ => false
  | Some _, Some routeMatch =>
      match path_specifier routeMatch with
      | safe_regex _ => true
      | path_specifier_unset => false
      | _ =>
          existsb
            (fun headerMatch =>
               match header_match_specifier headerMatch with
               | safe_regex_match _ => true
               | _ => false
               end)
            (headers routeMatch)
      end
  | _, _ => false
  end.

Definition clustersOfRoute (r : Route) : gset string :=
  match route r with
  | Some (cluster c) => {[c]}
  | Some (weighted_clusters w) => list_to_set (map cw_name (clusters w))
  | _ => ∅
  end.

Definition declaredClusters (routes : list Route) : gset string :=
  fold_right (fun r acc => clustersOfRoute r ∪ acc) ∅ routes.

End Resolver.

(** ** The resolving call *)

(** Values of [./constants] and the status filter of
    [./control-plane-status], which the call imports. *)
Class Constants := {
  Status_OK : Z;
  Status_CANCELLED : Z;
  Status_DEADLINE_EXCEEDED : Z;
  Propagate_DEADLINE : Z;
  Propagate_CANCELLATION : Z;
  restrictControlPlaneStatusCode : Z -> string -> Z * string
}.

Module ResolvingCall.

(** A deadline is a point in time, in milliseconds, or [Infinity]. *)
Inductive Deadline := At (ms : Z) | Infinity.

(** Modelled from the spec: [minDeadline] of [./deadline], which is not
    part of the sources, is "taking the earlier of the two". *)
Definition minDeadline (a b : Deadline) : Deadline :=
  match a, b with
  | At x, At y => At (Z.min x y)
  | At x, Infinity => At x
  | Infinity, _ => b
  end.

(** Modelled from the spec: [getRelativeTimeout] of [./deadline], which is
    not part of the sources, is the time left until the deadline, not
    positive when "the deadline is already in the past". *)
Definition getRelativeTimeout (now : Z) (deadlineMs : Z) : Z := (deadlineMs - now)%Z.

Record StatusObject := { code : Z; details : string }.

Record CallMetadata := { values : Metadata; waitForReady : bool }.

Definition MessageContext := nat.
Definition Buffer := string.

Record Duration := { seconds : Z; nanos : Z }.

Record CallConfig := {
  status : Z;
  methodConfig_timeout : option Duration;
  dynamicFilterFactories : list nat
}.

Inductive GetConfigResult :=
| NONE
| ERROR (error : StatusObject)
| SUCCESS (config : CallConfig).

(** What a timer or a tick runs. *)
Inductive Task :=
| nothing
| handleDeadline
| deliverStatus (s : StatusObject).

(** A timer handle, as [setTimeout] returned it. *)
Record Timer := { timer_task : Task; timer_timeout : Z }.

(** The inner call, as [channel.createInnerCall] was asked for it. *)
Record InnerCall := {
  inner_config : CallConfig;
  inner_method : string;
  inner_host : string;
  inner_deadline : Deadline
}.

Record ParentCall := { parent_deadline : Deadline }.

Record CallStreamOptions := {
  options_deadline : Deadline;
  options_host : string;
  options_parentCall : option ParentCall;
  options_flags : Z
}.

Inductive Effect :=
| clearTimeout (t : Timer)
| setTimeout (t : Timer)
| nextTick (t : Task)
| parent_on_cancelled
| statusWatcher (watcher : nat) (s : StatusObject)
| queueCallForConfig
| filterStackFactory_push (factories : list nat)
| createInnerCall (child : InnerCall)
| child_start (metadata : CallMetadata)
| child_startRead
| child_sendMessageWithContext (context : MessageContext) (message : Buffer)
| child_halfClose
| child_cancelWithStatus (code : Z) (details : string)
| listener_onReceiveStatus (s : StatusObject).

Record ResolvingCall := {
  child : option InnerCall;
  readPending : bool;
  pendingMessage : option (MessageContext * Buffer);
  pendingHalfClose : bool;
  ended : bool;
  metadata : option CallMetadata;
  listener : option nat;
  deadline : Deadline;
  host : string;
  statusWatchers : list nat;
  deadlineTimer : Timer;
  method : string
}.

Definition set_child (c : option InnerCall) (s : ResolvingCall) : ResolvingCall :=
  {| child := c; readPending := readPending s; pendingMessage := pendingMessage s;
     pendingHalfClose := pendingHalfClose s; ended := ended s; metadata := metadata s;
     listener := listener s; deadline := deadline s; host := host s;
     statusWatchers := statusWatchers s; deadlineTimer := deadlineTimer s;
     method := method s |}.

Definition set_readPending (b : bool) (s : ResolvingCall) : ResolvingCall :=
  {| child := child s; readPending := b; pendingMessage := pendingMessage s;
     pendingHalfClose := pendingHalfClose s; ended := ended s; metadata := metadata s;
     listener := listener s; deadline := deadline s; host := host s;
     statusWatchers := statusWatchers s; deadlineTimer := deadlineTimer s;
     method := method s |}.

Definition set_pendingMessage (m : option (MessageContext * Buffer)) (s : ResolvingCall)
  : ResolvingCall :=
  {| child := child s; readPending := readPending s; pendingMessage := m;
     pendingHalfClose := pendingHalfClose s; ended := ended s; metadata := metadata s;
     listener := listener s; deadline := deadline s; host := host s;
     statusWatchers := statusWatchers s; deadlineTimer := deadlineTimer s;
     method := method s |}.

Definition set_pendingHalfClose (b : bool) (s : ResolvingCall) : ResolvingCall :=
  {| child := child s; readPending := readPending s; pendingMessage := pendingMessage s;
     pendingHalfClose := b; ended := ended s; metadata := metadata s;
     listener := listener s; deadline := deadline s; host := host s;
     statusWatchers := statusWatchers s; deadlineTimer := deadlineTimer s;
     method := method s |}.

Definition set_ended (b : bool) (s : ResolvingCall) : ResolvingCall :=
  {| child := child s; readPending := readPending s; pendingMessage := pendingMessage s;
     pendingHalfClose := pendingHalfClose s; ended := b; metadata := metadata s;
     listener := listener s; deadline := deadline s; host := host s;
     statusWatchers := statusWatchers s; deadlineTimer := deadlineTimer s;
     method := method s |}.

Definition set_started (m : CallMetadata) (l : nat) (s : ResolvingCall) : ResolvingCall :=
  {| child := child s; readPending := readPending s; pendingMessage := pendingMessage s;
     pendingHalfClose := pendingHalfClose s; ended := ended s; metadata := Some m;
     listener := Some l; deadline := deadline s; host := host s;
     statusWatchers := statusWatchers s; deadlineTimer := deadlineTimer s;
     method := method s |}.

Definition set_deadline (d : Deadline) (s : ResolvingCall) : ResolvingCall :=
  {| child := child s; readPending := readPending s; pendingMessage := pendingMessage s;
     pendingHalfClose := pendingHalfClose s; ended := ended s; metadata := metadata s;
     listener := listener s; deadline := d; host := host s;
     statusWatchers := statusWatchers s; deadlineTimer := deadlineTimer s;
     method := method s |}.

Definition set_statusWatchers (w : list nat) (s : ResolvingCall) : ResolvingCall :=
  {| child := child s; readPending := readPending s; pendingMessage := pendingMessage s;
     pendingHalfClose := pendingHalfClose s; ended := ended s; metadata := metadata s;
     listener := listener s; deadline := deadline s; host := host s;
     statusWatchers := w; deadlineTimer := deadlineTimer s;
     method := method s |}.

Definition set_deadlineTimer (t : Timer) (s : ResolvingCall) : ResolvingCall :=
  {| child := child s; readPending := readPending s; pendingMessage := pendingMessage s;
     pendingHalfClose := pendingHalfClose s; ended := ended s; metadata := metadata s;
     listener := listener s; deadline := deadline s; host := host s;
     statusWatchers := statusWatchers s; deadlineTimer := t;
     method := method s |}.

(** A method returns the call after it and what it did, in order. *)
Definition Step : Type := ResolvingCall * list Effect.

Definition runDeadlineTimer (now : Z) (s : ResolvingCall) : Step :=
  match deadline s with
  | Infinity => (s, [clearTimeout (deadlineTimer s)])
  | At deadlineMs =>
      let timeout := getRelativeTimeout now deadlineMs in
      if (timeout <=? 0)%Z then
        (s, [clearTimeout (deadlineTimer s); nextTick handleDeadline])
      else
        let t := {| timer_task := handleDeadline; timer_timeout := timeout |} in
        (set_deadlineTimer t s, [clearTimeout (deadlineTimer s); setTimeout t])
  end.

(** The field initialisers and the constructor. *)
Definition new `{Constants} (now : Z) (method : string) (options : CallStreamOptions)
  : Step :=
  let t0 := {| timer_task := nothing; timer_timeout := 0 |} in
  let propagated :=
    match options_parentCall options with
    | Some parent =>
        ((if (Z.land (options_flags options) Propagate_CANCELLATION =? 0)%Z then []
          else [parent_on_cancelled]),
         (if (Z.land (options_flags options) Propagate_DEADLINE =? 0)%Z
          then options_deadline options
          else minDeadline (options_deadline options) (parent_deadline parent)))
    | None => ([], options_deadline options)
    end in
  let s :=
    {| child := None; readPending := false; pendingMessage := None;
       pendingHalfClose := false; ended := false; metadata := None; listener := None;
       deadline := snd propagated; host := options_host options; statusWatchers := [];
       deadlineTimer := t0; method := method |} in
  let '(s', effects) := runDeadlineTimer now s in
  (s', setTimeout t0 :: fst propagated ++ effects).

Definition outputStatus (st : StatusObject) (s : ResolvingCall) : Step :=
  if negb (ended s) then
    (set_ended true s,
     map (fun watcher => statusWatcher watcher st) (statusWatchers s)
       ++ [nextTick (deliverStatus st)])
  else (s, []).

(** [configDeadline]: the current time moved by the timeout, for the
    non-negative [nanos] of a duration. *)
Definition configDeadline (now : Z) (timeout : Duration) : Deadline :=
  At (now + 1000 * seconds timeout + nanos timeout / 1000000)%Z.

(** [getConfig]; [None] is the error thrown before [start]. [configResult]
    is the answer of [channel.getConfig] and [now] the clock. *)
Definition getConfig `{Constants} (now : Z) (configResult : GetConfigResult)
    (s : ResolvingCall) : option Step :=
  if ended s then Some (s, [])
  else
    match metadata s, listener s with
    | Some md, Some _ =>
        match configResult with
        | NONE => Some (s, [queueCallForConfig])
        | ERROR error =>
            if waitForReady md then Some (s, [queueCallForConfig])
            else Some (outputStatus error s)
        | SUCCESS config =>
            if negb (status config =? Status_OK)%Z then
              let '(code, details) :=
                restrictControlPlaneStatusCode (status config)
                  ("Failed to route call to method " +:+ method s) in
              Some (outputStatus {| code := code; details := details |} s)
            else
              let s1 :=
                match methodConfig_timeout config with
                | Some timeout =>
                    set_deadline (minDeadline (deadline s) (configDeadline now timeout)) s
                | None => s
                end in
              let inner :=
                {| inner_config := config; inner_method := method s1;
                   inner_host := host s1; inner_deadline := deadline s1 |} in
              let s2 := set_child (Some inner) s1 in
              Some (s2,
                    [filterStackFactory_push (dynamicFilterFactories config);
                     createInnerCall inner;
                     child_start md]
                    ++ (if readPending s2 then [child_startRead] else [])
                    ++ match pendingMessage s2 with
                       | Some (context, message) =>
                           [child_sendMessageWithContext context message]
                       | None => []
                       end
                    ++ (if pendingHalfClose s2 then [child_halfClose] else []))
        end
    | _, _ => None
    end.

Definition reportResolverError (st : StatusObject) (s : ResolvingCall) : Step :=
  match metadata s with
  | Some md => if waitForReady md then (s, [queueCallForConfig]) else outputStatus st s
  | None => outputStatus st s
  end.

Definition cancelWithStatus (code : Z) (details : string) (s : ResolvingCall) : Step :=
  let forwarded :=
    match child s with
    | Some _ => [child_cancelWithStatus code details]
    | None => []
    end in
  let '(s', effects) := outputStatus {| code := code; details := details |} s in
  (s', forwarded ++ effects).

Definition start `{Constants} (now : Z) (configResult : GetConfigResult)
    (md : CallMetadata) (l : nat) (s : ResolvingCall) : option Step :=
  getConfig now configResult (set_started md l s).

Definition sendMessageWithContext (context : MessageContext) (message : Buffer)
    (s : ResolvingCall) : Step :=
  match child s with
  | Some _ => (s, [child_sendMessageWithContext context message])
  | None => (set_pendingMessage (Some (context, message)) s, [])
  end.

Definition startRead (s : ResolvingCall) : Step :=
  match child s with
  | Some _ => (s, [child_startRead])
  | None => (set_readPending true s, [])
  end.

Definition halfClose (s : ResolvingCall) : Step :=
  match child s with
  | Some _ => (s, [child_halfClose])
  | None => (set_pendingHalfClose true s, [])
  end.

Definition addStatusWatcher (watcher : nat) (s : ResolvingCall) : ResolvingCall :=
  set_statusWatchers (statusWatchers s ++ [watcher]) s.

(** The status that the inner call reports through the listener given to
    [child.start]. *)
Definition child_onReceiveStatus (st : StatusObject) (s : ResolvingCall) : Step :=
  outputStatus st s.

(** Running what a timer or a tick was given. *)
Definition runTask `{Constants} (t : Task) (s : ResolvingCall) : Step :=
  match t with
  | nothing => (s, [])
  | handleDeadline => cancelWithStatus Status_DEADLINE_EXCEEDED "Deadline exceeded" s
  | deliverStatus st =>
      match listener s with
      | Some _ => (s, [listener_onReceiveStatus st])
      | None => (s, [])
      end
  end.

End ResolvingCall.

(** ** Sequences of operations on a resolving call *)

Module CallTrace.
Import ResolvingCall.

(** What a caller may do between [start] and the binding. *)
Inductive Op :=
| OpStartRead
| OpSendMessage (context : MessageContext) (message : Buffer)
| OpHalfClose.

Definition applyOp (op : Op) (s : ResolvingCall) : Step :=
  match op with
  | OpStartRead => startRead s
  | OpSendMessage context message => sendMessageWithContext context message s
  | OpHalfClose => halfClose s
  end.

Fixpoint applyOps (ops : list Op) (s : ResolvingCall) : Step :=
  match ops with
  | [] => (s, [])
  | op :: rest =>
      let '(s1, e1) := applyOp op s in
      let '(s2, e2) := applyOps rest s1 in
      (s2, e1 ++ e2)
  end.

Definition isStartRead (op : Op) : bool :=
  match op with OpStartRead => true | _ => false end.

Definition isHalfClose (op : Op) : bool :=
  match op with OpHalfClose => true | _ => false end.

Fixpoint lastMessage (ops : list Op) (acc : option (MessageContext * Buffer))
  : option (MessageContext * Buffer) :=
  match ops with
  | [] => acc
  | OpSendMessage context message :: rest => lastMessage rest (Some (context, message))
  | _ :: rest => lastMessage rest acc
  end.

(** The position of a replayed operation in the fixed order. *)
Definition replayRank (e : Effect) : nat :=
  match e with
  | child_startRead => 1
  | child_sendMessageWithContext _ _ => 2
  | child_halfClose => 3
  | _ => 0
  end.

(** The three conditional calls that close [getConfig]. *)
Definition replayOf (readFirst : bool) (message : option (MessageContext * Buffer))
    (closeLast : bool) : list Effect :=
  (if readFirst then [child_startRead] else [])
    ++ match message with
       | Some (context, message) => [child_sendMessageWithContext context message]
       | None => []
       end
    ++ (if closeLast then [child_halfClose] else []).

(** The events that end a call. *)
Inductive EndTrigger :=
| resolverFailure (st : StatusObject)
| innerStatus (st : StatusObject)
| cancellation (code : Z) (details : string)
| deadlineExpiry.

Definition triggerStatus `{Constants} (t : EndTrigger) : StatusObject :=
  match t with
  | resolverFailure st => st
  | innerStatus st => st
  | cancellation code details => {| code := code; details := details |}
  | deadlineExpiry =>
      {| code := Status_DEADLINE_EXCEEDED; details := "Deadline exceeded" |}
  end.

Definition trigger `{Constants} (t : EndTrigger) (s : ResolvingCall) : Step :=
  match t with
  | resolverFailure st => reportResolverError st s
  | innerStatus st => child_onReceiveStatus st s
  | cancellation code details => cancelWithStatus code details s
  | deadlineExpiry => runTask handleDeadline s
  end.

(** A resolver failure ends the call unless the call waits for ready. *)
Definition ends (t : EndTrigger) (s : ResolvingCall) : bool :=
  match t, metadata s with
  | resolverFailure _, Some md => negb (waitForReady md)
  | _, _ => true
  end.

(** Watcher calls and deliveries to the listener, as opposed to what is
    forwarded to the inner call. *)
Definition isDelivery (e : Effect) : bool :=
  match e with
  | statusWatcher _ _ => true
  | nextTick (deliverStatus _) => true
  | listener_onReceiveStatus _ => true
  | _ => false
  end.

Definition isTimerEffect (e : Effect) : bool :=
  match e with
  | clearTimeout _ => true
  | setTimeout _ => true
  | nextTick handleDeadline => true
  | _ => false
  end.

(** What an operation becomes on a bound call. *)
Definition forwarded (op : Op) : Effect :=
  match op with
  | OpStartRead => child_startRead
  | OpSendMessage context message => child_sendMessageWithContext context message
  | OpHalfClose => child_halfClose
  end.

(** End-triggering events, one after the other. *)
Fixpoint triggerAll `{Constants} (ts : list EndTrigger) (s : ResolvingCall) : Step :=
  match ts with
  | [] => (s, [])
  | t :: rest =>
      let '(s1, e1) := trigger t s in
      let '(s2, e2) := triggerAll rest s1 in
      (s2, e1 ++ e2)
  end.

End CallTrace.

(** ** The resolver among its callers

    The xDS client delivers updates and errors to the two watchers; the
    channel keeps the config selector of the latest successful resolution,
    calls it for every new call, and later calls the [onCommitted] of each
    result once. The commit callbacks not yet called are kept in [inFlight],
    each as the cluster name it captured. *)

Module System.
Import Resolver.

Record System := {
  resolver : XdsResolver;
  selector : option (list CompiledRoute);
  inFlight : list string;
  nextDraw : nat
}.

Definition initial (target : GrpcUri) : System :=
  {| resolver := newXdsResolver target; selector := None; inFlight := [];
     nextDraw := 0 |}.

Inductive Event :=
| LdsUpdate (update : RouteSpecifier)
| LdsTransientError (details : string)
| LdsDoesNotExist
| RdsUpdate (update : RouteConfiguration)
| RdsTransientError (details : string)
| RdsDoesNotExist
| NewCall (methodName : string) (metadata : Metadata)
| Commit (i : nat).

(** The channel replaces its config selector on every successful
    resolution. *)
Definition publish (effects : list Effect) (current : option (list CompiledRoute))
  : option (list CompiledRoute) :=
  fold_left
    (fun sel e =>
       match e with
       | onSuccessfulResolution _ configSelector => configSelector
       | _ => sel
       end)
    effects current.

Definition afterWatcher (o : Outcome) (s : System) : System :=
  {| resolver := fst (fst o);
     selector := publish (snd (fst o)) (selector s);
     inFlight := inFlight s;
     nextDraw := nextDraw s |}.

Definition step `{Environment} (draws : Draws) (s : System) (e : Event) : System :=
  match e with
  | LdsUpdate update => afterWatcher (ldsWatcher_onValidUpdate update (resolver s)) s
  | LdsTransientError details =>
      afterWatcher (ldsWatcher_onTransientError details (resolver s)) s
  | LdsDoesNotExist => afterWatcher (ldsWatcher_onResourceDoesNotExist (resolver s)) s
  | RdsUpdate update => afterWatcher (rdsWatcher_onValidUpdate update (resolver s)) s
  | RdsTransientError details =>
      afterWatcher (rdsWatcher_onTransientError details (resolver s)) s
  | RdsDoesNotExist => afterWatcher (rdsWatcher_onResourceDoesNotExist (resolver s)) s
  | NewCall methodName metadata =>
      match selector s with
      | Some matchList =>
          let '(config, r, k) :=
            configSelector matchList methodName metadata (resolver s) draws (nextDraw s) in
          {| resolver := r;
             selector := selector s;
             inFlight :=
               match onCommitted config with
               | Some clusterName => inFlight s ++ [clusterName]
               | None => inFlight s
               end;
             nextDraw := k |}
      | None => s
      end
  | Commit i =>
      match inFlight s !! i with
      | Some clusterName =>
          let o := unrefCluster clusterName (resolver s) in
          {| resolver := fst (fst o);
             selector := publish (snd (fst o)) (selector s);
             inFlight := delete i (inFlight s);
             nextDraw := nextDraw s |}
      | None => s
      end
  end.

Definition run `{Environment} (draws : Draws) (events : list Event) (s : System)
  : System :=
  fold_left (step draws) events s.

(** A route that names its clusters: no cluster name is empty. *)
Definition namesClusters (r : Route) : bool :=
  match route r with
  | Some (cluster c) => negb (String.eqb c "")
  | Some (weighted_clusters w) =>
      forallb (fun clusterWeight => negb (String.eqb (cw_name clusterWeight) ""))
        (clusters w)
  | _ => true
  end.

Definition wellNamed (routeConfig : RouteConfiguration) : bool :=
  forallb (fun virtualHost => forallb namesClusters (routes virtualHost))
    (virtual_hosts routeConfig).

Definition wellNamedEvent (e : Event) : bool :=
  match e with
  | LdsUpdate (route_config routeConfig) => wellNamed routeConfig
  | RdsUpdate routeConfig => wellNamed routeConfig
  | _ => true
  end.

(** A compiled route selects among the given clusters, or falls through
    to the empty name. *)
Definition selects (allConfigClusters : gset string) (m : CompiledRoute) : Prop :=
  forall draws k,
    fst (action m draws k) = "" \/ fst (action m draws k) ∈ allConfigClusters.

(** The number of commit callbacks not yet called for a cluster. *)
Definition references (clusterName : string) (s : System) : nat :=
  count_occ string_dec (inFlight s) clusterName.

(** What holds of the resolver between any two events. *)
Record Consistent `{Environment} (s : System) : Prop := {
  unnamed_absent : clusterRefcounts (resolver s) !! "" = None;
  counted : forall clusterName rc,
    clusterRefcounts (resolver s) !! clusterName = Some rc ->
    refCount rc = Z.of_nat (references clusterName s);
  referenced_present : forall clusterName,
    clusterName <> "" -> In clusterName (inFlight s) ->
    is_Some (clusterRefcounts (resolver s) !! clusterName);
  marked_or_referenced : forall clusterName rc,
    clusterRefcounts (resolver s) !! clusterName = Some rc ->
    inLastConfig rc = true \/ (0 < refCount rc)%Z;
  selector_marked : forall matchList m draws k,
    selector s = Some matchList -> In m matchList ->
    fst (action m draws k) = ""
    \/ exists rc, clusterRefcounts (resolver s) !! fst (action m draws k) = Some rc
         /\ inLastConfig rc = true;
  latest_marked : forall routeConfig virtualHost allConfigClusters matchList,
    GRPC_XDS_EXPERIMENTAL_ROUTING = true ->
    latestRouteConfig (resolver s) = Some routeConfig ->
    findVirtualHostForDomain (virtual_hosts routeConfig) (path (target (resolver s)))
    = Some virtualHost ->
    compileRoutes (routes virtualHost) ∅ [] = Some (allConfigClusters, matchList) ->
    forall clusterName,
      clusterName ∈ allConfigClusters
      <-> exists rc, clusterRefcounts (resolver s) !! clusterName = Some rc
            /\ inLastConfig rc = true;
  latest_named : forall routeConfig,
    latestRouteConfig (resolver s) = Some routeConfig -> wellNamed routeConfig = true
}.

(** Without experimental routing: no entry, no selector, no callback. *)
Definition idle (s : System) : Prop :=
  clusterRefcounts (resolver s) = ∅ /\ selector s = None /\ inFlight s = [].

End System.

(** ** Sample inputs *)

Module Sample.

(** [uriToString] as the channel prints a target. *)
Definition printUri (uri : GrpcUri) : string :=
  match scheme uri with Some s => s +:+ ":" | None => "" end
  +:+ match authority uri with Some a => "//" +:+ a +:+ "/" | None => "" end
  +:+ path uri.

(** Experimental routing switched on; an engine that reads a pattern as
    a literal is enough for the samples. *)
Definition routingOn : Environment :=
  {| GRPC_XDS_EXPERIMENTAL_ROUTING := true;
     RE2_test := fun pattern flags value => String.eqb pattern ("^" +:+ value +:+ "$");
     toLowerCase := fun s => s;
     uriToString := printUri |}.

Definition routingOff : Environment :=
  {| GRPC_XDS_EXPERIMENTAL_ROUTING := false;
     RE2_test := fun pattern flags value => String.eqb pattern ("^" +:+ value +:+ "$");
     toLowerCase := fun s => s;
     uriToString := printUri |}.

Definition constants : Constants :=
  {| Status_OK := 0;
     Status_CANCELLED := 1;
     Status_DEADLINE_EXCEEDED := 4;
     Propagate_DEADLINE := 1;
     Propagate_CANCELLATION := 8;
     restrictControlPlaneStatusCode := fun code details => (code, details) |}.

Definition svc : GrpcUri :=
  {| scheme := Some "xds"; authority := None; path := "svc.example.com" |}.

Definition anyPath : Resolver.RouteMatch :=
  {| Resolver.path_specifier := Resolver.prefix "";
     Resolver.case_sensitive := None;
     Resolver.headers := [];
     Resolver.runtime_fraction := None |}.

Definition toCluster (c : string) : Resolver.Route :=
  {| Resolver.match_ := Some anyPath; Resolver.route := Some (Resolver.cluster c) |}.

Definition tableFor (domain c : string) : Resolver.RouteConfiguration :=
  {| Resolver.virtual_hosts :=
       [{| Resolver.domains := [domain]; Resolver.routes := [toCluster c] |}] |}.

(** The three patterns of the precedence test, one per virtual host. *)
Definition suffixHost : Resolver.VirtualHost :=
  {| Resolver.domains := ["*.example.com"]; Resolver.routes := [toCluster "suffix"] |}.
Definition exactHost : Resolver.VirtualHost :=
  {| Resolver.domains := ["a.example.com"]; Resolver.routes := [toCluster "exact"] |}.
Definition universeHost : Resolver.VirtualHost :=
  {| Resolver.domains := ["*"]; Resolver.routes := [toCluster "universe"] |}.
Definition threeHosts : list Resolver.VirtualHost :=
  [suffixHost; exactHost; universeHost].

Definition noMetadata : Metadata := fun _ => [].

(** The life of a reference: cluster A is routed to, a call selects it,
    a second table routes to B instead, and the call commits. *)
Definition lifecycle : list System.Event :=
  [System.RdsUpdate (tableFor "svc.example.com" "A");
   System.NewCall "/pkg.Service/Method" noMetadata;
   System.RdsUpdate (tableFor "svc.example.com" "B")].

Definition noDeadline : ResolvingCall.CallStreamOptions :=
  {| ResolvingCall.options_deadline := ResolvingCall.Infinity;
     ResolvingCall.options_host := "svc.example.com";
     ResolvingCall.options_parentCall := None;
     ResolvingCall.options_flags := 0 |}.

Definition freshCall : ResolvingCall.ResolvingCall :=
  fst (@ResolvingCall.new constants 0 "/pkg.Service/Method" noDeadline).

Definition plainConfig : ResolvingCall.CallConfig :=
  {| ResolvingCall.status := 0;
     ResolvingCall.methodConfig_timeout := None;
     ResolvingCall.dynamicFilterFactories := [] |}.

Definition oneSecondConfig : ResolvingCall.CallConfig :=
  {| ResolvingCall.status := 0;
     ResolvingCall.methodConfig_timeout :=
       Some {| ResolvingCall.seconds := 1; ResolvingCall.nanos := 0 |};
     ResolvingCall.dynamicFilterFactories := [] |}.

Definition noDraws : Draws := fun _ => 0%Q.

Definition halfDraws : Draws := fun _ => (1 # 2)%Q.


(** Weights that do not reach the total of 100: draws from 0.3 on fall
    through. *)
Definition thirtyOnly : Resolver.WeightedCluster :=
  {| Resolver.clusters :=
       [{| Resolver.cw_name := "A"; Resolver.weight := Some 30%N |}];
     Resolver.total_weight := None |}.

(** A table whose only route splits by weights that fall short of the
    total. *)
Definition shortWeightsTable : Resolver.RouteConfiguration :=
  {| Resolver.virtual_hosts :=
       [{| Resolver.domains := ["svc.example.com"];
           Resolver.routes :=
             [{| Resolver.match_ := Some anyPath;
                 Resolver.route := Some (Resolver.weighted_clusters thirtyOnly) |}] |}] |}.

(** A selection that falls through, a table that names a cluster by the
    empty string, the commit of the selection, and one more table. *)
Definition unpairedCommit : list System.Event :=
  [System.RdsUpdate shortWeightsTable;
   System.NewCall "/pkg.Service/Method" noMetadata;
   System.RdsUpdate (tableFor "svc.example.com" "");
   System.Commit 0;
   System.RdsUpdate (tableFor "svc.example.com" "B")].

(** A route by header, and a route to a cluster without a match. *)
Definition byHeader : Resolver.Route :=
  {| Resolver.match_ := None; Resolver.route := Some (Resolver.cluster_header "x-cluster") |}.

Definition matchless (c : string) : Resolver.Route :=
  {| Resolver.match_ := None; Resolver.route := Some (Resolver.cluster c) |}.

(** The resolver once the table that routes to cluster A is applied. *)
Definition routedToA : Resolver.XdsResolver :=
  fst (fst (@Resolver.handleRouteConfig routingOn (tableFor "svc.example.com" "A")
              (Resolver.newXdsResolver svc))).

Definition routeToA : Resolver.CompiledRoute :=
  {| Resolver.matcher := @Resolver.getPredicateForMatcher routingOn anyPath;
     Resolver.action := Resolver.clusterAction "A" |}.

(** The system without experimental routing, after a first resolution. *)
Definition legacyResolved : System.System :=
  @System.run routingOff noDraws [System.RdsUpdate (tableFor "svc.example.com" "A")]
    (System.initial svc).

(** The resolver that watches the route configuration [route-1]. *)
Definition watchingRoute1 : Resolver.XdsResolver :=
  fst (fst (@Resolver.ldsWatcher_onValidUpdate routingOn (Resolver.rds "route-1")
              (Resolver.newXdsResolver svc))).

Definition plainMetadata : ResolvingCall.CallMetadata :=
  {| ResolvingCall.values := noMetadata; ResolvingCall.waitForReady := false |}.

(** A call started, and the same call bound by a plain configuration. *)
Definition startedCall : ResolvingCall.ResolvingCall :=
  ResolvingCall.set_started plainMetadata 7 freshCall.

Definition boundCall : ResolvingCall.ResolvingCall :=
  match @ResolvingCall.getConfig constants 0 (ResolvingCall.SUCCESS plainConfig)
          startedCall with
  | Some (s, _) => s
  | None => startedCall
  end.

End Sample.

(** * Properties *)

(** ** Header predicates *)

Section HeaderPredicates.
Import Resolver.
Context `{Environment}.

Lemma valueChecker_supported specifier :
  hasValueChecker specifier = true -> exists check, valueChecker specifier = Some check.
Proof. destruct specifier; simpl; intros Hs; try discriminate; eauto. Qed.

(** C3, as amended: a rule on a header whose name ends in [-bin] yields a
    constant predicate; its value is the rule's invert flag when the rule
    has one of the six match kinds, and false otherwise. In particular it
    is false on every input exactly when the rule is not inverted. *)
Theorem bin_header_predicate_is_invert_flag (headerMatch : HeaderMatcher)
    (methodName : string) (metadata : Metadata) :
  Js.endsWith (name headerMatch) "-bin" = true ->
  getPredicateForHeaderMatcher headerMatch methodName metadata
  = hasValueChecker (header_match_specifier headerMatch) && invert_match headerMatch.
Proof.
  intros Hbin. unfold getPredicateForHeaderMatcher.
  destruct (header_match_specifier headerMatch); simpl;
    destruct (invert_match headerMatch); simpl; rewrite ?Hbin; reflexivity.
Qed.

End HeaderPredicates.

Lemma bin_header_predicate_is_invert_flag_witness :
  @Resolver.getPredicateForHeaderMatcher Sample.routingOn
    {| Resolver.name := "trace-bin"; Resolver.invert_match := false;
       Resolver.header_match_specifier := Resolver.exact_match "x" |}
    "/pkg.Service/Method" Sample.noMetadata = false.
Proof.
  exact (@bin_header_predicate_is_invert_flag Sample.routingOn
           {| Resolver.name := "trace-bin"; Resolver.invert_match := false;
              Resolver.header_match_specifier := Resolver.exact_match "x" |}
           "/pkg.Service/Method" Sample.noMetadata eq_refl).
Defined.

(** C3, as stated, fails: an inverted presence rule on [trace-bin] is true
    on a call without metadata. *)
Lemma bin_header_inverted_rule_matches :
  ~ (forall (E : Environment) (headerMatch : Resolver.HeaderMatcher)
       (methodName : string) (metadata : Metadata),
        Js.endsWith (Resolver.name headerMatch) "-bin" = true ->
        Resolver.getPredicateForHeaderMatcher headerMatch methodName metadata = false).
Proof.
  intros Hall.
  specialize (Hall Sample.routingOn
                {| Resolver.name := "trace-bin"; Resolver.invert_match := true;
                   Resolver.header_match_specifier := Resolver.present_match |}
                "/pkg.Service/Method" Sample.noMetadata eq_refl).
  discriminate Hall.
Qed.

(** ** The resolving call *)

Section ResolvingCallProperties.
Import ResolvingCall CallTrace.
Context `{Constants}.

Lemma applyOp_unbound op s :
  child s = None ->
  exists s', applyOp op s = (s', [])
    /\ child s' = None /\ ended s' = ended s /\ metadata s' = metadata s
    /\ listener s' = listener s /\ method s' = method s /\ host s' = host s
    /\ deadline s' = deadline s
    /\ readPending s' = readPending s || isStartRead op
    /\ pendingMessage s' = lastMessage [op] (pendingMessage s)
    /\ pendingHalfClose s' = pendingHalfClose s || isHalfClose op.
Proof.
  intros Hc.
  destruct op; simpl; unfold startRead, sendMessageWithContext, halfClose;
    rewrite Hc; eexists; (split; [reflexivity|]); simpl;
    rewrite ?orb_false_r, ?orb_true_r; auto 12.
Qed.

Lemma applyOps_unbound ops : forall s,
  child s = None ->
  exists s', applyOps ops s = (s', [])
    /\ child s' = None /\ ended s' = ended s /\ metadata s' = metadata s
    /\ listener s' = listener s /\ method s' = method s /\ host s' = host s
    /\ deadline s' = deadline s
    /\ readPending s' = readPending s || existsb isStartRead ops
    /\ pendingMessage s' = lastMessage ops (pendingMessage s)
    /\ pendingHalfClose s' = pendingHalfClose s || existsb isHalfClose ops.
Proof.
  induction ops as [|op ops IH]; intros s Hc; simpl.
  - exists s. rewrite !orb_false_r. auto 12.
  - destruct (applyOp_unbound op s Hc)
      as (s1 & -> & Hc1 & He & Hm & Hl & Hme & Hh & Hd & Hr & Hp & Hhc).
    destruct (IH s1 Hc1)
      as (s2 & -> & Hc2 & He2 & Hm2 & Hl2 & Hme2 & Hh2 & Hd2 & Hr2 & Hp2 & Hhc2).
    exists s2. split; [reflexivity|].
    rewrite Hr2, Hp2, Hhc2, Hr, Hp, Hhc, !orb_assoc.
    repeat split; try congruence.
    destruct op; reflexivity.
Qed.

Lemma replayOf_increasing readFirst message closeLast :
  StronglySorted (fun a b => replayRank a < replayRank b)
    (replayOf readFirst message closeLast).
Proof.
  unfold replayOf.
  destruct readFirst, message as [[context message]|], closeLast; simpl;
    repeat constructor; simpl; lia.
Qed.

(** C6: operations buffered on a started, unbound call are replayed on
    the inner call right after [child.start], as read-start, then the one
    buffered message (the last one sent), then half-close; the ranks of the
    replayed operations increase strictly, so that each occurs at most once
    and none is out of order. *)
Theorem buffered_operations_replay_in_order (now : Z) (config : CallConfig)
    (md : CallMetadata) (l : nat) (ops : list Op) (s : ResolvingCall) :
  child s = None -> ended s = false ->
  metadata s = Some md -> listener s = Some l ->
  status config = Status_OK ->
  exists s1 s2 inner replay,
    applyOps ops s = (s1, [])
    /\ getConfig now (SUCCESS config) s1
       = Some (s2, [filterStackFactory_push (dynamicFilterFactories config);
                    createInnerCall inner; child_start md] ++ replay)
    /\ child s2 = Some inner
    /\ replay
       = (if readPending s || existsb isStartRead ops then [child_startRead] else [])
         ++ match lastMessage ops (pendingMessage s) with
            | Some (context, message) => [child_sendMessageWithContext context message]
            | None => []
            end
         ++ (if pendingHalfClose s || existsb isHalfClose ops then [child_halfClose]
             else [])
    /\ StronglySorted (fun a b => replayRank a < replayRank b) replay.
Proof.
  intros Hc He Hm Hl Hok.
  destruct (applyOps_unbound ops s Hc)
    as (s1 & Hops & Hc1 & He1 & Hm1 & Hl1 & Hme1 & Hh1 & Hd1 & Hr1 & Hp1 & Hhc1).
  exists s1.
  unfold getConfig. rewrite He1, He, Hm1, Hm, Hl1, Hl, Hok, Z.eqb_refl. simpl.
  do 3 eexists. split; [exact Hops|]. split; [reflexivity|].
  split; [destruct (methodConfig_timeout config); reflexivity|].
  split.
  - destruct (methodConfig_timeout config); simpl; rewrite Hr1, Hp1, Hhc1; reflexivity.
  - destruct (methodConfig_timeout config); simpl; apply replayOf_increasing.
Qed.

Lemma outputStatus_first st s :
  ended s = false ->
  outputStatus st s
  = (set_ended true s,
     map (fun watcher => statusWatcher watcher st) (statusWatchers s)
       ++ [nextTick (deliverStatus st)]).
Proof. intros He. unfold outputStatus. rewrite He. reflexivity. Qed.

Lemma outputStatus_again st s : ended s = true -> outputStatus st s = (s, []).
Proof. intros He. unfold outputStatus. rewrite He. reflexivity. Qed.

Lemma filter_isDelivery_watchers st (watchers : list nat) :
  List.filter isDelivery
    (map (fun watcher => statusWatcher watcher st) watchers
       ++ [nextTick (deliverStatus st)])
  = map (fun watcher => statusWatcher watcher st) watchers
      ++ [nextTick (deliverStatus st)].
Proof. induction watchers as [|w ws IH]; simpl; [reflexivity | now rewrite IH]. Qed.

(** Every end-triggering event goes through [outputStatus]; a
    cancellation is, besides, forwarded to the inner call. *)
Lemma trigger_outputStatus t s :
  ends t s = true ->
  exists forwarded,
    trigger t s
    = (fst (outputStatus (triggerStatus t) s),
       forwarded ++ snd (outputStatus (triggerStatus t) s))
    /\ List.filter isDelivery forwarded = [].
Proof.
  intros Hends. destruct t as [st|st|c d|]; simpl.
  - exists []. unfold reportResolverError. unfold ends in Hends.
    destruct (metadata s) as [md|].
    + destruct (waitForReady md); [discriminate|].
      destruct (outputStatus st s); auto.
    + destruct (outputStatus st s); auto.
  - exists []. unfold child_onReceiveStatus. destruct (outputStatus st s); auto.
  - unfold cancelWithStatus.
    destruct (outputStatus {| code := c; details := d |} s) as [s' e].
    destruct (child s); eexists; split; reflexivity.
  - unfold cancelWithStatus.
    destruct (outputStatus _ s) as [s' e].
    destruct (child s); eexists; split; reflexivity.
Qed.


(** [getConfig] neither clears nor sets a timer, whatever it is given. *)
Lemma getConfig_leaves_timer now configResult s s' effects :
  getConfig now configResult s = Some (s', effects) ->
  deadlineTimer s' = deadlineTimer s /\ List.filter isTimerEffect effects = [].
Proof.
  unfold getConfig. destruct (ended s) eqn:He.
  { intros [= <- <-]. auto. }
  destruct (metadata s) as [md|]; [|discriminate].
  destruct (listener s) as [l|]; [|discriminate].
  assert (Hout : forall st s1 e1, outputStatus st s = (s1, e1) ->
               deadlineTimer s1 = deadlineTimer s /\ List.filter isTimerEffect e1 = []).
  { intros st s1 e1. rewrite (outputStatus_first _ _ He). intros [= <- <-].
    split; [reflexivity|].
    induction (statusWatchers s); simpl; auto. }
  destruct configResult as [|error|config].
  - intros [= <- <-]. auto.
  - destruct (waitForReady md).
    + intros [= <- <-]. auto.
    + destruct (outputStatus error s) eqn:Ho. intros [= <- <-]. eauto.
  - destruct (negb (status config =? Status_OK)%Z).
    + destruct (restrictControlPlaneStatusCode _ _) as [c d].
      destruct (outputStatus _ s) eqn:Ho. intros [= <- <-]. eauto.
    + intros [= <- <-].
      split; [destruct (methodConfig_timeout config); reflexivity|].
      destruct (methodConfig_timeout config); simpl;
        destruct (readPending s), (pendingMessage s) as [[c m]|], (pendingHalfClose s);
        reflexivity.
Qed.

(** The merge of a method-config timeout does change the deadline. *)
Lemma getConfig_merges_timeout now config timeout md l s :
  ended s = false -> metadata s = Some md -> listener s = Some l ->
  status config = Status_OK -> methodConfig_timeout config = Some timeout ->
  exists s' effects,
    getConfig now (SUCCESS config) s = Some (s', effects)
    /\ deadline s' = minDeadline (deadline s) (configDeadline now timeout).
Proof.
  intros He Hm Hl Hok Ht. unfold getConfig.
  rewrite He, Hm, Hl, Hok, Z.eqb_refl, Ht. simpl. eauto.
Qed.

(** The constructor arms the timer against the deadline it ends up with,
    the parent's included: it finishes with [runDeadlineTimer]. *)
Lemma new_runs_deadline_timer now m options :
  exists s0 before,
    new now m options
    = (fst (runDeadlineTimer now s0), before ++ snd (runDeadlineTimer now s0))
    /\ deadline (fst (new now m options)) = deadline s0
    /\ List.filter isTimerEffect before = [setTimeout {| timer_task := nothing; timer_timeout := 0 |}].
Proof.
  unfold new.
  match goal with |- context [runDeadlineTimer now ?s] => set (s0 := s) end.
  exists s0.
  exists (setTimeout {| timer_task := nothing; timer_timeout := 0 |}
            :: fst (match options_parentCall options with
                    | Some parent =>
                        ((if (Z.land (options_flags options) Propagate_CANCELLATION =? 0)%Z
                          then [] else [parent_on_cancelled]),
                         (if (Z.land (options_flags options) Propagate_DEADLINE =? 0)%Z
                          then options_deadline options
                          else minDeadline (options_deadline options)
                                 (parent_deadline parent)))
                    | None => ([], options_deadline options)
                    end)).
  destruct (runDeadlineTimer now s0) as [s1 e1] eqn:Hr. simpl.
  repeat split.
  - unfold runDeadlineTimer in Hr. destruct (deadline s0) eqn:Hd.
    + destruct (getRelativeTimeout now ms <=? 0)%Z; injection Hr as <- <-; simpl; auto.
    + injection Hr as <- <-. auto.
  - destruct (options_parentCall options); simpl; [|reflexivity].
    destruct (Z.land (options_flags options) Propagate_CANCELLATION =? 0)%Z; reflexivity.
Qed.

End ResolvingCallProperties.

Lemma buffered_operations_replay_in_order_witness :
  exists s1 s2 inner replay,
    CallTrace.applyOps
      [CallTrace.OpSendMessage 1 "a"; CallTrace.OpHalfClose; CallTrace.OpStartRead]
      (ResolvingCall.set_started
         {| ResolvingCall.values := Sample.noMetadata; ResolvingCall.waitForReady := false |}
         7 Sample.freshCall) = (s1, [])
    /\ @ResolvingCall.getConfig Sample.constants 0
         (ResolvingCall.SUCCESS Sample.plainConfig) s1
       = Some (s2, [ResolvingCall.filterStackFactory_push [];
                    ResolvingCall.createInnerCall inner;
                    ResolvingCall.child_start
                      {| ResolvingCall.values := Sample.noMetadata;
                         ResolvingCall.waitForReady := false |}] ++ replay)
    /\ ResolvingCall.child s2 = Some inner
    /\ replay = [ResolvingCall.child_startRead;
                 ResolvingCall.child_sendMessageWithContext 1 "a";
                 ResolvingCall.child_halfClose]
    /\ StronglySorted (fun a b => CallTrace.replayRank a < CallTrace.replayRank b) replay.
Proof.
  exact (@buffered_operations_replay_in_order Sample.constants 0 Sample.plainConfig
           {| ResolvingCall.values := Sample.noMetadata; ResolvingCall.waitForReady := false |}
           7
           [CallTrace.OpSendMessage 1 "a"; CallTrace.OpHalfClose; CallTrace.OpStartRead]
           (ResolvingCall.set_started
              {| ResolvingCall.values := Sample.noMetadata;
                 ResolvingCall.waitForReady := false |}
              7 Sample.freshCall)
           eq_refl eq_refl eq_refl eq_refl eq_refl).
Defined.


(** C4 fails on the code at the third place it names. A call is created
    without a deadline at time 0, so that no expiry is scheduled; it is
    started and bound with a configuration whose method timeout is one
    second. The deadline of the call and of its inner call becomes time 1000,
    yet the call still holds the idle timer of its creation and binding
    neither cleared nor set a timer nor scheduled an expiry. *)
Theorem config_timeout_does_not_rearm_timer :
  let s0 := fst (@ResolvingCall.new Sample.constants 0 "/pkg.Service/Method"
                   Sample.noDeadline) in
  exists s1 effects,
    @ResolvingCall.start Sample.constants 0 (ResolvingCall.SUCCESS Sample.oneSecondConfig)
      {| ResolvingCall.values := Sample.noMetadata; ResolvingCall.waitForReady := false |}
      7 s0 = Some (s1, effects)
    /\ ResolvingCall.deadline s0 = ResolvingCall.Infinity
    /\ ResolvingCall.deadline s1 = ResolvingCall.At 1000
    /\ ResolvingCall.deadlineTimer s1
       = {| ResolvingCall.timer_task := ResolvingCall.nothing;
            ResolvingCall.timer_timeout := 0 |}
    /\ List.filter CallTrace.isTimerEffect effects = [].
Proof. simpl. do 2 eexists. repeat split. Qed.

(** ** Weighted cluster selection *)

Section ClusterSelection.
Import Resolver.

Lemma Qltb_lt x y : Qltb x y = true <-> (x < y)%Q.
Proof.
  unfold Qltb. rewrite negb_true_iff. split.
  - intros Hb. apply Qnot_le_lt. intros Hle.
    apply Qle_bool_iff in Hle. congruence.
  - intros Hlt. destruct (Qle_bool y x) eqn:Hb; [|reflexivity].
    apply Qle_bool_iff in Hb. exfalso. exact (Qlt_not_le _ _ Hlt Hb).
Qed.

Lemma QofN_le a b : (a <= b)%N -> (QofN a <= QofN b)%Q.
Proof. intros Hle. unfold QofN. rewrite <- Zle_Qle. lia. Qed.



Lemma cumulate_names clusterWeights : forall base,
  map choice_cluster (cumulate clusterWeights base) = map cw_name clusterWeights.
Proof.
  induction clusterWeights as [|cw rest IH]; intros base; simpl; [reflexivity|].
  now rewrite IH.
Qed.


End ClusterSelection.


(** ** The resolver: one routing table, one error, one ref *)

Section ResolverSteps.
Import Resolver.
Context `{Environment}.

Lemma handleRouteConfig_no_virtual_host routeConfig r :
  GRPC_XDS_EXPERIMENTAL_ROUTING = true ->
  findVirtualHostForDomain (virtual_hosts routeConfig) (path (target r)) = None ->
  handleRouteConfig routeConfig r
  = (set_latestRouteConfig (Some routeConfig) r,
     [reportResolutionError r "No matching route found"], Returned).
Proof. intros Hflag Hfind. unfold handleRouteConfig. simpl. now rewrite Hflag, Hfind. Qed.

Lemma handleRouteConfig_throws routeConfig r virtualHost :
  GRPC_XDS_EXPERIMENTAL_ROUTING = true ->
  findVirtualHostForDomain (virtual_hosts routeConfig) (path (target r))
  = Some virtualHost ->
  compileRoutes (routes virtualHost) ∅ [] = None ->
  handleRouteConfig routeConfig r
  = (set_latestRouteConfig (Some routeConfig) r, [], Thrown).
Proof.
  intros Hflag Hfind Hc. unfold handleRouteConfig. simpl. now rewrite Hflag, Hfind, Hc.
Qed.

Lemma handleRouteConfig_applies routeConfig r virtualHost allConfigClusters matchList :
  GRPC_XDS_EXPERIMENTAL_ROUTING = true ->
  findVirtualHostForDomain (virtual_hosts routeConfig) (path (target r))
  = Some virtualHost ->
  compileRoutes (routes virtualHost) ∅ [] = Some (allConfigClusters, matchList) ->
  handleRouteConfig routeConfig r
  = (set_clusterRefcounts
       (addClusters allConfigClusters
          (markClusters allConfigClusters (clusterRefcounts r)))
       (set_latestRouteConfig (Some routeConfig) r),
     [onSuccessfulResolution
        (XdsClusterManagerLoadBalancingConfig
           (dom (addClusters allConfigClusters
                   (markClusters allConfigClusters (clusterRefcounts r)))))
        (Some matchList)],
     Returned).
Proof.
  intros Hflag Hfind Hc. unfold handleRouteConfig. simpl. now rewrite Hflag, Hfind, Hc.
Qed.

(** With experimental routing, no routing table ever records a success. *)
Lemma experimental_routing_never_records_success routeConfig r :
  GRPC_XDS_EXPERIMENTAL_ROUTING = true ->
  hasReportedSuccess (fst (fst (handleRouteConfig routeConfig r)))
  = hasReportedSuccess r.
Proof.
  intros Hflag. unfold handleRouteConfig. rewrite Hflag. simpl.
  destruct (findVirtualHostForDomain _ _) as [virtualHost|]; [|reflexivity].
  destruct (compileRoutes _ _ _) as [[allConfigClusters matchList]|]; reflexivity.
Qed.

(** Without it, a reported success is recorded, and transient errors are
    swallowed from then on. *)
Lemma legacy_routing_records_success routeConfig r r' lb sel effects details :
  GRPC_XDS_EXPERIMENTAL_ROUTING = false ->
  handleRouteConfig routeConfig r = (r', effects, Returned) ->
  In (onSuccessfulResolution lb sel) effects ->
  hasReportedSuccess r' = true /\ onTransientError details r' = (r', [], Returned).
Proof.
  intros Hflag. unfold handleRouteConfig. rewrite Hflag.
  destruct (legacyScan _ _) as [c| |]; intros [= <- <-] Hin.
  - split; reflexivity.
  - destruct Hin as [Hin|[]]. discriminate Hin.
Qed.

Lemma legacyScan_unlisted virtualHosts targetPath :
  (forall virtualHost, In virtualHost virtualHosts ->
     ~ In targetPath (domains virtualHost)) ->
  legacyScan virtualHosts targetPath = LegacyNone.
Proof.
  induction virtualHosts as [|virtualHost rest IH]; intros Hno; simpl; [reflexivity|].
  destruct (existsb (String.eqb targetPath) (domains virtualHost)) eqn:Hex.
  - apply existsb_exists in Hex. destruct Hex as (d & Hd & Heq).
    apply String.eqb_eq in Heq. subst d.
    exfalso. exact (Hno virtualHost (or_introl eq_refl) Hd).
  - apply IH. intros vh Hvh. apply Hno. right. exact Hvh.
Qed.

(** C9: a routing table without a virtual host for the target makes the
    resolver report one failure, whose detail names the target and ends in
    "No matching route found", and return; the ref-count table is the one
    it was. With experimental routing the virtual host is looked up by the
    domain matcher; without it, by the presence of the target among the
    domains. *)
Theorem no_matching_virtual_host_reports_failure (routeConfig : RouteConfiguration)
    (r : XdsResolver) :
  (if GRPC_XDS_EXPERIMENTAL_ROUTING
   then findVirtualHostForDomain (virtual_hosts routeConfig) (path (target r)) = None
   else forall virtualHost, In virtualHost (virtual_hosts routeConfig) ->
          ~ In (path (target r)) (domains virtualHost)) ->
  handleRouteConfig routeConfig r
  = (set_latestRouteConfig (Some routeConfig) r,
     [onError ("xDS name resolution failed for target " +:+ uriToString (target r)
               +:+ ": " +:+ "No matching route found")],
     Returned)
  /\ clusterRefcounts (fst (fst (handleRouteConfig routeConfig r))) = clusterRefcounts r.
Proof.
  intros Hnone.
  assert (Heq : handleRouteConfig routeConfig r
                = (set_latestRouteConfig (Some routeConfig) r,
                   [reportResolutionError r "No matching route found"], Returned)).
  { destruct GRPC_XDS_EXPERIMENTAL_ROUTING eqn:Hflag.
    - now apply handleRouteConfig_no_virtual_host.
    - unfold handleRouteConfig. rewrite Hflag. simpl.
      now rewrite (legacyScan_unlisted _ _ Hnone). }
  rewrite Heq. split; reflexivity.
Qed.



(** What [configSelector] returns: a refusal that leaves the resolver as
    it is, or a cluster with the closure that unrefs that same cluster,
    after a single [refCluster] of it. *)
Lemma configSelector_result matchList methodName metadata draws : forall r k config r' k',
  configSelector matchList methodName metadata r draws k = (config, r', k') ->
  (status config = UNAVAILABLE /\ onCommitted config = None /\ r' = r)
  \/ (status config = OK
      /\ onCommitted config = Some (pickInformation_cluster config)
      /\ r' = refCluster (pickInformation_cluster config) r
      /\ exists m k1, In m matchList
           /\ fst (action m draws k1) = pickInformation_cluster config).
Proof.
  induction matchList as [|m rest IH]; intros r k config r' k'; simpl.
  - intros [= <- <- <-]. left. auto.
  - destruct (matcher m methodName metadata draws k) as [matched k1].
    destruct matched.
    + destruct (action m draws k1) as [clusterName k2] eqn:Ha.
      intros [= <- <- <-]. right. simpl. repeat split.
      exists m, k1. rewrite Ha. auto.
    + intros Hs. destruct (IH _ _ _ _ _ Hs) as [?|(? & ? & ? & m' & k1' & ? & ?)];
        [left; assumption|].
      right. repeat split; auto. exists m', k1'. auto.
Qed.


End ResolverSteps.

Lemma no_matching_virtual_host_reports_failure_witness :
  @Resolver.handleRouteConfig Sample.routingOn (Sample.tableFor "other.example.org" "A")
    (Resolver.newXdsResolver Sample.svc)
  = (Resolver.set_latestRouteConfig (Some (Sample.tableFor "other.example.org" "A"))
       (Resolver.newXdsResolver Sample.svc),
     [Resolver.onError
        "xDS name resolution failed for target xds:svc.example.com: No matching route found"],
     Resolver.Returned).
Proof.
  exact (proj1 (@no_matching_virtual_host_reports_failure Sample.routingOn
                  (Sample.tableFor "other.example.org" "A")
                  (Resolver.newXdsResolver Sample.svc) eq_refl)).
Defined.


(** C1 fails on the code when experimental routing is on. The resolver of
    [xds:svc.example.com] receives a routing table whose virtual host matches
    and reports a successful resolution; the transient error that follows, on
    either watch, is reported as a resolution failure, and the resolver still
    holds that it has reported no success. *)
Theorem transient_error_after_success_is_surfaced :
  exists r1 lb sel,
    @Resolver.rdsWatcher_onValidUpdate Sample.routingOn
      (Sample.tableFor "svc.example.com" "A") (Resolver.newXdsResolver Sample.svc)
    = (r1, [Resolver.onSuccessfulResolution lb sel], Resolver.Returned)
    /\ Resolver.hasReportedSuccess r1 = false
    /\ @Resolver.rdsWatcher_onTransientError Sample.routingOn "connection lost" r1
       = (r1,
          [Resolver.onError
             "xDS name resolution failed for target xds:svc.example.com: connection lost"],
          Resolver.Returned)
    /\ @Resolver.ldsWatcher_onTransientError Sample.routingOn "connection lost" r1
       = (r1,
          [Resolver.onError
             "xDS name resolution failed for target xds:svc.example.com: connection lost"],
          Resolver.Returned).
Proof.
  do 3 eexists. split.
  - unfold Resolver.rdsWatcher_onValidUpdate.
    eapply (@handleRouteConfig_applies Sample.routingOn); reflexivity.
  - repeat split.
Qed.

(** ** The domain matcher *)

Section DomainMatcher.
Import Resolver.

Lemma MatchType_value_inj a b : MatchType_value a = MatchType_value b -> a = b.
Proof. destruct a, b; simpl; intros Heq; congruence. Qed.

Lemma isExact_spec t : isExact t = true <-> t = EXACT_MATCH.
Proof. destruct t; cbv; split; intros Heq; congruence. Qed.

Lemma MatchType_value_bound t : MatchType_value t <= 4.
Proof. destruct t; simpl; lia. Qed.

Lemma exact_pattern_matches_only_itself domain p :
  domainPatternMatchType p = EXACT_MATCH ->
  patternMatches domain p = true -> p = domain.
Proof.
  unfold patternMatches. intros ->. simpl. intros Heq.
  apply String.eqb_eq in Heq. congruence.
Qed.

Lemma invalid_pattern_never_matches domain p :
  patternMatches domain p = true ->
  domainPatternMatchType p <> INVALID_MATCH /\ p <> "".
Proof.
  unfold patternMatches. intros Hm. split.
  - intros Hinv. rewrite Hinv in Hm. discriminate Hm.
  - intros ->. discriminate Hm.
Qed.

(** *** The scan against the loops *)

Lemma scanStep_cases domain s c :
  (scanStep domain s c = s
   /\ (patternMatches domain (snd c) = false
       \/ MatchType_value (bestMatchType s)
          < MatchType_value (domainPatternMatchType (snd c))
       \/ (MatchType_value (domainPatternMatchType (snd c))
           = MatchType_value (bestMatchType s)
           /\ String.length (snd c) <= longestMatch s)))
  \/ (scanStep domain s c
      = {| targetVhost := Some (fst c);
           bestMatchType := domainPatternMatchType (snd c);
           longestMatch := String.length (snd c) |}
      /\ patternMatches domain (snd c) = true
      /\ (MatchType_value (domainPatternMatchType (snd c))
          < MatchType_value (bestMatchType s)
          \/ (MatchType_value (domainPatternMatchType (snd c))
              = MatchType_value (bestMatchType s)
              /\ longestMatch s < String.length (snd c)))).
Proof.
  unfold scanStep, patternMatches.
  destruct (Nat.ltb_spec (MatchType_value (bestMatchType s))
              (MatchType_value (domainPatternMatchType (snd c)))) as [Hlt|Hge].
  { left. auto. }
  destruct (Nat.eqb_spec (MatchType_value (domainPatternMatchType (snd c)))
              (MatchType_value (bestMatchType s))) as [Heq|Hne]; simpl.
  - destruct (Nat.leb_spec (String.length (snd c)) (longestMatch s)) as [Hle|Hgt].
    { left. auto. }
    destruct (domainMatch _ _ _) eqn:Hm; [right|left]; auto.
  - destruct (domainMatch _ _ _) eqn:Hm; [right|left]; auto.
    repeat split. left. lia.
Qed.

Lemma scanStep_settled domain s c : settled domain s -> settled domain (scanStep domain s c).
Proof.
  intros Hs. destruct (scanStep_cases domain s c) as [[-> _]|(-> & Hm & _)]; [exact Hs|].
  intros Hexact. simpl in *.
  rewrite (exact_pattern_matches_only_itself _ _ Hexact Hm). lia.
Qed.

Lemma scanStep_exact_stays domain s c :
  settled domain s -> bestMatchType s = EXACT_MATCH -> scanStep domain s c = s.
Proof.
  intros Hs Hexact.
  destruct (scanStep_cases domain s c) as [[-> _]|(_ & Hm & Hbetter)]; [reflexivity|].
  rewrite Hexact in Hbetter. simpl in Hbetter.
  destruct Hbetter as [Hlt|[Heq Hlen]]; [lia|].
  apply (MatchType_value_inj _ EXACT_MATCH) in Heq.
  rewrite (exact_pattern_matches_only_itself _ _ Heq Hm) in Hlen.
  specialize (Hs Hexact). lia.
Qed.

Lemma fold_scanStep_exact_stays domain cs : forall s,
  settled domain s -> bestMatchType s = EXACT_MATCH ->
  fold_left (scanStep domain) cs s = s.
Proof.
  induction cs as [|c cs IH]; intros s Hs Hexact; simpl; [reflexivity|].
  rewrite (scanStep_exact_stays _ _ _ Hs Hexact). now apply IH.
Qed.

Lemma fold_scanStep_settled domain cs : forall s,
  settled domain s -> settled domain (fold_left (scanStep domain) cs s).
Proof.
  induction cs as [|c cs IH]; intros s Hs; simpl; [exact Hs|].
  apply IH. now apply scanStep_settled.
Qed.

(** The inner loop is the fold of its turns: its [break] only skips
    turns that would change nothing. *)
Lemma scanDomains_fold virtualHost domain patterns : forall s,
  settled domain s ->
  scanDomains virtualHost domain patterns s
  = fold_left (scanStep domain) (map (fun p => (virtualHost, p)) patterns) s.
Proof.
  induction patterns as [|p rest IH]; intros s Hs; simpl; [reflexivity|].
  pose proof (scanStep_settled domain s (virtualHost, p) Hs) as Hs'.
  assert (Hstep : scanStep domain s (virtualHost, p)
                  = if MatchType_value (bestMatchType s)
                       <? MatchType_value (domainPatternMatchType p) then s
                    else if (MatchType_value (domainPatternMatchType p)
                             =? MatchType_value (bestMatchType s))
                            && (String.length p <=? longestMatch s) then s
                    else if domainMatch (domainPatternMatchType p) p domain
                    then {| targetVhost := Some virtualHost;
                            bestMatchType := domainPatternMatchType p;
                            longestMatch := String.length p |}
                    else s) by reflexivity.
  rewrite Hstep in Hs' |- *. clear Hstep.
  destruct (MatchType_value (bestMatchType s) <? MatchType_value (domainPatternMatchType p));
    [now apply IH|].
  destruct ((MatchType_value (domainPatternMatchType p) =? MatchType_value (bestMatchType s))
            && (String.length p <=? longestMatch s)); [now apply IH|].
  destruct (isExact _) eqn:Hexact.
  - apply isExact_spec in Hexact.
    symmetry. now apply fold_scanStep_exact_stays.
  - now apply IH.
Qed.

Lemma scanVirtualHosts_fold domain virtualHostList : forall s,
  settled domain s ->
  scanVirtualHosts virtualHostList domain s
  = fold_left (scanStep domain) (candidates virtualHostList) s.
Proof.
  induction virtualHostList as [|virtualHost rest IH]; intros s Hs; simpl; [reflexivity|].
  rewrite fold_left_app, (scanDomains_fold _ _ _ _ Hs).
  pose proof (fold_scanStep_settled domain
                (map (fun p => (virtualHost, p)) (domains virtualHost)) s Hs) as Hs'.
  destruct (isExact _) eqn:Hexact.
  - apply isExact_spec in Hexact. symmetry. now apply fold_scanStep_exact_stays.
  - now apply IH.
Qed.

(** *** The fold against the order of the spec *)

Lemma scanStep_invariant domain seen s c :
  scanInvariant domain seen s ->
  scanInvariant domain (seen ++ [c]) (scanStep domain s c).
Proof.
  intros Hinv. destruct c as [virtualHost p].
  destruct (scanStep_cases domain s (virtualHost, p)) as [[-> Hwhy]|(-> & Hm & Hbetter)];
    simpl in *; unfold scanInvariant in *.
  - (* the pattern is passed over *)
    destruct (targetVhost s) as [vh0|].
    + destruct Hinv as (p0 & (before & after & -> & Hm0 & Hbefore & Hafter) & Hbest & Hlen).
      exists p0. split; [|auto].
      exists before, (after ++ [(virtualHost, p)]).
      split; [now rewrite <- app_assoc|]. split; [exact Hm0|]. split; [exact Hbefore|].
      intros vh q Hin Hq. apply in_app_or in Hin. destruct Hin as [Hin|[[= <- <-]|[]]].
      * now apply (Hafter vh q).
      * unfold betterPattern. rewrite <- Hbest, <- Hlen.
        destruct Hwhy as [Hno|[Hlt|[Heq Hle]]]; [congruence|lia|lia].
    + destruct Hinv as (Hbest & Hlen & Hnone). repeat split; auto.
      intros vh q Hin. apply in_app_or in Hin. destruct Hin as [Hin|[[= <- <-]|[]]].
      * now apply (Hnone vh q).
      * destruct Hwhy as [Hno|[Hlt|[Heq Hle]]]; [exact Hno| |].
        -- rewrite Hbest in Hlt. pose proof (MatchType_value_bound (domainPatternMatchType p)).
           simpl in Hlt. lia.
        -- rewrite Hbest in Heq. apply (MatchType_value_inj _ INVALID_MATCH) in Heq.
           unfold patternMatches. now rewrite Heq.
  - (* the pattern becomes the choice *)
    exists p. split; [|auto].
    exists seen, []. split; [reflexivity|]. split; [exact Hm|]. split; [|intros ? ? []].
    intros vh q Hin Hq.
    destruct (targetVhost s) as [vh0|].
    + destruct Hinv as (p0 & (before & after & -> & Hm0 & Hbefore & Hafter) & Hbest & Hlen).
      rewrite Hbest, Hlen in Hbetter.
      apply in_app_or in Hin. destruct Hin as [Hin|[[= <- <-]|Hin]].
      * specialize (Hbefore vh q Hin Hq). unfold betterPattern in *. lia.
      * unfold betterPattern. lia.
      * specialize (Hafter vh q Hin Hq). unfold betterPattern in *. lia.
    + destruct Hinv as (_ & _ & Hnone). rewrite (Hnone vh q Hin) in Hq. discriminate Hq.
Qed.

Lemma fold_scanStep_invariant domain cs : forall seen s,
  scanInvariant domain seen s ->
  scanInvariant domain (seen ++ cs) (fold_left (scanStep domain) cs s).
Proof.
  induction cs as [|c cs IH]; intros seen s Hinv; simpl.
  - now rewrite app_nil_r.
  - replace (seen ++ c :: cs) with ((seen ++ [c]) ++ cs) by now rewrite <- app_assoc.
    apply IH. now apply scanStep_invariant.
Qed.

Lemma scanStart_settled domain : settled domain scanStart.
Proof. intros Hexact. discriminate Hexact. Qed.

Lemma findVirtualHostForDomain_invariant virtualHostList domain :
  scanInvariant domain (candidates virtualHostList)
    (scanVirtualHosts virtualHostList domain scanStart).
Proof.
  rewrite (scanVirtualHosts_fold _ _ _ (scanStart_settled domain)).
  apply (fold_scanStep_invariant domain (candidates virtualHostList) [] scanStart).
  simpl. repeat split. intros vh q [].
Qed.

(** *** The two [break]s *)

Lemma scanDomains_exact_stays virtualHost domain patterns : forall s,
  bestMatchType s = EXACT_MATCH -> String.length domain <= longestMatch s ->
  scanDomains virtualHost domain patterns s = s.
Proof.
  induction patterns as [|q rest IH]; intros s Hexact Hlen; simpl; [reflexivity|].
  destruct (Nat.ltb_spec (MatchType_value (bestMatchType s))
              (MatchType_value (domainPatternMatchType q))) as [Hlt|Hge];
    [now apply IH|].
  destruct (Nat.eqb_spec (MatchType_value (domainPatternMatchType q))
              (MatchType_value (bestMatchType s))) as [Heq|Hne]; simpl.
  - destruct (Nat.leb_spec (String.length q) (longestMatch s)) as [Hle|Hgt];
      [now apply IH|].
    rewrite Hexact in Heq. apply (MatchType_value_inj _ EXACT_MATCH) in Heq.
    rewrite Heq. simpl.
    destruct (String.eqb_spec domain q) as [->|Hneq]; [lia|].
    now rewrite Hexact.
  - (* a worse match type was already passed over *)
    rewrite Hexact in Hge, Hne. simpl in Hge, Hne. lia.
Qed.

Lemma scanDomains_break virtualHost domain p after before : forall s,
  domainPatternMatchType p = EXACT_MATCH ->
  patternMatches domain p = true ->
  scanDomains virtualHost domain (before ++ p :: after) s
  = scanDomains virtualHost domain (before ++ [p]) s.
Proof.
  intros s Hexact Hm. revert s.
  induction before as [|q before IH]; intros s; simpl.
  - unfold patternMatches in Hm. rewrite Hexact in Hm |- *. simpl in Hm |- *.
    rewrite Hm. simpl.
    destruct (MatchType_value (bestMatchType s)) eqn:Hv; simpl; [|reflexivity].
    destruct (Nat.leb_spec (String.length p) (longestMatch s)) as [Hle|Hgt];
      [|reflexivity].
    apply scanDomains_exact_stays.
    + now apply MatchType_value_inj.
    + apply String.eqb_eq in Hm. now subst.
  - destruct (_ <? _); [apply IH|].
    destruct (_ && _); [apply IH|].
    destruct (isExact _); [reflexivity|apply IH].
Qed.

Lemma scanDomains_keeps_exact virtualHost domain patterns : forall s,
  bestMatchType s = EXACT_MATCH ->
  bestMatchType (scanDomains virtualHost domain patterns s) = EXACT_MATCH.
Proof.
  induction patterns as [|q rest IH]; intros s Hexact; simpl; [exact Hexact|].
  destruct (Nat.ltb_spec (MatchType_value (bestMatchType s))
              (MatchType_value (domainPatternMatchType q))) as [Hlt|Hge];
    [now apply IH|].
  destruct (_ && _); [now apply IH|].
  assert (Hq : domainPatternMatchType q = EXACT_MATCH).
  { apply MatchType_value_inj. rewrite Hexact in Hge. simpl in *. lia. }
  destruct (domainMatch _ _ _).
  - simpl. rewrite Hq. reflexivity.
  - rewrite Hexact. simpl. exact Hexact.
Qed.

Lemma scanDomains_reaches_exact virtualHost domain p patterns : forall s,
  In p patterns ->
  domainPatternMatchType p = EXACT_MATCH ->
  patternMatches domain p = true ->
  bestMatchType (scanDomains virtualHost domain patterns s) = EXACT_MATCH.
Proof.
  intros s Hin Hexact Hm. revert s.
  induction patterns as [|q rest IH]; intros s; [destruct Hin|]. simpl.
  destruct Hin as [->|Hin].
  - unfold patternMatches in Hm. rewrite Hexact in Hm |- *. simpl in Hm |- *.
    rewrite Hm. simpl.
    destruct (MatchType_value (bestMatchType s)) eqn:Hv; simpl; [|reflexivity].
    destruct (String.length p <=? longestMatch s); [|reflexivity].
    apply scanDomains_keeps_exact. now apply MatchType_value_inj.
  - destruct (_ <? _); [now apply IH|].
    destruct (_ && _); [now apply IH|].
    destruct (isExact _) eqn:Hq; [now apply isExact_spec|now apply IH].
Qed.

Lemma scanVirtualHosts_break domain virtualHost p after before : forall s,
  In p (domains virtualHost) ->
  domainPatternMatchType p = EXACT_MATCH ->
  patternMatches domain p = true ->
  scanVirtualHosts (before ++ virtualHost :: after) domain s
  = scanVirtualHosts (before ++ [virtualHost]) domain s.
Proof.
  intros s Hin Hexact Hm. revert s.
  induction before as [|vh before IH]; intros s; simpl.
  - rewrite (scanDomains_reaches_exact virtualHost domain p _ s Hin Hexact Hm).
    reflexivity.
  - destruct (isExact _); [reflexivity|apply IH].
Qed.

Lemma findVirtualHostForDomain_In virtualHostList domain virtualHost :
  findVirtualHostForDomain virtualHostList domain = Some virtualHost ->
  In virtualHost virtualHostList.
Proof.
  intros Hsome.
  pose proof (findVirtualHostForDomain_invariant virtualHostList domain) as Hinv.
  unfold scanInvariant in Hinv. unfold findVirtualHostForDomain in Hsome.
  rewrite Hsome in Hinv. destruct Hinv as (p & (before & after & Heq & _) & _).
  assert (Hin : In (virtualHost, p) (candidates virtualHostList)).
  { rewrite Heq. apply in_or_app. right. now left. }
  unfold candidates in Hin. apply in_flat_map in Hin.
  destruct Hin as (vh & Hvh & Hp). apply in_map_iff in Hp.
  destruct Hp as (q & [= <- <-] & _). exact Hvh.
Qed.

(** C5: the domain matcher returns no virtual host exactly when no
    pattern matches the target; otherwise it returns the virtual host of a
    pattern that matches, is neither empty nor invalid, is strictly better
    (a better match type or, for the same type, a greater length) than every
    matching pattern before it in the order of the scan, and is bettered by
    no matching pattern after it. The patterns that follow an exact match in
    a virtual host, and the virtual hosts that follow one with an exact
    match, have no part in the scan. *)
Theorem domain_matcher_selects_best_first_seen (virtualHostList : list VirtualHost)
    (domain : string) :
  (findVirtualHostForDomain virtualHostList domain = None
   <-> forall vh q, In (vh, q) (candidates virtualHostList) ->
         patternMatches domain q = false)
  /\ (forall virtualHost,
        findVirtualHostForDomain virtualHostList domain = Some virtualHost ->
        exists p, bestFirstSeen domain (candidates virtualHostList) virtualHost p
          /\ domainPatternMatchType p <> INVALID_MATCH /\ p <> "")
  /\ (forall virtualHost before p after s,
        domainPatternMatchType p = EXACT_MATCH ->
        patternMatches domain p = true ->
        scanDomains virtualHost domain (before ++ p :: after) s
        = scanDomains virtualHost domain (before ++ [p]) s)
  /\ (forall before virtualHost after p,
        In p (domains virtualHost) ->
        domainPatternMatchType p = EXACT_MATCH ->
        patternMatches domain p = true ->
        findVirtualHostForDomain (before ++ virtualHost :: after) domain
        = findVirtualHostForDomain (before ++ [virtualHost]) domain).
Proof.
  pose proof (findVirtualHostForDomain_invariant virtualHostList domain) as Hinv.
  unfold scanInvariant in Hinv. unfold findVirtualHostForDomain.
  repeat split.
  - intros Hnone. rewrite Hnone in Hinv. tauto.
  - intros Hno. destruct (targetVhost _) as [vh|]; [|reflexivity].
    destruct Hinv as (p & (before & after & Heq & Hm & _) & _).
    rewrite (Hno vh p) in Hm; [discriminate Hm|].
    rewrite Heq. apply in_or_app. right. left. reflexivity.
  - intros virtualHost Hsome. rewrite Hsome in Hinv.
    destruct Hinv as (p & Hbest & _). exists p. split; [exact Hbest|].
    destruct Hbest as (before & after & _ & Hm & _).
    now apply (invalid_pattern_never_matches domain).
  - intros. now apply scanDomains_break.
  - intros before virtualHost after p Hin Hexact Hm.
    now rewrite (scanVirtualHosts_break domain virtualHost p after before scanStart).
Qed.

End DomainMatcher.

Lemma domain_matcher_selects_best_first_seen_witness :
  Resolver.findVirtualHostForDomain Sample.threeHosts "a.example.com"
  = Some Sample.exactHost
  /\ Resolver.findVirtualHostForDomain
       ([Sample.suffixHost] ++ Sample.exactHost :: [Sample.universeHost]) "a.example.com"
     = Resolver.findVirtualHostForDomain ([Sample.suffixHost] ++ [Sample.exactHost])
         "a.example.com".
Proof.
  split; [reflexivity|].
  exact (proj2 (proj2 (proj2 (domain_matcher_selects_best_first_seen
                                Sample.threeHosts "a.example.com")))
           [Sample.suffixHost] Sample.exactHost [Sample.universeHost] "a.example.com"
           (or_introl eq_refl) eq_refl eq_refl).
Defined.

(** ** The cluster ref-count table *)

Section RefCounts.
Import Resolver System.
Context `{Environment}.

(** *** The two loops of the reconciliation *)

Lemma markClusters_lookup allConfigClusters (m : gmap string RefCount) clusterName :
  markClusters allConfigClusters m !! clusterName
  = m !! clusterName ≫= markEntry allConfigClusters clusterName.
Proof. unfold markClusters. apply map_lookup_imap. Qed.

Lemma addCluster_lookup added (m : gmap string RefCount) clusterName :
  addCluster added m !! clusterName
  = if decide (clusterName = added)
    then Some {| inLastConfig := true;
                 refCount := from_option refCount 0%Z (m !! clusterName) |}
    else m !! clusterName.
Proof.
  unfold addCluster. destruct (decide (clusterName = added)) as [->|Hne].
  - destruct (m !! added); now rewrite lookup_insert_eq.
  - destruct (m !! added); now rewrite lookup_insert_ne.
Qed.

Lemma addClusters_lookup allConfigClusters (m : gmap string RefCount) clusterName :
  addClusters allConfigClusters m !! clusterName
  = if decide (clusterName ∈ allConfigClusters)
    then Some {| inLastConfig := true;
                 refCount := from_option refCount 0%Z (m !! clusterName) |}
    else m !! clusterName.
Proof.
  unfold addClusters. revert clusterName.
  pose (P := fun (m' : gmap string RefCount) (X : gset string) =>
               forall clusterName,
                 m' !! clusterName
                 = if decide (clusterName ∈ X)
                   then Some {| inLastConfig := true;
                                refCount := from_option refCount 0%Z (m !! clusterName) |}
                   else m !! clusterName).
  change (P (set_fold addCluster m allConfigClusters) allConfigClusters).
  apply set_fold_ind_L; unfold P; clear P.
  - intros clusterName. destruct (decide (clusterName ∈ (∅ : gset string))) as [Hin|_];
      [set_solver|reflexivity].
  - intros added X m' Hfresh IH clusterName.
    rewrite addCluster_lookup.
    destruct (decide (clusterName = added)) as [->|Hne].
    + rewrite IH.
      destruct (decide (added ∈ X)) as [Hin|_]; [contradiction|].
      destruct (decide (added ∈ {[added]} ∪ X)) as [_|Hout]; [reflexivity|set_solver].
    + rewrite IH.
      destruct (decide (clusterName ∈ X)) as [Hin|Hout];
        destruct (decide (clusterName ∈ {[added]} ∪ X)) as [Hin'|Hout'];
        try reflexivity; set_solver.
Qed.

(** The table after both loops. *)
Lemma reconciled_lookup allConfigClusters (m : gmap string RefCount) clusterName :
  addClusters allConfigClusters (markClusters allConfigClusters m) !! clusterName
  = if decide (clusterName ∈ allConfigClusters)
    then Some {| inLastConfig := true;
                 refCount := from_option refCount 0%Z (m !! clusterName) |}
    else match m !! clusterName with
         | Some rc =>
             if (refCount rc =? 0)%Z then None
             else Some {| inLastConfig := false; refCount := refCount rc |}
         | None => None
         end.
Proof.
  rewrite addClusters_lookup, markClusters_lookup.
  destruct (decide (clusterName ∈ allConfigClusters)) as [Hin|Hout].
  - destruct (m !! clusterName) as [rc|]; simpl; [|reflexivity].
    unfold markEntry. now rewrite decide_True.
  - destruct (m !! clusterName) as [rc|]; simpl; [|reflexivity].
    unfold markEntry. now rewrite decide_False.
Qed.

(** *** What a compiled route may select *)

Lemma firstChoice_declared x choices c :
  firstChoice x choices = Some c -> In c (map choice_cluster choices).
Proof.
  induction choices as [|choice rest IH]; simpl; [discriminate|].
  destruct (Qltb _ _); [intros [= <-]; now left|]. intros Hc. right. now apply IH.
Qed.

Lemma weightedAction_declared w draws k :
  fst (weightedAction w draws k) = ""
  \/ In (fst (weightedAction w draws k)) (map cw_name (clusters w)).
Proof.
  unfold weightedAction. simpl.
  destruct (firstChoice _ _) as [c|] eqn:Hc; simpl; [right|now left].
  apply firstChoice_declared in Hc. now rewrite cumulate_names in Hc.
Qed.

Lemma compileRoutes_selects routes : forall all0 matchList0 allConfigClusters matchList,
  compileRoutes routes all0 matchList0 = Some (allConfigClusters, matchList) ->
  (forall m, In m matchList0 -> selects all0 m) ->
  all0 ⊆ allConfigClusters
  /\ (forall m, In m matchList -> selects allConfigClusters m)
  /\ (forallb namesClusters routes = true -> "" ∉ all0 -> "" ∉ allConfigClusters).
Proof.
  induction routes as [|r rest IH]; intros all0 matchList0 allConfigClusters matchList; simpl.
  - intros [= <- <-] Hsel. repeat split; auto.
  - unfold namesClusters at 1.
    destruct (route r) as [[c|h|w]|]; [| | |discriminate].
    + destruct (match_ r) as [routeMatch|]; [|discriminate].
      intros Hc Hsel. apply IH in Hc.
      * destruct Hc as (Hsub & Hall & Hnamed). split; [set_solver|]. split; [exact Hall|].
        intros Hn Hno. apply andb_true_iff in Hn. destruct Hn as [Hc Hn].
        apply Hnamed; [exact Hn|].
        apply negb_true_iff in Hc. apply String.eqb_neq in Hc. set_solver.
      * intros m Hin. apply in_app_or in Hin. destruct Hin as [Hin|[<-|[]]].
        -- intros draws k. destruct (Hsel m Hin draws k); [now left|right; set_solver].
        -- intros draws k. right. simpl. set_solver.
    + intros Hc Hsel. apply IH in Hc; [|exact Hsel].
      destruct Hc as (Hsub & Hall & Hnamed). auto.
    + destruct (match_ r) as [routeMatch|]; [|discriminate].
      intros Hc Hsel. apply IH in Hc.
      * destruct Hc as (Hsub & Hall & Hnamed). split; [set_solver|]. split; [exact Hall|].
        intros Hn Hno. apply andb_true_iff in Hn. destruct Hn as [Hw Hn].
        apply Hnamed; [exact Hn|].
        intros Hin. apply elem_of_union in Hin. destruct Hin as [Hin|Hin]; [contradiction|].
        apply elem_of_list_to_set in Hin. apply list_elem_of_In in Hin.
        apply in_map_iff in Hin. destruct Hin as (cw & Hname & Hcw).
        rewrite forallb_forall in Hw. specialize (Hw cw Hcw).
        rewrite Hname in Hw. discriminate Hw.
      * intros m Hin. apply in_app_or in Hin. destruct Hin as [Hin|[<-|[]]].
        -- intros draws k. destruct (Hsel m Hin draws k); [now left|right; set_solver].
        -- intros draws k. simpl.
           destruct (weightedAction_declared w draws k) as [Hempty|Hdecl]; [now left|].
           right. apply elem_of_union. right. apply elem_of_list_to_set.
           now apply list_elem_of_In.
Qed.

(** *** Counting the commit callbacks *)

Lemma count_occ_delete (l : list string) : forall i c clusterName,
  l !! i = Some c ->
  count_occ string_dec (delete i l) clusterName
  = if decide (clusterName = c) then pred (count_occ string_dec l clusterName)
    else count_occ string_dec l clusterName.
Proof.
  induction l as [|x l IH]; intros i c clusterName; [discriminate|].
  destruct i as [|i]; simpl.
  - intros [= ->]. destruct (string_dec c clusterName) as [->|Hne].
    + now rewrite decide_True.
    + rewrite decide_False; [reflexivity|congruence].
  - intros Hi. specialize (IH i c clusterName Hi).
    rewrite IH.
    destruct (decide (clusterName = c)) as [->|Hne];
      destruct (string_dec x c) as [->|Hx]; try reflexivity.
    assert (Hpos : 0 < count_occ string_dec l c).
    { apply count_occ_In. apply list_elem_of_In. eapply list_elem_of_lookup_2. exact Hi. }
    lia.
Qed.

Lemma In_delete (l : list string) i clusterName :
  In clusterName (delete i l) -> In clusterName l.
Proof.
  revert i. induction l as [|x l IH]; intros i; [now destruct i|].
  destruct i as [|i]; simpl.
  - now right.
  - intros [->|Hin]; [now left|right; now apply (IH i)].
Qed.

(** *** The invariant, step by step *)

Lemma initial_consistent target : Consistent (initial target).
Proof.
  constructor; unfold initial, newXdsResolver; cbn [resolver selector inFlight
    clusterRefcounts latestRouteConfig]; intros;
    try discriminate; try contradiction;
    try (rewrite lookup_empty in *; try discriminate; reflexivity).
Qed.

(** A step that leaves the table and the commit callbacks alone. *)
Lemma kept_consistent s s' :
  Consistent s ->
  target (resolver s') = target (resolver s) ->
  clusterRefcounts (resolver s') = clusterRefcounts (resolver s) ->
  inFlight s' = inFlight s ->
  (selector s' = selector s \/ selector s' = None) ->
  (latestRouteConfig (resolver s') = latestRouteConfig (resolver s)
   \/ exists routeConfig,
        latestRouteConfig (resolver s') = Some routeConfig
        /\ wellNamed routeConfig = true
        /\ (GRPC_XDS_EXPERIMENTAL_ROUTING = true ->
            forall virtualHost,
              findVirtualHostForDomain (virtual_hosts routeConfig)
                (path (target (resolver s))) = Some virtualHost ->
              compileRoutes (routes virtualHost) ∅ [] = None)) ->
  Consistent s'.
Proof.
  intros Hc Htarget Htable Hfly Hsel Hlatest.
  constructor; unfold references; rewrite ?Htable, ?Hfly, ?Htarget.
  - exact (unnamed_absent s Hc).
  - exact (counted s Hc).
  - exact (referenced_present s Hc).
  - exact (marked_or_referenced s Hc).
  - intros matchList m draws k Hs. destruct Hsel as [Hsel|Hsel]; rewrite Hsel in Hs.
    + exact (selector_marked s Hc matchList m draws k Hs).
    + discriminate Hs.
  - intros routeConfig virtualHost allConfigClusters matchList Hflag Hl Hfind Hcompile.
    destruct Hlatest as [Hlatest|(rc & Hrc & _ & Hfails)].
    + rewrite Hlatest in Hl.
      exact (latest_marked s Hc routeConfig virtualHost allConfigClusters matchList
               Hflag Hl Hfind Hcompile).
    + rewrite Hrc in Hl. injection Hl as <-.
      rewrite (Hfails Hflag virtualHost Hfind) in Hcompile. discriminate Hcompile.
  - intros routeConfig Hl. destruct Hlatest as [Hlatest|(rc & Hrc & Hnamed & _)].
    + rewrite Hlatest in Hl. exact (latest_named s Hc routeConfig Hl).
    + rewrite Hrc in Hl. now injection Hl as <-.
Qed.

(** A step that reconciles the table against a routing table. *)
Lemma applied_consistent s s' routeConfig virtualHost allConfigClusters matchList :
  Consistent s ->
  wellNamed routeConfig = true ->
  findVirtualHostForDomain (virtual_hosts routeConfig) (path (target (resolver s)))
  = Some virtualHost ->
  compileRoutes (routes virtualHost) ∅ [] = Some (allConfigClusters, matchList) ->
  target (resolver s') = target (resolver s) ->
  clusterRefcounts (resolver s')
  = addClusters allConfigClusters
      (markClusters allConfigClusters (clusterRefcounts (resolver s))) ->
  latestRouteConfig (resolver s') = Some routeConfig ->
  selector s' = Some matchList ->
  inFlight s' = inFlight s ->
  Consistent s'.
Proof.
  intros Hc Hnamed Hfind Hcompile Htarget Htable Hlatest Hsel Hfly.
  destruct (compileRoutes_selects _ _ _ _ _ Hcompile) as (_ & Hselects & Hno);
    [intros m []|].
  assert (Hempty : "" ∉ allConfigClusters).
  { apply Hno; [|set_solver].
    unfold wellNamed in Hnamed. rewrite forallb_forall in Hnamed.
    apply Hnamed. eapply findVirtualHostForDomain_In. exact Hfind. }
  assert (Hnonneg : forall clusterName rc,
            clusterRefcounts (resolver s) !! clusterName = Some rc ->
            refCount rc = Z.of_nat (count_occ string_dec (inFlight s) clusterName)).
  { exact (counted s Hc). }
  constructor; unfold references; rewrite ?Htable, ?Hfly, ?Htarget.
  - rewrite reconciled_lookup, decide_False by exact Hempty.
    now rewrite (unnamed_absent s Hc).
  - intros clusterName rc. rewrite reconciled_lookup.
    destruct (decide (clusterName ∈ allConfigClusters)) as [Hin|Hout].
    + intros [= <-]. simpl.
      destruct (clusterRefcounts (resolver s) !! clusterName) as [rc0|] eqn:Hrc0; simpl.
      * exact (Hnonneg _ _ Hrc0).
      * assert (Hnot : ~ In clusterName (inFlight s)).
        { intros Hfl. assert (Hne : clusterName <> "") by (intros ->; contradiction).
          destruct (referenced_present s Hc clusterName Hne Hfl) as [rc1 Hrc1].
          congruence. }
        apply (count_occ_not_In string_dec) in Hnot. rewrite Hnot. reflexivity.
    + destruct (clusterRefcounts (resolver s) !! clusterName) as [rc0|] eqn:Hrc0;
        [|discriminate].
      destruct (refCount rc0 =? 0)%Z; [discriminate|].
      intros [= <-]. simpl. exact (Hnonneg _ _ Hrc0).
  - intros clusterName Hne Hfl. rewrite reconciled_lookup.
    destruct (decide (clusterName ∈ allConfigClusters)) as [Hin|Hout]; [eauto|].
    destruct (referenced_present s Hc clusterName Hne Hfl) as [rc0 Hrc0].
    rewrite Hrc0.
    assert (Hpos : 0 < count_occ string_dec (inFlight s) clusterName)
      by now apply count_occ_In.
    pose proof (Hnonneg _ _ Hrc0) as Hcount.
    destruct (Z.eqb_spec (refCount rc0) 0) as [Hz|Hnz]; [lia|eauto].
  - intros clusterName rc. rewrite reconciled_lookup.
    destruct (decide (clusterName ∈ allConfigClusters)) as [Hin|Hout].
    + intros [= <-]. now left.
    + destruct (clusterRefcounts (resolver s) !! clusterName) as [rc0|] eqn:Hrc0;
        [|discriminate].
      pose proof (Hnonneg _ _ Hrc0) as Hcount.
      destruct (Z.eqb_spec (refCount rc0) 0) as [Hz|Hnz]; [discriminate|].
      intros [= <-]. right. simpl. lia.
  - intros matchList' m draws k Hs Hm. rewrite Hsel in Hs. injection Hs as <-.
    destruct (Hselects m Hm draws k) as [Hfall|Hin]; [now left|right].
    rewrite reconciled_lookup, decide_True by exact Hin. eauto.
  - intros routeConfig' virtualHost' allConfigClusters' matchList' _ Hl Hfind' Hcompile'.
    rewrite Hlatest in Hl. injection Hl as <-.
    rewrite Hfind in Hfind'. injection Hfind' as <-.
    rewrite Hcompile in Hcompile'. injection Hcompile' as <- <-.
    intros clusterName. rewrite reconciled_lookup.
    destruct (decide (clusterName ∈ allConfigClusters)) as [Hin|Hout].
    + split; [eauto|auto].
    + split; [contradiction|]. intros (rc & Hrc & Hflag).
      destruct (clusterRefcounts (resolver s) !! clusterName) as [rc0|]; [|discriminate].
      destruct (refCount rc0 =? 0)%Z; [discriminate|].
      injection Hrc as <-. discriminate Hflag.
  - intros routeConfig' Hl. rewrite Hlatest in Hl. now injection Hl as <-.
Qed.

Lemma handleRouteConfig_consistent s routeConfig :
  Consistent s -> wellNamed routeConfig = true ->
  Consistent (afterWatcher (handleRouteConfig routeConfig (resolver s)) s).
Proof.
  intros Hc Hnamed. unfold handleRouteConfig.
  destruct GRPC_XDS_EXPERIMENTAL_ROUTING eqn:Hflag.
  - simpl.
    destruct (findVirtualHostForDomain _ _) as [virtualHost|] eqn:Hfind.
    + destruct (compileRoutes _ _ _) as [[allConfigClusters matchList]|] eqn:Hcompile.
      * eapply applied_consistent; eauto.
      * apply (kept_consistent s); simpl; auto.
        right. exists routeConfig. repeat split; auto.
        intros _ vh Hvh. congruence.
    + apply (kept_consistent s); simpl; auto.
      right. exists routeConfig. repeat split; auto.
      intros _ vh Hvh. congruence.
  - destruct (legacyScan _ _); apply (kept_consistent s); simpl; auto;
      right; exists routeConfig; repeat split; auto; intros Hf; congruence.
Qed.

Lemma publish_errors_only effects current :
  (forall e, In e effects ->
     match e with onSuccessfulResolution _ _ => False | _ => True end) ->
  publish effects current = current.
Proof.
  unfold publish. revert current.
  induction effects as [|e effects IH]; intros current Hall; simpl; [reflexivity|].
  rewrite IH; [|intros e' He'; apply Hall; now right].
  specialize (Hall e (or_introl eq_refl)). destruct e; tauto.
Qed.

Lemma publish_app effects1 effects2 current :
  publish (effects1 ++ effects2) current = publish effects2 (publish effects1 current).
Proof. unfold publish. apply fold_left_app. Qed.

(** A new call: one [refCluster] of a cluster that the selector may
    select, and one more commit callback. *)
Lemma ref_consistent s clusterName k :
  Consistent s ->
  clusterName = ""
  \/ (exists rc, clusterRefcounts (resolver s) !! clusterName = Some rc
        /\ inLastConfig rc = true) ->
  Consistent {| resolver := refCluster clusterName (resolver s);
                selector := selector s;
                inFlight := inFlight s ++ [clusterName];
                nextDraw := k |}.
Proof.
  intros Hc Hknown.
  assert (Hcount : forall c, count_occ string_dec (inFlight s ++ [clusterName]) c
                   = if decide (c = clusterName)
                     then S (count_occ string_dec (inFlight s) c)
                     else count_occ string_dec (inFlight s) c).
  { intros c. rewrite count_occ_app. simpl.
    destruct (string_dec clusterName c) as [->|Hne].
    - rewrite decide_True by reflexivity. lia.
    - rewrite decide_False by congruence. lia. }
  unfold refCluster.
  destruct (clusterRefcounts (resolver s) !! clusterName) as [rc|] eqn:Hrc.
  - assert (Htrue : inLastConfig rc = true).
    { destruct Hknown as [->|(rc' & Hrc' & Ht)]; [|congruence].
      rewrite (unnamed_absent s Hc) in Hrc. discriminate Hrc. }
    assert (Hne : clusterName <> "").
    { intros ->. rewrite (unnamed_absent s Hc) in Hrc. discriminate Hrc. }
    constructor; unfold references; simpl.
    + rewrite lookup_insert_ne by exact Hne. exact (unnamed_absent s Hc).
    + intros c rc'. rewrite Hcount, lookup_insert.
      destruct (decide (clusterName = c)) as [<-|Hc'].
      * rewrite decide_True by reflexivity. intros [= <-]. simpl.
        rewrite (counted s Hc _ _ Hrc). unfold references. lia.
      * rewrite decide_False by congruence. exact (counted s Hc c rc').
    + intros c Hcne Hin. rewrite lookup_insert.
      destruct (decide (clusterName = c)) as [<-|Hc']; [eauto|].
      apply in_app_or in Hin. destruct Hin as [Hin|[Heq|[]]]; [|congruence].
      exact (referenced_present s Hc c Hcne Hin).
    + intros c rc'. rewrite lookup_insert.
      destruct (decide (clusterName = c)) as [<-|Hc'].
      * intros [= <-]. now left.
      * exact (marked_or_referenced s Hc c rc').
    + intros matchList m draws k' Hs Hm.
      destruct (selector_marked s Hc matchList m draws k' Hs Hm)
        as [Hfall|(rc' & Hrc' & Ht)]; [now left|right].
      rewrite lookup_insert.
      destruct (decide (clusterName = fst (action m draws k'))) as [Heq|Hc']; eauto.
    + intros routeConfig virtualHost allConfigClusters matchList Hflag Hl Hfind Hcompile c.
      rewrite (latest_marked s Hc _ _ _ _ Hflag Hl Hfind Hcompile c), lookup_insert.
      destruct (decide (clusterName = c)) as [<-|Hc']; [|reflexivity].
      split; intros _; eauto.
    + exact (latest_named s Hc).
  - assert (Heq : clusterName = "").
    { destruct Hknown as [->|(rc' & Hrc' & _)]; [reflexivity|congruence]. }
    subst clusterName.
    assert (Hin : forall c rc, clusterRefcounts (resolver s) !! c = Some rc -> c <> "").
    { intros c rc' Hrc' ->. congruence. }
    constructor; unfold references; simpl.
    + exact Hrc.
    + intros c rc' Hrc'. rewrite Hcount, decide_False by now apply (Hin c rc').
      exact (counted s Hc c rc' Hrc').
    + intros c Hcne Hfl. apply in_app_or in Hfl. destruct Hfl as [Hfl|[Heq|[]]]; [|congruence].
      exact (referenced_present s Hc c Hcne Hfl).
    + exact (marked_or_referenced s Hc).
    + exact (selector_marked s Hc).
    + exact (latest_marked s Hc).
    + exact (latest_named s Hc).
Qed.

(** A commit whose cluster loses its entry: the system once the entry
    is deleted and before the latest routing table is applied again. *)
Lemma deleted_consistent s i clusterName rc :
  Consistent s ->
  inFlight s !! i = Some clusterName ->
  clusterRefcounts (resolver s) !! clusterName = Some rc ->
  inLastConfig rc = false -> (refCount rc - 1 = 0)%Z ->
  Consistent {| resolver :=
                  set_clusterRefcounts (delete clusterName (clusterRefcounts (resolver s)))
                    (resolver s);
                selector := selector s;
                inFlight := delete i (inFlight s);
                nextDraw := nextDraw s |}.
Proof.
  intros Hc Hi Hrc Hfalse Hone.
  assert (Hflagged : forall c rc', clusterRefcounts (resolver s) !! c = Some rc' ->
                       inLastConfig rc' = true -> c <> clusterName).
  { intros c rc' Hrc' Ht ->. congruence. }
  constructor; unfold references; simpl.
  - destruct (decide (clusterName = "")) as [->|Hne].
    + apply lookup_delete_eq.
    + rewrite lookup_delete_ne by exact Hne. exact (unnamed_absent s Hc).
  - intros c rc' Hrc'. apply lookup_delete_Some in Hrc'. destruct Hrc' as [Hne Hrc'].
    rewrite (count_occ_delete _ _ _ _ Hi), decide_False by congruence.
    exact (counted s Hc c rc' Hrc').
  - intros c Hcne Hin.
    destruct (decide (c = clusterName)) as [->|Hne].
    + apply (count_occ_In string_dec) in Hin.
      rewrite (count_occ_delete _ _ _ _ Hi), decide_True in Hin by reflexivity.
      pose proof (counted s Hc _ _ Hrc) as Hcount. unfold references in Hcount. lia.
    + rewrite lookup_delete_ne by congruence.
      apply (referenced_present s Hc c Hcne). eapply In_delete. exact Hin.
  - intros c rc' Hrc'. apply lookup_delete_Some in Hrc'. destruct Hrc' as [_ Hrc'].
    exact (marked_or_referenced s Hc c rc' Hrc').
  - intros matchList m draws k Hs Hm.
    destruct (selector_marked s Hc matchList m draws k Hs Hm)
      as [Hfall|(rc' & Hrc' & Ht)]; [now left|right].
    exists rc'. split; [|exact Ht].
    rewrite lookup_delete_ne; [exact Hrc'|].
    intros Heq. exact (Hflagged _ _ Hrc' Ht (eq_sym Heq)).
  - intros routeConfig virtualHost allConfigClusters matchList Hflag Hl Hfind Hcompile c.
    rewrite (latest_marked s Hc _ _ _ _ Hflag Hl Hfind Hcompile c).
    split; intros (rc' & Hrc' & Ht); exists rc'; (split; [|exact Ht]).
    + rewrite lookup_delete_ne; [exact Hrc'|].
      intros Heq. exact (Hflagged _ _ Hrc' Ht (eq_sym Heq)).
    + apply lookup_delete_Some in Hrc'. tauto.
  - exact (latest_named s Hc).
Qed.

(** A commit whose cluster keeps its entry. *)
Lemma decremented_consistent s i clusterName rc :
  Consistent s ->
  inFlight s !! i = Some clusterName ->
  clusterRefcounts (resolver s) !! clusterName = Some rc ->
  (inLastConfig rc = true \/ refCount rc - 1 <> 0)%Z ->
  Consistent {| resolver :=
                  set_clusterRefcounts
                    (<[clusterName := {| inLastConfig := inLastConfig rc;
                                         refCount := refCount rc - 1 |}]>
                       (clusterRefcounts (resolver s)))
                    (resolver s);
                selector := selector s;
                inFlight := delete i (inFlight s);
                nextDraw := nextDraw s |}.
Proof.
  intros Hc Hi Hrc Hkeeps.
  assert (Hne : clusterName <> "").
  { intros ->. rewrite (unnamed_absent s Hc) in Hrc. discriminate Hrc. }
  assert (Hpos : 0 < count_occ string_dec (inFlight s) clusterName).
  { apply count_occ_In. apply list_elem_of_In. eapply list_elem_of_lookup_2. exact Hi. }
  pose proof (counted s Hc _ _ Hrc) as Hcount. unfold references in Hcount.
  constructor; unfold references; simpl.
  - rewrite lookup_insert_ne by exact Hne. exact (unnamed_absent s Hc).
  - intros c rc'. rewrite (count_occ_delete _ _ _ _ Hi), lookup_insert.
    destruct (decide (clusterName = c)) as [<-|Hc'].
    + rewrite decide_True by reflexivity. intros [= <-]. simpl. lia.
    + rewrite decide_False by congruence. exact (counted s Hc c rc').
  - intros c Hcne Hin. rewrite lookup_insert.
    destruct (decide (clusterName = c)) as [<-|Hc']; [eauto|].
    apply (referenced_present s Hc c Hcne). eapply In_delete. exact Hin.
  - intros c rc'. rewrite lookup_insert.
    destruct (decide (clusterName = c)) as [<-|Hc'].
    + intros [= <-]. simpl. destruct Hkeeps as [Ht|Hnz]; [now left|right; lia].
    + exact (marked_or_referenced s Hc c rc').
  - intros matchList m draws k Hs Hm.
    destruct (selector_marked s Hc matchList m draws k Hs Hm)
      as [Hfall|(rc' & Hrc' & Ht)]; [now left|right].
    rewrite lookup_insert.
    destruct (decide (clusterName = fst (action m draws k))) as [Heq|Hc']; [|eauto].
    rewrite <- Heq in Hrc'. eexists. split; [reflexivity|]. simpl. congruence.
  - intros routeConfig virtualHost allConfigClusters matchList Hflag Hl Hfind Hcompile c.
    rewrite (latest_marked s Hc _ _ _ _ Hflag Hl Hfind Hcompile c), lookup_insert.
    destruct (decide (clusterName = c)) as [<-|Hc']; [|reflexivity].
    split.
    + intros (rc' & Hrc' & Ht). eexists. split; [reflexivity|]. simpl. congruence.
    + intros (rc' & [= <-] & Ht). eauto.
  - exact (latest_named s Hc).
Qed.

Lemma commit_consistent s i clusterName :
  Consistent s -> inFlight s !! i = Some clusterName ->
  Consistent {| resolver := fst (fst (unrefCluster clusterName (resolver s)));
                selector :=
                  publish (snd (fst (unrefCluster clusterName (resolver s)))) (selector s);
                inFlight := delete i (inFlight s);
                nextDraw := nextDraw s |}.
Proof.
  intros Hc Hi. unfold unrefCluster.
  destruct (clusterRefcounts (resolver s) !! clusterName) as [rc|] eqn:Hrc.
  - pose proof (decremented_consistent s i clusterName rc Hc Hi Hrc) as Hdec.
    pose proof (deleted_consistent s i clusterName rc Hc Hi Hrc) as Hdel.
    destruct (inLastConfig rc) eqn:Hflag; simpl.
    { apply Hdec. now left. }
    destruct (Z.eqb_spec (refCount rc - 1) 0) as [Hz|Hnz]; simpl.
    + specialize (Hdel eq_refl Hz).
      destruct (latestRouteConfig (resolver s)) as [routeConfig|] eqn:Hl.
      * apply (handleRouteConfig_consistent _ routeConfig Hdel).
        exact (latest_named s Hc routeConfig Hl).
      * exact Hdel.
    + apply Hdec. now right.
  - assert (Heq : clusterName = "").
    { destruct (decide (clusterName = "")) as [Heq|Hne]; [exact Heq|].
      destruct (referenced_present s Hc clusterName Hne) as [rc Hrc'].
      - apply list_elem_of_In. eapply list_elem_of_lookup_2. exact Hi.
      - congruence. }
    subst clusterName. simpl.
    constructor; unfold references; simpl.
    + exact Hrc.
    + intros c rc Hrc'. rewrite (count_occ_delete _ _ _ _ Hi), decide_False.
      * exact (counted s Hc c rc Hrc').
      * intros ->. congruence.
    + intros c Hne Hin. apply (referenced_present s Hc c Hne). eapply In_delete. exact Hin.
    + exact (marked_or_referenced s Hc).
    + exact (selector_marked s Hc).
    + exact (latest_marked s Hc).
    + exact (latest_named s Hc).
Qed.

Lemma step_consistent draws s e :
  Consistent s -> wellNamedEvent e = true -> Consistent (step draws s e).
Proof.
  intros Hc Hnamed. destruct e as [update|details| |update|details| |methodName metadata|i];
    simpl.
  - destruct update as [routeConfigName|routeConfig|]; simpl.
    + destruct (bool_decide _); [apply (kept_consistent s); simpl; auto|].
      apply (kept_consistent s); simpl; auto. left.
      apply publish_errors_only. intros e He.
      destruct (latestRouteConfigName (resolver s)); simpl in He;
        repeat (destruct He as [<-|He]; [exact I|]); destruct He.
    + pose proof (handleRouteConfig_consistent s routeConfig Hc Hnamed) as Hh.
      destruct (handleRouteConfig routeConfig (resolver s)) as [[r' effects] completion].
      unfold afterWatcher in *. simpl in *.
      rewrite publish_app, (publish_errors_only _ (selector s)); [exact Hh|].
      intros e He. destruct (truthy _); simpl in He; [|destruct He].
      destruct He as [<-|[]]. exact I.
    + apply (kept_consistent s); simpl; auto.
  - unfold ldsWatcher_onTransientError, onTransientError.
    destruct (negb _); apply (kept_consistent s); simpl; auto.
  - apply (kept_consistent s); simpl; auto.
  - now apply handleRouteConfig_consistent.
  - unfold rdsWatcher_onTransientError, onTransientError.
    destruct (negb _); apply (kept_consistent s); simpl; auto.
  - apply (kept_consistent s); simpl; auto.
  - destruct (selector s) as [matchList|] eqn:Hsel; [|exact Hc].
    destruct (configSelector matchList methodName metadata (resolver s) draws (nextDraw s))
      as [[config r'] k'] eqn:Hcs.
    destruct (configSelector_result _ _ _ _ _ _ _ _ _ Hcs)
      as [(_ & Hnone & ->)|(_ & Hsome & -> & m & k1 & Hm & Hpick)].
    + rewrite Hnone. apply (kept_consistent s); simpl; auto.
    + rewrite Hsome, <- Hsel. apply ref_consistent; [exact Hc|].
      rewrite <- Hpick. exact (selector_marked s Hc matchList m draws k1 Hsel Hm).
  - destruct (inFlight s !! i) as [clusterName|] eqn:Hi; [|exact Hc].
    now apply commit_consistent.
Qed.

Lemma run_consistent draws events : forall s,
  Consistent s -> forallb wellNamedEvent events = true ->
  Consistent (run draws events s).
Proof.
  unfold run. induction events as [|e events IH]; intros s Hc Hnamed; simpl; [exact Hc|].
  simpl in Hnamed. apply andb_true_iff in Hnamed. destruct Hnamed as [He Hevents].
  apply IH; [|exact Hevents]. now apply step_consistent.
Qed.

(** The table after [handleRouteConfig]: the one before, or the one
    before reconciled against the clusters of the routing table. *)
Lemma handleRouteConfig_table routeConfig r :
  clusterRefcounts (fst (fst (handleRouteConfig routeConfig r))) = clusterRefcounts r
  \/ (GRPC_XDS_EXPERIMENTAL_ROUTING = true
      /\ exists virtualHost allConfigClusters matchList,
           findVirtualHostForDomain (virtual_hosts routeConfig) (path (target r))
           = Some virtualHost
           /\ compileRoutes (routes virtualHost) ∅ [] = Some (allConfigClusters, matchList)
           /\ clusterRefcounts (fst (fst (handleRouteConfig routeConfig r)))
              = addClusters allConfigClusters
                  (markClusters allConfigClusters (clusterRefcounts r))).
Proof.
  unfold handleRouteConfig. destruct GRPC_XDS_EXPERIMENTAL_ROUTING; simpl.
  - destruct (findVirtualHostForDomain _ _) as [virtualHost|] eqn:Hfind; [|now left].
    destruct (compileRoutes _ _ _) as [[allConfigClusters matchList]|] eqn:Hcompile;
      [|now left].
    right. split; [reflexivity|]. eauto 6.
  - destruct (legacyScan _ _); now left.
Qed.

(** The invariant of the ref-count table, on routing tables that name
    their clusters: after any sequence of watcher callbacks, new calls and
    commits on such tables, every entry of the
    ref-count table is marked as in the last applied routing table or has a
    positive ref-count, which is the number of its calls not yet committed;
    a named cluster has an entry exactly when it is so marked or so
    referenced. Hence no unmarked entry with a ref-count of 0 outlives the
    operation that makes it so: the commit that takes the last reference
    of an unmarked entry leaves no entry, and an entry without references
    survives a routing table only marked. *)
Theorem refcount_entries_are_marked_or_referenced (draws : Draws)
    (events : list Event) (target : GrpcUri) :
  forallb wellNamedEvent events = true ->
  (forall clusterName rc,
     clusterRefcounts (resolver (run draws events (initial target))) !! clusterName
     = Some rc ->
     (inLastConfig rc = true \/ (0 < refCount rc)%Z)
     /\ refCount rc
        = Z.of_nat (references clusterName (run draws events (initial target))))
  /\ (forall clusterName, clusterName <> "" ->
        is_Some (clusterRefcounts (resolver (run draws events (initial target)))
                   !! clusterName)
        <-> (exists rc,
               clusterRefcounts (resolver (run draws events (initial target)))
                 !! clusterName = Some rc
               /\ inLastConfig rc = true)
            \/ 0 < references clusterName (run draws events (initial target)))
  /\ (forall i clusterName rc,
        inFlight (run draws events (initial target)) !! i = Some clusterName ->
        clusterRefcounts (resolver (run draws events (initial target))) !! clusterName
        = Some rc ->
        inLastConfig rc = false -> refCount rc = 1%Z ->
        clusterRefcounts
          (resolver (step draws (run draws events (initial target)) (Commit i)))
          !! clusterName = None)
  /\ (forall update clusterName rc rc',
        wellNamed update = true ->
        clusterRefcounts (resolver (run draws events (initial target))) !! clusterName
        = Some rc ->
        refCount rc = 0%Z ->
        clusterRefcounts
          (resolver (step draws (run draws events (initial target)) (RdsUpdate update)))
          !! clusterName = Some rc' ->
        inLastConfig rc' = true).
Proof.
  intros Hnamed.
  pose proof (run_consistent draws events (initial target)
                (initial_consistent target) Hnamed) as Hc.
  set (s := run draws events (initial target)) in *.
  split; [|split; [|split]].
  - intros clusterName rc Hrc. split.
    + exact (marked_or_referenced s Hc clusterName rc Hrc).
    + exact (counted s Hc clusterName rc Hrc).
  - intros clusterName Hne. split.
    + intros [rc Hrc].
      destruct (marked_or_referenced s Hc clusterName rc Hrc) as [Ht|Hpos]; [eauto|].
      right. pose proof (counted s Hc clusterName rc Hrc). lia.
    + intros [(rc & Hrc & _)|Hpos]; [eauto|].
      apply (referenced_present s Hc clusterName Hne).
      unfold references in Hpos. now apply (count_occ_In string_dec).
  - intros i clusterName rc Hi Hrc Hflag Hone. simpl. rewrite Hi. simpl.
    unfold unrefCluster. rewrite Hrc, Hflag, Hone. simpl.
    destruct (latestRouteConfig (resolver s)) as [routeConfig|] eqn:Hl;
      [|apply lookup_delete_eq].
    destruct (handleRouteConfig_table routeConfig
                (set_clusterRefcounts (delete clusterName (clusterRefcounts (resolver s)))
                   (resolver s)))
      as [->|(Hon & virtualHost & allConfigClusters & matchList & Hfind & Hcompile & ->)];
      simpl; [apply lookup_delete_eq|].
    rewrite reconciled_lookup, lookup_delete_eq.
    rewrite decide_False; [reflexivity|].
    rewrite (latest_marked s Hc _ _ _ _ Hon Hl Hfind Hcompile clusterName).
    intros (rc' & Hrc' & Ht). congruence.
  - intros update clusterName rc rc' Hupdate Hrc Hzero Hrc'.
    assert (Hc' : Consistent (step draws s (RdsUpdate update)))
      by now apply step_consistent.
    destruct (marked_or_referenced _ Hc' clusterName rc' Hrc') as [Ht|Hpos]; [exact Ht|].
    pose proof (counted _ Hc' clusterName rc' Hrc') as Hcount'.
    pose proof (counted s Hc clusterName rc Hrc) as Hcount.
    unfold references in *. simpl in Hcount'. lia.
Qed.

End RefCounts.

Lemma refcount_entries_are_marked_or_referenced_witness :
  forallb System.wellNamedEvent Sample.lifecycle = true
  /\ forall i clusterName rc,
       System.inFlight
         (@System.run Sample.routingOn Sample.noDraws Sample.lifecycle
            (System.initial Sample.svc)) !! i = Some clusterName ->
       Resolver.clusterRefcounts
         (System.resolver
            (@System.run Sample.routingOn Sample.noDraws Sample.lifecycle
               (System.initial Sample.svc))) !! clusterName = Some rc ->
       Resolver.inLastConfig rc = false -> Resolver.refCount rc = 1%Z ->
       Resolver.clusterRefcounts
         (System.resolver
            (@System.step Sample.routingOn Sample.noDraws
               (@System.run Sample.routingOn Sample.noDraws Sample.lifecycle
                  (System.initial Sample.svc))
               (System.Commit i))) !! clusterName = None.
Proof.
  split; [reflexivity|].
  exact (proj1 (proj2 (proj2 (@refcount_entries_are_marked_or_referenced Sample.routingOn
                                Sample.noDraws Sample.lifecycle Sample.svc eq_refl)))).
Defined.

(** C2: the ref-count table can keep an entry that is neither marked nor
    referenced. A weighted selection falls through to the empty name, for
    which the table has no entry, so that [refCluster] does nothing; the
    next routing table names a cluster by the empty string; the commit of
    the selection then takes the count of that entry from 0 to -1, and the
    routing table after that, which no longer names it, clears its mark
    and keeps it, its count not being 0. No call is in flight at the end. *)
Theorem unpaired_commit_leaves_unmarked_entry :
  (let s := @System.run Sample.routingOn Sample.halfDraws
              (firstn 2 Sample.unpairedCommit) (System.initial Sample.svc) in
   Resolver.clusterRefcounts (System.resolver s) !! "" = None
   /\ System.inFlight s = [""])
  /\ (let s := @System.run Sample.routingOn Sample.halfDraws
                 (firstn 4 Sample.unpairedCommit) (System.initial Sample.svc) in
      Resolver.clusterRefcounts (System.resolver s) !! ""
      = Some {| Resolver.inLastConfig := true; Resolver.refCount := -1 |}
      /\ System.inFlight s = [])
  /\ (let s := @System.run Sample.routingOn Sample.halfDraws
                 Sample.unpairedCommit (System.initial Sample.svc) in
      Resolver.clusterRefcounts (System.resolver s) !! ""
      = Some {| Resolver.inLastConfig := false; Resolver.refCount := -1 |}
      /\ System.inFlight s = []).
Proof. repeat split; vm_compute; reflexivity. Qed.

(** The sample life of a reference, evaluated: the call keeps cluster A
    in the table after the second routing table, unmarked, and its commit
    removes it. *)
Example lifecycle_before_commit :
  Resolver.clusterRefcounts
    (System.resolver
       (@System.run Sample.routingOn Sample.noDraws Sample.lifecycle
          (System.initial Sample.svc))) !! "A"
  = Some {| Resolver.inLastConfig := false; Resolver.refCount := 1 |}
  /\ System.inFlight
       (@System.run Sample.routingOn Sample.noDraws Sample.lifecycle
          (System.initial Sample.svc)) = ["A"].
Proof. split; vm_compute; reflexivity. Qed.

Example lifecycle_after_commit :
  Resolver.clusterRefcounts
    (System.resolver
       (@System.run Sample.routingOn Sample.noDraws
          (Sample.lifecycle ++ [System.Commit 0]) (System.initial Sample.svc))) !! "A"
  = None
  /\ Resolver.clusterRefcounts
       (System.resolver
          (@System.run Sample.routingOn Sample.noDraws
             (Sample.lifecycle ++ [System.Commit 0]) (System.initial Sample.svc))) !! "B"
     = Some {| Resolver.inLastConfig := true; Resolver.refCount := 0 |}.
Proof. split; vm_compute; reflexivity. Qed.

(** ** The sample inputs, evaluated *)

(** Precedence of the match types: the suffix pattern wins for
    [b.example.com], the universal one for [other.org]. *)
Example suffix_match_wins :
  Resolver.findVirtualHostForDomain Sample.threeHosts "b.example.com"
  = Some Sample.suffixHost.
Proof. reflexivity. Qed.

Example universe_match_wins :
  Resolver.findVirtualHostForDomain Sample.threeHosts "other.org"
  = Some Sample.universeHost.
Proof. reflexivity. Qed.

(** The longer of two matching suffix patterns wins, whatever their order. *)
Example longest_suffix_wins :
  Resolver.findVirtualHostForDomain
    [{| Resolver.domains := ["*.foo.com"]; Resolver.routes := [] |};
     {| Resolver.domains := ["*.sub.foo.com"]; Resolver.routes := [] |}]
    "x.sub.foo.com"
  = Some {| Resolver.domains := ["*.sub.foo.com"]; Resolver.routes := [] |}
  /\ Resolver.findVirtualHostForDomain
       [{| Resolver.domains := ["*.sub.foo.com"]; Resolver.routes := [] |};
        {| Resolver.domains := ["*.foo.com"]; Resolver.routes := [] |}]
       "x.sub.foo.com"
     = Some {| Resolver.domains := ["*.sub.foo.com"]; Resolver.routes := [] |}.
Proof. split; reflexivity. Qed.

(** The numeric range [10, 20) on header [x-n]. *)
Example range_match_half_open :
  let rule := {| Resolver.name := "x-n"; Resolver.invert_match := false;
                 Resolver.header_match_specifier := Resolver.range_match 10 20 |} in
  @Resolver.getPredicateForHeaderMatcher Sample.routingOn rule "/m" (fun _ => ["15"]) = true
  /\ @Resolver.getPredicateForHeaderMatcher Sample.routingOn rule "/m" (fun _ => ["20"])
     = false
  /\ @Resolver.getPredicateForHeaderMatcher Sample.routingOn rule "/m" (fun _ => ["abc"])
     = false.
Proof. repeat split; reflexivity. Qed.

(** A rule on [content-type] reads the fixed value, not the metadata. *)
Example content_type_is_fixed :
  @Resolver.getPredicateForHeaderMatcher Sample.routingOn
    {| Resolver.name := "content-type"; Resolver.invert_match := false;
       Resolver.header_match_specifier := Resolver.exact_match "application/grpc" |}
    "/m" (fun _ => ["text/plain"]) = true.
Proof. reflexivity. Qed.

(** * Further properties of the sources *)

(** ** Strings *)

Section Strings.

Lemma length_append a b :
  String.length (a +:+ b) = String.length a + String.length b.
Proof. induction a as [|c a IH]; simpl; [reflexivity|now rewrite IH]. Qed.

Lemma substring_full s : substring 0 (String.length s) s = s.
Proof. induction s as [|c s IH]; simpl; [reflexivity|now rewrite IH]. Qed.

Lemma substring_take a b : substring 0 (String.length a) (a +:+ b) = a.
Proof.
  induction a as [|c a IH]; simpl; [now destruct b|now rewrite IH].
Qed.

Lemma substring_skip a b n : substring (String.length a) n (a +:+ b) = substring 0 n b.
Proof. induction a as [|c a IH]; simpl; [reflexivity|exact IH]. Qed.

Lemma substring_split s : forall k,
  k <= String.length s ->
  s = substring 0 k s +:+ substring k (String.length s - k) s.
Proof.
  induction s as [|c s IH]; intros k Hk; simpl in *.
  - assert (k = 0) as -> by lia. reflexivity.
  - destruct k as [|k]; simpl.
    + now rewrite substring_full.
    + change (String c s
              = String c (substring 0 k s +:+ substring k (String.length s - k) s)).
      f_equal. apply IH. lia.
Qed.

Lemma startsWith_spec s p : Js.startsWith s p = true <-> exists rest, s = p +:+ rest.
Proof.
  unfold Js.startsWith. revert s.
  induction p as [|c p IH]; intros s.
  - split; [intros _; now exists s|intros _; now destruct s].
  - destruct s as [|d s]; simpl.
    + split; [discriminate|intros [rest Hrest]; discriminate Hrest].
    + destruct (ascii_dec c d) as [<-|Hne].
      * rewrite IH. split; intros [rest Hrest]; exists rest.
        -- now rewrite Hrest.
        -- now injection Hrest.
      * split; [discriminate|intros [rest Hrest]]. injection Hrest as Hcd _. congruence.
Qed.

Lemma endsWith_spec s p : Js.endsWith s p = true <-> exists front, s = front +:+ p.
Proof.
  unfold Js.endsWith. rewrite andb_true_iff, Nat.leb_le, String.eqb_eq. split.
  - intros [Hle Hsub].
    exists (substring 0 (String.length s - String.length p) s).
    pose proof (substring_split s (String.length s - String.length p)) as Hs.
    replace (String.length s - (String.length s - String.length p))
      with (String.length p) in Hs by lia.
    rewrite Hsub in Hs. apply Hs. lia.
  - intros [front ->]. rewrite length_append. split; [lia|].
    replace (String.length front + String.length p - String.length p)
      with (String.length front) by lia.
    rewrite substring_skip. apply substring_full.
Qed.

End Strings.

(** ** Domain patterns, one match type at a time *)

Section DomainPatterns.
Import Resolver.

Lemma candidates_listed virtualHostList virtualHost p :
  In virtualHost virtualHostList -> In p (domains virtualHost) ->
  In (virtualHost, p) (candidates virtualHostList).
Proof.
  intros Hvh Hp. unfold candidates. apply in_flat_map.
  exists virtualHost. split; [exact Hvh|]. apply in_map_iff. now exists p.
Qed.

(** X1: a virtual host that lists the pattern [*] makes the domain
    matcher find a virtual host for every target. *)
Theorem universe_pattern_always_finds_a_host (virtualHostList : list VirtualHost)
    (domain : string) (virtualHost : VirtualHost) :
  In virtualHost virtualHostList -> In "*" (domains virtualHost) ->
  exists found, findVirtualHostForDomain virtualHostList domain = Some found.
Proof.
  intros Hvh Hp.
  pose proof (findVirtualHostForDomain_invariant virtualHostList domain) as Hinv.
  unfold scanInvariant in Hinv. unfold findVirtualHostForDomain.
  destruct (targetVhost _) as [found|]; [eauto|].
  destruct Hinv as (_ & _ & Hnone).
  specialize (Hnone virtualHost "*" (candidates_listed _ _ _ Hvh Hp)).
  discriminate Hnone.
Qed.

(** X2: a pattern without [*] that is not empty is an exact pattern, and
    matches the host equal to it and no other. *)
Theorem exact_pattern_matches_equal_host_only (domain p : string) :
  Js.lacks p "*" = true -> p <> "" ->
  domainPatternMatchType p = EXACT_MATCH
  /\ (patternMatches domain p = true <-> domain = p).
Proof.
  intros Hlacks Hne.
  assert (Htype : domainPatternMatchType p = EXACT_MATCH).
  { unfold domainPatternMatchType. rewrite Hlacks.
    destruct p; [congruence|reflexivity]. }
  split; [exact Htype|].
  unfold patternMatches. rewrite Htype. simpl. apply String.eqb_eq.
Qed.

(** X3: a pattern made of [*] and a suffix that is not empty is a suffix
    pattern, and matches exactly the hosts that end in that suffix. *)
Theorem suffix_pattern_matches_host_endings (domain suffix : string) :
  suffix <> "" ->
  domainPatternMatchType (String "*"%char suffix) = SUFFIX_MATCH
  /\ (patternMatches domain (String "*"%char suffix) = true
      <-> exists front, domain = front +:+ suffix).
Proof.
  intros Hne.
  assert (Htype : domainPatternMatchType (String "*"%char suffix) = SUFFIX_MATCH).
  { destruct suffix as [|c suffix]; [congruence|reflexivity]. }
  split; [exact Htype|].
  unfold patternMatches. rewrite Htype. simpl.
  unfold Js.substringFrom. simpl. rewrite Nat.sub_0_r, substring_full.
  apply endsWith_spec.
Qed.

Lemma index_found_after front s :
  s <> "" -> index 0 s (front +:+ s) <> None.
Proof.
  intros Hne Hnone.
  apply (index_correct3 0 (String.length front) s (front +:+ s) Hnone Hne); [lia|].
  rewrite substring_skip. apply substring_full.
Qed.

(** X4: a pattern made of a prefix and [*], the prefix being neither
    empty nor itself headed by [*], is a prefix pattern, and matches exactly
    the hosts that begin with that prefix. *)
Theorem prefix_pattern_matches_host_beginnings (domain front : string) :
  front <> "" -> Js.startsWith front "*" = false ->
  domainPatternMatchType (front +:+ "*") = PREFIX_MATCH
  /\ (patternMatches domain (front +:+ "*") = true
      <-> exists rest, domain = front +:+ rest).
Proof.
  intros Hne Hstar.
  destruct front as [|c front]; [congruence|]. clear Hne.
  assert (Hc : c <> "*"%char).
  { intros ->. assert (Hyes : Js.startsWith (String "*"%char front) "*" = true).
    { apply startsWith_spec. now exists front. }
    congruence. }
  assert (Htype : domainPatternMatchType (String c front +:+ "*") = PREFIX_MATCH).
  { unfold domainPatternMatchType.
    change (String c front +:+ "*") with (String c (front +:+ "*")).
    assert (Hlen : (String.length (String c (front +:+ "*")) =? 0) = false) by reflexivity.
    rewrite Hlen.
    assert (Hlacks : Js.lacks (String c (front +:+ "*")) "*" = false).
    { unfold Js.lacks.
      pose proof (index_found_after (String c front) "*" ltac:(discriminate)) as Hfound.
      change (String c front +:+ "*") with (String c (front +:+ "*")) in Hfound.
      destruct (index 0 "*" (String c (front +:+ "*"))); [reflexivity|congruence]. }
    rewrite Hlacks.
    assert (Heq : String.eqb (String c (front +:+ "*")) "*" = false).
    { apply String.eqb_neq. intros [= -> _]. congruence. }
    rewrite Heq.
    assert (Hstarts : Js.startsWith (String c (front +:+ "*")) "*" = false).
    { destruct (Js.startsWith (String c (front +:+ "*")) "*") eqn:Hs; [|reflexivity].
      apply startsWith_spec in Hs. destruct Hs as [rest Hrest].
      injection Hrest as Hcc _. congruence. }
    rewrite Hstarts.
    assert (Hends : Js.endsWith (String c (front +:+ "*")) "*" = true).
    { apply endsWith_spec. now exists (String c front). }
    now rewrite Hends. }
  split; [exact Htype|].
  unfold patternMatches. rewrite Htype. unfold domainMatch, Js.substringRange.
  rewrite length_append. simpl String.length.
  replace (S (String.length front) + 1 - 1 - 0) with (String.length (String c front))
    by (simpl; lia).
  rewrite substring_take. apply startsWith_spec.
Qed.

End DomainPatterns.

Lemma universe_pattern_always_finds_a_host_witness :
  exists found,
    Resolver.findVirtualHostForDomain Sample.threeHosts "other.org" = Some found.
Proof.
  apply (universe_pattern_always_finds_a_host Sample.threeHosts "other.org"
           Sample.universeHost).
  - simpl. tauto.
  - simpl. tauto.
Defined.

Lemma exact_pattern_matches_equal_host_only_witness :
  Resolver.domainPatternMatchType "a.example.com" = Resolver.EXACT_MATCH
  /\ (Resolver.patternMatches "b.example.com" "a.example.com" = true
      <-> "b.example.com" = "a.example.com").
Proof.
  apply (exact_pattern_matches_equal_host_only "b.example.com" "a.example.com").
  - reflexivity.
  - discriminate.
Defined.

Lemma suffix_pattern_matches_host_endings_witness :
  Resolver.domainPatternMatchType "*.example.com" = Resolver.SUFFIX_MATCH
  /\ (Resolver.patternMatches "b.example.com" "*.example.com" = true
      <-> exists front, "b.example.com" = front +:+ ".example.com").
Proof.
  apply (suffix_pattern_matches_host_endings "b.example.com" ".example.com").
  discriminate.
Defined.

Lemma prefix_pattern_matches_host_beginnings_witness :
  Resolver.domainPatternMatchType ("svc." +:+ "*") = Resolver.PREFIX_MATCH
  /\ (Resolver.patternMatches "svc.example.com" ("svc." +:+ "*") = true
      <-> exists rest, "svc.example.com" = "svc." +:+ rest).
Proof.
  apply (prefix_pattern_matches_host_beginnings "svc.example.com" "svc.").
  - discriminate.
  - reflexivity.
Defined.

(** ** Header rules *)

Section HeaderRules.
Import Resolver.
Context `{Environment}.

(** X5: the invert flag of a header rule negates the rule: on every
    input an inverted rule of one of the six match kinds is the negation of
    the same rule not inverted; a rule of no such kind is false on every
    input, inverted or not. *)
Theorem inverted_header_rule_negates (n : string) (specifier : HeaderMatchSpecifier)
    (methodName : string) (metadata : Metadata) :
  if hasValueChecker specifier then
    getPredicateForHeaderMatcher
      {| name := n; invert_match := true; header_match_specifier := specifier |}
      methodName metadata
    = negb (getPredicateForHeaderMatcher
              {| name := n; invert_match := false; header_match_specifier := specifier |}
              methodName metadata)
  else
    getPredicateForHeaderMatcher
      {| name := n; invert_match := true; header_match_specifier := specifier |}
      methodName metadata = false
    /\ getPredicateForHeaderMatcher
         {| name := n; invert_match := false; header_match_specifier := specifier |}
         methodName metadata = false.
Proof.
  unfold getPredicateForHeaderMatcher.
  cbn [header_match_specifier invert_match name].
  destruct specifier; cbn [valueChecker hasValueChecker]; try reflexivity.
  split; reflexivity.
Qed.

(** X6: on a call whose metadata has no value for the header of a rule
    (the header being neither binary nor [content-type]), the rule is false,
    and true when it is inverted, whatever it tests. *)
Theorem absent_header_yields_invert_flag (headerMatch : HeaderMatcher)
    (methodName : string) (metadata : Metadata) :
  Js.endsWith (name headerMatch) "-bin" = false ->
  String.eqb (name headerMatch) "content-type" = false ->
  metadata (name headerMatch) = [] ->
  getPredicateForHeaderMatcher headerMatch methodName metadata
  = hasValueChecker (header_match_specifier headerMatch) && invert_match headerMatch.
Proof.
  intros Hbin Hct Hnone. unfold getPredicateForHeaderMatcher.
  destruct (header_match_specifier headerMatch); simpl;
    destruct (invert_match headerMatch); simpl; rewrite ?Hbin, ?Hct, ?Hnone; reflexivity.
Qed.

(** A rule on [content-type] does not read the call: it has the same
    value on every method name and every metadata. *)
Theorem content_type_rule_ignores_the_call (invert : bool)
    (specifier : HeaderMatchSpecifier) (methodName methodName' : string)
    (metadata metadata' : Metadata) :
  getPredicateForHeaderMatcher
    {| name := "content-type"; invert_match := invert;
       header_match_specifier := specifier |} methodName metadata
  = getPredicateForHeaderMatcher
      {| name := "content-type"; invert_match := invert;
         header_match_specifier := specifier |} methodName' metadata'.
Proof.
  unfold getPredicateForHeaderMatcher. simpl.
  destruct (valueChecker specifier); destruct invert; reflexivity.
Qed.

Lemma allDigits_comma front rest : allDigits (front +:+ String ","%char rest) = false.
Proof.
  induction front as [|c front IH]; [reflexivity|].
  change (String c front +:+ String ","%char rest)
    with (String c (front +:+ String ","%char rest)).
  simpl. rewrite IH. apply andb_false_r.
Qed.

(** What [numberRegex] accepts: digits, one at least, after an optional
    minus sign. *)
Lemma numberRegex_test_accepts value :
  numberRegex_test value = true ->
  exists digits, allDigits digits = true
    /\ (value = digits \/ value = String "-"%char digits).
Proof.
  destruct value as [|c value]; [discriminate|].
  destruct (ascii_dec c "-") as [->|Hne].
  - destruct value as [|d value]; [discriminate|]. simpl. intros Hd.
    exists (String d value). auto.
  - intros Hd. exists (String c value). split; [|now left].
    destruct c as [[] [] [] [] [] [] [] []]; try exact Hd; congruence.
Qed.

Lemma numberRegex_test_comma front rest :
  numberRegex_test (front +:+ String ","%char rest) = false.
Proof.
  destruct (numberRegex_test _) eqn:Htest; [|reflexivity].
  apply numberRegex_test_accepts in Htest.
  destruct Htest as (digits & Hdigits & [Heq|Heq]).
  - rewrite <- Heq, allDigits_comma in Hdigits. discriminate Hdigits.
  - destruct front as [|c front].
    + discriminate Heq.
    + change (String c front +:+ String ","%char rest)
        with (String c (front +:+ String ","%char rest)) in Heq.
      injection Heq as _ Heq.
      rewrite <- Heq, allDigits_comma in Hdigits. discriminate Hdigits.
Qed.

Lemma join_two first second others :
  exists rest, Js.join "," (first :: second :: others) = first +:+ String ","%char rest.
Proof. unfold Js.join. simpl. eauto. Qed.

(** X7: a range rule that is not inverted is false on a header with more
    than one value: the values are joined with a comma, which is no number. *)
Theorem range_rule_rejects_repeated_header (n : string) (start end_ : Z)
    (methodName : string) (metadata : Metadata) (first second : string)
    (others : list string) :
  metadata n = first :: second :: others ->
  getPredicateForHeaderMatcher
    {| name := n; invert_match := false;
       header_match_specifier := range_match start end_ |} methodName metadata
  = false.
Proof.
  intros Hvalues. unfold getPredicateForHeaderMatcher. simpl.
  destruct (Js.endsWith n "-bin"); [reflexivity|].
  destruct (String.eqb n "content-type"); [reflexivity|].
  rewrite Hvalues.
  destruct (join_two first second others) as [rest ->].
  now rewrite numberRegex_test_comma.
Qed.

(** A range rule whose end is not above its start, not inverted, is
    false on every call. *)
Theorem empty_range_rule_never_matches (n : string) (start end_ : Z)
    (methodName : string) (metadata : Metadata) :
  (end_ <= start)%Z ->
  getPredicateForHeaderMatcher
    {| name := n; invert_match := false;
       header_match_specifier := range_match start end_ |} methodName metadata
  = false.
Proof.
  intros Hempty. unfold getPredicateForHeaderMatcher. simpl.
  assert (Hcheck : forall value,
            (if negb (numberRegex_test value) then false
             else (start <=? BigInt value)%Z && (BigInt value <? end_)%Z) = false).
  { intros value. destruct (negb _); [reflexivity|].
    destruct (Z.leb_spec start (BigInt value)); [|reflexivity].
    destruct (Z.ltb_spec (BigInt value) end_); [lia|reflexivity]. }
  destruct (Js.endsWith n "-bin"); [reflexivity|].
  destruct (String.eqb n "content-type"); [first [reflexivity|apply Hcheck]|].
  destruct (metadata n); [reflexivity|apply Hcheck].
Qed.

End HeaderRules.

Lemma absent_header_yields_invert_flag_witness :
  @Resolver.getPredicateForHeaderMatcher Sample.routingOn
    {| Resolver.name := "x-env"; Resolver.invert_match := true;
       Resolver.header_match_specifier := Resolver.exact_match "prod" |}
    "/pkg.Service/Method" Sample.noMetadata = true.
Proof.
  exact (@absent_header_yields_invert_flag Sample.routingOn
           {| Resolver.name := "x-env"; Resolver.invert_match := true;
              Resolver.header_match_specifier := Resolver.exact_match "prod" |}
           "/pkg.Service/Method" Sample.noMetadata eq_refl eq_refl eq_refl).
Defined.

Lemma range_rule_rejects_repeated_header_witness :
  @Resolver.getPredicateForHeaderMatcher Sample.routingOn
    {| Resolver.name := "x-n"; Resolver.invert_match := false;
       Resolver.header_match_specifier := Resolver.range_match 0 100 |}
    "/pkg.Service/Method" (fun _ => ["1"; "5"]) = false.
Proof.
  exact (@range_rule_rejects_repeated_header Sample.routingOn "x-n" 0 100
           "/pkg.Service/Method" (fun _ => ["1"; "5"]) "1" "5" [] eq_refl).
Defined.

Lemma empty_range_rule_never_matches_witness :
  @Resolver.getPredicateForHeaderMatcher Sample.routingOn
    {| Resolver.name := "x-n"; Resolver.invert_match := false;
       Resolver.header_match_specifier := Resolver.range_match 20 10 |}
    "/pkg.Service/Method" (fun _ => ["15"]) = false.
Proof.
  apply (@empty_range_rule_never_matches Sample.routingOn "x-n" 20 10
           "/pkg.Service/Method" (fun _ => ["15"])).
  lia.
Defined.

(** ** Route predicates *)

Section RoutePredicates.
Import Resolver.
Context `{Environment}.

Lemma forallb_over_map {A B : Type} (f : B -> bool) (g : A -> B) (l : list A) :
  forallb f (map g l) = forallb (fun x => f (g x)) l.
Proof. induction l as [|x l IH]; simpl; [reflexivity|now rewrite IH]. Qed.

Lemma runtimeFractionHandler_draws fraction draws k :
  snd (runtimeFractionHandler fraction draws k)
  = match fraction with Some _ => S k | None => k end.
Proof. destruct fraction; reflexivity. Qed.

(** X8: a route predicate draws at most one random number, and none
    when the route has no runtime fraction or when its answer is already
    settled by the path or the header rules. *)
Theorem route_predicate_draws_at_most_once (routeMatch : RouteMatch)
    (methodName : string) (metadata : Metadata) (draws : Draws) (k : nat) :
  (snd (getPredicateForMatcher routeMatch methodName metadata draws k) = k
   \/ (snd (getPredicateForMatcher routeMatch methodName metadata draws k) = S k
       /\ runtime_fraction routeMatch <> None
       /\ forallb (fun h => getPredicateForHeaderMatcher h methodName metadata)
            (headers routeMatch) = true))
  /\ (runtime_fraction routeMatch = None ->
      snd (getPredicateForMatcher routeMatch methodName metadata draws k) = k).
Proof.
  unfold getPredicateForMatcher.
  destruct (pathMatcher routeMatch) as [pathOk|]; [|simpl; auto].
  rewrite forallb_over_map.
  destruct (pathOk methodName); simpl; [|auto].
  destruct (forallb _ (headers routeMatch)) eqn:Hheaders; simpl; [|auto].
  rewrite runtimeFractionHandler_draws.
  destruct (runtime_fraction routeMatch); [|auto].
  split; [right; repeat split; congruence|discriminate].
Qed.

(** One header rule that fails is enough for the route not to
    match, and then no random number is drawn. *)
Theorem failed_header_rule_rejects_route (routeMatch : RouteMatch)
    (headerMatch : HeaderMatcher) (methodName : string) (metadata : Metadata)
    (draws : Draws) (k : nat) :
  In headerMatch (headers routeMatch) ->
  getPredicateForHeaderMatcher headerMatch methodName metadata = false ->
  getPredicateForMatcher routeMatch methodName metadata draws k = (false, k).
Proof.
  intros Hin Hfalse. unfold getPredicateForMatcher.
  destruct (pathMatcher routeMatch) as [pathOk|]; [|reflexivity].
  rewrite forallb_over_map.
  assert (Hheaders : forallb (fun h => getPredicateForHeaderMatcher h methodName metadata)
                       (headers routeMatch) = false).
  { destruct (forallb _ (headers routeMatch)) eqn:Hall; [|reflexivity].
    rewrite forallb_forall in Hall. rewrite (Hall headerMatch Hin) in Hfalse.
    discriminate Hfalse. }
  rewrite Hheaders, andb_false_r. reflexivity.
Qed.

Lemma denominator_positive d : (0 < QofN (RUNTIME_FRACTION_DENOMINATOR_VALUES d))%Q.
Proof. destruct d; reflexivity. Qed.

(** X9: for a draw in [0, 1), a runtime fraction with numerator 0
    always fails and one whose numerator reaches the denominator always
    passes. *)
Theorem runtime_fraction_extremes (fraction : FractionalPercent) (draws : Draws)
    (k : nat) :
  (0 <= draws k)%Q -> (draws k < 1)%Q ->
  (numerator fraction = 0%N ->
   fst (runtimeFractionHandler (Some fraction) draws k) = false)
  /\ ((RUNTIME_FRACTION_DENOMINATOR_VALUES (denominator fraction) <= numerator fraction)%N ->
      fst (runtimeFractionHandler (Some fraction) draws k) = true).
Proof.
  intros Hlo Hhi. pose proof (denominator_positive (denominator fraction)) as Hpos.
  simpl. split.
  - intros ->. destruct (Qltb _ _) eqn:Hlt; [|reflexivity].
    apply Qltb_lt in Hlt. exfalso.
    assert (Hnonneg : (0 <= draws k * QofN (RUNTIME_FRACTION_DENOMINATOR_VALUES
                                              (denominator fraction)))%Q).
    { apply Qmult_le_0_compat; [exact Hlo|now apply Qlt_le_weak]. }
    exact (Qlt_not_le _ _ Hlt Hnonneg).
  - intros Hfull. apply Qltb_lt.
    eapply Qlt_le_trans; [|apply QofN_le; exact Hfull].
    rewrite <- (Qmult_1_l (QofN (RUNTIME_FRACTION_DENOMINATOR_VALUES
                                   (denominator fraction)))) at 2.
    now apply Qmult_lt_compat_r.
Qed.

End RoutePredicates.

Lemma failed_header_rule_rejects_route_witness :
  @Resolver.getPredicateForMatcher Sample.routingOn
    {| Resolver.path_specifier := Resolver.prefix "";
       Resolver.case_sensitive := None;
       Resolver.headers :=
         [{| Resolver.name := "x-env"; Resolver.invert_match := false;
             Resolver.header_match_specifier := Resolver.exact_match "prod" |}];
       Resolver.runtime_fraction :=
         Some {| Resolver.numerator := 50; Resolver.denominator := Resolver.HUNDRED |} |}
    "/pkg.Service/Method" Sample.noMetadata Sample.halfDraws 0
  = (false, 0).
Proof.
  apply (@failed_header_rule_rejects_route Sample.routingOn _
           {| Resolver.name := "x-env"; Resolver.invert_match := false;
              Resolver.header_match_specifier := Resolver.exact_match "prod" |}).
  - simpl. tauto.
  - reflexivity.
Defined.

Lemma runtime_fraction_extremes_witness :
  fst (Resolver.runtimeFractionHandler
         (Some {| Resolver.numerator := 0; Resolver.denominator := Resolver.HUNDRED |})
         Sample.halfDraws 0) = false
  /\ fst (Resolver.runtimeFractionHandler
            (Some {| Resolver.numerator := 100; Resolver.denominator := Resolver.HUNDRED |})
            Sample.halfDraws 0) = true.
Proof.
  split.
  - apply (runtime_fraction_extremes
             {| Resolver.numerator := 0; Resolver.denominator := Resolver.HUNDRED |}
             Sample.halfDraws 0).
    + vm_compute. discriminate.
    + vm_compute. reflexivity.
    + reflexivity.
  - apply (runtime_fraction_extremes
             {| Resolver.numerator := 100; Resolver.denominator := Resolver.HUNDRED |}
             Sample.halfDraws 0).
    + vm_compute. discriminate.
    + vm_compute. reflexivity.
    + vm_compute. discriminate.
Defined.

(** ** The table of cumulative weights *)

Section CumulativeWeights.
Import Resolver.

Lemma cumulate_bounds clusterWeights : forall base c,
  In c (cumulate clusterWeights base) ->
  (base <= choice_numerator c <= base + weightSum clusterWeights)%N.
Proof.
  induction clusterWeights as [|cw rest IH]; intros base c; simpl; [tauto|].
  intros [<-|Hin]; simpl; [lia|].
  specialize (IH _ _ Hin). lia.
Qed.

(** X10: the table of a weighted action has one bound per declared
    cluster, the bounds never decrease along the table, and each lies between
    0 and the sum of the declared weights. *)
Theorem cumulative_bounds_never_decrease (clusterWeights : list ClusterWeight) :
  List.length (cumulate clusterWeights 0) = List.length clusterWeights
  /\ StronglySorted (fun a b => (choice_numerator a <= choice_numerator b)%N)
       (cumulate clusterWeights 0)
  /\ forall c, In c (cumulate clusterWeights 0) ->
       (choice_numerator c <= weightSum clusterWeights)%N.
Proof.
  split; [|split].
  - generalize 0%N. induction clusterWeights as [|cw rest IH]; intros base; simpl;
      [reflexivity|now rewrite IH].
  - generalize 0%N. induction clusterWeights as [|cw rest IH]; intros base; simpl;
      constructor; [apply IH|].
    apply Forall_forall. intros c Hin. simpl.
    apply list_elem_of_In, cumulate_bounds in Hin. lia.
  - intros c Hin. apply cumulate_bounds in Hin. lia.
Qed.

Lemma firstChoice_none_from x clusterWeights : forall base,
  (QofN base <= x)%Q ->
  firstChoice x (cumulate clusterWeights base) = None
  <-> (QofN (base + weightSum clusterWeights) <= x)%Q.
Proof.
  induction clusterWeights as [|cw rest IH]; intros base Hbase; simpl.
  - rewrite N.add_0_r. tauto.
  - destruct (Qltb x (QofN (base + default 0%N (weight cw)))) eqn:Hlt.
    + apply Qltb_lt in Hlt. split; [discriminate|]. intros Hle. exfalso.
      apply (Qlt_not_le _ _ Hlt). eapply Qle_trans; [|exact Hle].
      apply QofN_le. lia.
    + assert (Hge : (QofN (base + default 0%N (weight cw)) <= x)%Q).
      { apply Qnot_lt_le. intros Hc. apply Qltb_lt in Hc. congruence. }
      rewrite (IH _ Hge). now rewrite N.add_assoc.
Qed.

(** X11: for a draw that is not negative, the loop of a weighted action
    falls through exactly when the draw is not below the sum of the declared
    weights. *)
Theorem fall_through_iff_draw_reaches_weight_sum (x : Q)
    (clusterWeights : list ClusterWeight) :
  (0 <= x)%Q ->
  firstChoice x (cumulate clusterWeights 0) = None
  <-> (QofN (weightSum clusterWeights) <= x)%Q.
Proof.
  intros Hx. rewrite (firstChoice_none_from x clusterWeights 0 Hx). reflexivity.
Qed.

Lemma firstChoice_skips_weightless x cw after before : forall base,
  (QofN base <= x)%Q -> default 0%N (weight cw) = 0%N ->
  firstChoice x (cumulate (before ++ cw :: after) base)
  = firstChoice x (cumulate (before ++ after) base).
Proof.
  induction before as [|c0 before IH]; intros base Hbase Hzero; simpl.
  - rewrite Hzero, N.add_0_r.
    destruct (Qltb x (QofN base)) eqn:Hlt; [|reflexivity].
    apply Qltb_lt in Hlt. exfalso. exact (Qlt_not_le _ _ Hlt Hbase).
  - destruct (Qltb x (QofN (base + default 0%N (weight c0)))) eqn:Hlt; [reflexivity|].
    apply IH; [|exact Hzero].
    apply Qnot_lt_le. intros Hc. apply Qltb_lt in Hc. congruence.
Qed.

(** X12: a declared cluster whose weight is 0 or missing takes no part
    in the selection: for a draw that is not negative, the loop selects what
    it would select without that cluster. *)
Theorem weightless_cluster_is_never_selected (x : Q) (cw : ClusterWeight)
    (before after : list ClusterWeight) :
  (0 <= x)%Q -> default 0%N (weight cw) = 0%N ->
  firstChoice x (cumulate (before ++ cw :: after) 0)
  = firstChoice x (cumulate (before ++ after) 0).
Proof. intros Hx Hzero. now apply firstChoice_skips_weightless. Qed.

End CumulativeWeights.

Lemma fall_through_iff_draw_reaches_weight_sum_witness :
  Resolver.firstChoice 50 (Resolver.cumulate (Resolver.clusters Sample.thirtyOnly) 0) = None
  <-> (QofN (Resolver.weightSum (Resolver.clusters Sample.thirtyOnly)) <= 50)%Q.
Proof.
  apply (fall_through_iff_draw_reaches_weight_sum 50
           (Resolver.clusters Sample.thirtyOnly)).
  vm_compute. discriminate.
Defined.

Lemma weightless_cluster_is_never_selected_witness :
  Resolver.firstChoice 50
    (Resolver.cumulate
       ([{| Resolver.cw_name := "A"; Resolver.weight := Some 30%N |}]
          ++ {| Resolver.cw_name := "idle"; Resolver.weight := None |}
          :: [{| Resolver.cw_name := "B"; Resolver.weight := Some 70%N |}]) 0)
  = Resolver.firstChoice 50
      (Resolver.cumulate
         ([{| Resolver.cw_name := "A"; Resolver.weight := Some 30%N |}]
            ++ [{| Resolver.cw_name := "B"; Resolver.weight := Some 70%N |}]) 0).
Proof.
  apply (weightless_cluster_is_never_selected 50
           {| Resolver.cw_name := "idle"; Resolver.weight := None |}).
  - vm_compute. discriminate.
  - reflexivity.
Defined.

(** ** The compilation of routes *)

Section RouteCompilation.
Import Resolver.
Context `{Environment}.

(** X13: a route that routes by header is skipped: the compilation
    yields what it yields without that route, be the route without a match. *)
Theorem header_routed_route_is_skipped (r : Route) (header : string)
    (before after : list Route) (allConfigClusters : gset string)
    (matchList : list CompiledRoute) :
  route r = Some (cluster_header header) ->
  compileRoutes (before ++ r :: after) allConfigClusters matchList
  = compileRoutes (before ++ after) allConfigClusters matchList.
Proof.
  intros Hr. revert allConfigClusters matchList.
  induction before as [|r0 before IH]; intros allConfigClusters matchList; simpl.
  - now rewrite Hr.
  - destruct (route r0) as [[c|h|w]|]; [| | |reflexivity].
    + destruct (match_ r0); [apply IH|reflexivity].
    + apply IH.
    + destruct (match_ r0); [apply IH|reflexivity].
Qed.

(** X14: on routes for which the compilation constructs no regular
    expression, the compilation fails exactly when some route has no
    action, or has an action to one cluster or to weighted clusters and no
    match. (Where a regular expression is constructed, its constructor is
    one more place where the loop of the source can raise.) *)
Theorem compilation_fails_iff_a_route_is_unreadable (routes : list Route)
    (allConfigClusters : gset string) (matchList : list CompiledRoute) :
  existsb buildsRegex routes = false ->
  compileRoutes routes allConfigClusters matchList = None
  <-> existsb unreadable routes = true.
Proof.
  intros _. revert allConfigClusters matchList.
  induction routes as [|r routes IH]; intros allConfigClusters matchList; simpl.
  - split; discriminate.
  - unfold unreadable at 1.
    destruct (route r) as [[c|h|w]|]; simpl.
    + destruct (match_ r); simpl; [apply IH|tauto].
    + apply IH.
    + destruct (match_ r); simpl; [apply IH|tauto].
    + tauto.
Qed.

Lemma compilation_collects_clusters_and_routes_aux routes :
  forall (allConfigClusters : gset string) (matchList : list CompiledRoute)
         allConfigClusters' matchList',
  compileRoutes routes allConfigClusters matchList
  = Some (allConfigClusters', matchList') ->
  allConfigClusters' = allConfigClusters ∪ declaredClusters routes
  /\ exists added,
       matchList' = matchList ++ added
       /\ List.length added
          = List.length (List.filter (fun r => negb (routedByHeader r)) routes).
Proof.
  induction routes as [|r routes IH]; intros allConfigClusters matchList
    allConfigClusters' matchList'; simpl.
  - intros [= <- <-]. split; [set_solver|]. exists []. now rewrite app_nil_r.
  - unfold clustersOfRoute, routedByHeader.
    destruct (route r) as [[c|h|w]|]; simpl; [| | |discriminate].
    + destruct (match_ r) as [routeMatch|]; [|discriminate].
      intros Hc. apply IH in Hc. destruct Hc as (-> & added & -> & Hlen).
      split; [set_solver|]. eexists. rewrite <- app_assoc. split; [reflexivity|].
      simpl. now rewrite Hlen.
    + intros Hc. apply IH in Hc. destruct Hc as (-> & added & -> & Hlen).
      split; [set_solver|]. eauto.
    + destruct (match_ r) as [routeMatch|]; [|discriminate].
      intros Hc. apply IH in Hc. destruct Hc as (-> & added & -> & Hlen).
      split; [set_solver|]. eexists. rewrite <- app_assoc. split; [reflexivity|].
      simpl. now rewrite Hlen.
Qed.

(** X15: a compilation that succeeds adds to the clusters it was given
    the clusters that the routes name, and to the compiled routes it was
    given, in the order of the routes, one compiled route for each route not
    routed by header: its predicate is the one of the match of that route
    and its action the one of the action of that route. *)
Theorem compilation_collects_clusters_and_routes (routes : list Route)
    (allConfigClusters allConfigClusters' : gset string)
    (matchList matchList' : list CompiledRoute) :
  compileRoutes routes allConfigClusters matchList
  = Some (allConfigClusters', matchList') ->
  allConfigClusters' = allConfigClusters ∪ declaredClusters routes
  /\ exists added,
       matchList' = matchList ++ added
       /\ Forall2
            (fun r m =>
               exists routeMatch,
                 match_ r = Some routeMatch
                 /\ matcher m = getPredicateForMatcher routeMatch
                 /\ ((exists c, route r = Some (cluster c)
                                /\ action m = clusterAction c)
                     \/ (exists w, route r = Some (weighted_clusters w)
                                   /\ action m = weightedAction w)))
            (List.filter (fun r => negb (routedByHeader r)) routes) added.
Proof.
  revert allConfigClusters matchList allConfigClusters' matchList'.
  induction routes as [|r routes IH];
    intros allConfigClusters matchList allConfigClusters' matchList'; simpl.
  - intros [= <- <-]. split; [set_solver|]. exists []. rewrite app_nil_r.
    split; [reflexivity|constructor].
  - unfold clustersOfRoute, routedByHeader.
    destruct (route r) as [[c|h|w]|] eqn:Hroute; simpl; [| | |discriminate].
    + destruct (match_ r) as [routeMatch|] eqn:Hmatch; [|discriminate].
      intros Hc. apply IH in Hc. destruct Hc as (-> & added & -> & Hall).
      split; [set_solver|]. eexists. rewrite <- app_assoc. split; [reflexivity|].
      constructor; [|exact Hall].
      exists routeMatch. split; [exact Hmatch|]. split; [reflexivity|].
      left. now exists c.
    + intros Hc. apply IH in Hc. destruct Hc as (-> & added & -> & Hall).
      split; [set_solver|]. eauto.
    + destruct (match_ r) as [routeMatch|] eqn:Hmatch; [|discriminate].
      intros Hc. apply IH in Hc. destruct Hc as (-> & added & -> & Hall).
      split; [set_solver|]. eexists. rewrite <- app_assoc. split; [reflexivity|].
      constructor; [|exact Hall].
      exists routeMatch. split; [exact Hmatch|]. split; [reflexivity|].
      right. now exists w.
Qed.

End RouteCompilation.

Lemma header_routed_route_is_skipped_witness :
  @Resolver.compileRoutes Sample.routingOn
    ([Sample.toCluster "A"]
       ++ {| Resolver.match_ := None;
             Resolver.route := Some (Resolver.cluster_header "x-cluster") |}
       :: [Sample.toCluster "B"]) ∅ []
  = @Resolver.compileRoutes Sample.routingOn
      ([Sample.toCluster "A"] ++ [Sample.toCluster "B"]) ∅ [].
Proof.
  exact (@header_routed_route_is_skipped Sample.routingOn
           {| Resolver.match_ := None;
              Resolver.route := Some (Resolver.cluster_header "x-cluster") |}
           "x-cluster" [Sample.toCluster "A"] [Sample.toCluster "B"] ∅ [] eq_refl).
Defined.

Lemma compilation_fails_iff_a_route_is_unreadable_witness :
  existsb Resolver.buildsRegex [Sample.toCluster "A"; Sample.matchless "B"] = false
  /\ (@Resolver.compileRoutes Sample.routingOn
        [Sample.toCluster "A"; Sample.matchless "B"] ∅ [] = None
      <-> existsb Resolver.unreadable [Sample.toCluster "A"; Sample.matchless "B"] = true).
Proof.
  split; [reflexivity|].
  exact (@compilation_fails_iff_a_route_is_unreadable Sample.routingOn
           [Sample.toCluster "A"; Sample.matchless "B"] ∅ [] eq_refl).
Defined.

Lemma compilation_collects_clusters_and_routes_witness :
  exists allConfigClusters matchList,
    @Resolver.compileRoutes Sample.routingOn
      [Sample.toCluster "A"; Sample.byHeader; Sample.toCluster "B"] ∅ []
    = Some (allConfigClusters, matchList)
    /\ allConfigClusters
       = ∅ ∪ Resolver.declaredClusters
               [Sample.toCluster "A"; Sample.byHeader; Sample.toCluster "B"]
    /\ exists added,
         matchList = [] ++ added
         /\ Forall2
              (fun r m =>
                 exists routeMatch,
                   Resolver.match_ r = Some routeMatch
                   /\ Resolver.matcher m
                      = @Resolver.getPredicateForMatcher Sample.routingOn routeMatch
                   /\ ((exists c, Resolver.route r = Some (Resolver.cluster c)
                                  /\ Resolver.action m = Resolver.clusterAction c)
                       \/ (exists w, Resolver.route r = Some (Resolver.weighted_clusters w)
                                     /\ Resolver.action m = Resolver.weightedAction w)))
              [Sample.toCluster "A"; Sample.toCluster "B"] added.
Proof.
  do 2 eexists. split; [reflexivity|].
  exact (@compilation_collects_clusters_and_routes Sample.routingOn
           [Sample.toCluster "A"; Sample.byHeader; Sample.toCluster "B"] ∅ _ [] _ eq_refl).
Defined.

(** ** The ref-count table, one operation after another *)

Section TableOperations.
Import Resolver System.
Context `{Environment}.

Lemma set_clusterRefcounts_same r :
  set_clusterRefcounts (clusterRefcounts r) r = r.
Proof. now destruct r. Qed.

(** X16: a ref then an unref of a cluster that has an entry, marked or
    already referenced, give back the resolver as it was, report nothing and
    apply no routing table. *)
Theorem ref_then_unref_restores (clusterName : string) (r : XdsResolver) (rc : RefCount) :
  clusterRefcounts r !! clusterName = Some rc ->
  inLastConfig rc = true \/ refCount rc <> 0%Z ->
  unrefCluster clusterName (refCluster clusterName r) = (r, [], Returned).
Proof.
  intros Hrc Hkept.
  assert (Hstays : negb (inLastConfig rc) && (refCount rc + 1 - 1 =? 0)%Z = false).
  { destruct Hkept as [->|Hnz]; [reflexivity|].
    apply andb_false_iff. right. apply Z.eqb_neq. lia. }
  unfold refCluster. rewrite Hrc.
  unfold unrefCluster. cbn [clusterRefcounts set_clusterRefcounts].
  rewrite lookup_insert_eq. cbn [inLastConfig refCount]. rewrite Hstays.
  rewrite insert_insert_eq.
  replace (refCount rc + 1 - 1)%Z with (refCount rc) by lia.
  rewrite (insert_id (clusterRefcounts r) clusterName); [|now destruct rc].
  now destruct r.
Qed.

Lemma refCluster_lookup clusterName r n :
  clusterRefcounts (refCluster clusterName r) !! n
  = if decide (n = clusterName)
    then (fun rc => {| inLastConfig := inLastConfig rc; refCount := refCount rc + 1 |})
           <$> clusterRefcounts r !! n
    else clusterRefcounts r !! n.
Proof.
  unfold refCluster. destruct (decide (n = clusterName)) as [->|Hne].
  - destruct (clusterRefcounts r !! clusterName) as [rc|] eqn:Hrc; simpl.
    + now rewrite lookup_insert_eq.
    + now rewrite Hrc.
  - destruct (clusterRefcounts r !! clusterName) as [rc|]; simpl; [|reflexivity].
    rewrite lookup_insert_ne; [reflexivity|congruence].
Qed.

(** X17: a call of the config selector that finds no route leaves the
    resolver as it is and returns no commit callback; one that finds a route
    returns the callback of the selected cluster and changes the table in one
    place at most, the ref-count of that cluster, raised by one when the
    cluster has an entry. No entry is added or removed. *)
Theorem selection_raises_one_count (matchList : list CompiledRoute)
    (methodName : string) (metadata : Metadata) (r r' : XdsResolver) (draws : Draws)
    (k k' : nat) (config : CallConfig) :
  configSelector matchList methodName metadata r draws k = (config, r', k') ->
  (status config = UNAVAILABLE -> onCommitted config = None /\ r' = r)
  /\ (status config = OK ->
      onCommitted config = Some (pickInformation_cluster config)
      /\ forall n,
           clusterRefcounts r' !! n
           = if decide (n = pickInformation_cluster config)
             then (fun rc => {| inLastConfig := inLastConfig rc;
                                refCount := refCount rc + 1 |})
                    <$> clusterRefcounts r !! n
             else clusterRefcounts r !! n)
  /\ dom (clusterRefcounts r') = dom (clusterRefcounts r).
Proof.
  intros Hsel.
  destruct (configSelector_result _ _ _ _ _ _ _ _ _ Hsel)
    as [(Hst & Hc & ->)|(Hst & Hc & -> & _)].
  - split; [auto|]. split; [congruence|reflexivity].
  - split; [congruence|]. split; [intros _; split; [exact Hc|apply refCluster_lookup]|].
    apply set_eq. intros n. rewrite !elem_of_dom, refCluster_lookup.
    destruct (decide (n = pickInformation_cluster config)); [|reflexivity].
    now rewrite fmap_is_Some.
Qed.

Lemma reconciled_twice allConfigClusters (m : gmap string RefCount) :
  addClusters allConfigClusters
    (markClusters allConfigClusters
       (addClusters allConfigClusters (markClusters allConfigClusters m)))
  = addClusters allConfigClusters (markClusters allConfigClusters m).
Proof.
  apply map_eq. intros n. rewrite (reconciled_lookup allConfigClusters (addClusters _ _)).
  rewrite !reconciled_lookup.
  destruct (decide (n ∈ allConfigClusters)) as [Hin|Hout]; [reflexivity|].
  destruct (m !! n) as [rc|]; [|reflexivity].
  destruct (refCount rc =? 0)%Z eqn:Hz; [reflexivity|]. simpl. now rewrite Hz.
Qed.

Lemma handleRouteConfig_legacy routeConfig r :
  GRPC_XDS_EXPERIMENTAL_ROUTING = false ->
  handleRouteConfig routeConfig r
  = match legacyScan (virtual_hosts routeConfig) (path (target r)) with
    | LegacyCluster c =>
        (set_hasReportedSuccess true (set_latestRouteConfig (Some routeConfig) r),
         [onSuccessfulResolution (CdsLoadBalancingConfig c) None], Returned)
    | LegacyNone =>
        (set_latestRouteConfig (Some routeConfig) r,
         [reportResolutionError r "No matching route found"], Returned)
    | LegacyThrown => (set_latestRouteConfig (Some routeConfig) r, [], Thrown)
    end.
Proof. intros Hflag. unfold handleRouteConfig. now rewrite Hflag. Qed.

(** X18: a routing table received twice in a row is applied the second
    time as the first: the same resolver comes out, the same is reported. *)
Theorem handleRouteConfig_is_idempotent (routeConfig : RouteConfiguration)
    (r : XdsResolver) :
  handleRouteConfig routeConfig (fst (fst (handleRouteConfig routeConfig r)))
  = handleRouteConfig routeConfig r.
Proof.
  destruct GRPC_XDS_EXPERIMENTAL_ROUTING eqn:Hflag.
  - destruct (findVirtualHostForDomain (virtual_hosts routeConfig) (path (target r)))
      as [virtualHost|] eqn:Hfind.
    + destruct (compileRoutes (routes virtualHost) ∅ [])
        as [[allConfigClusters matchList]|] eqn:Hcompile.
      * rewrite (handleRouteConfig_applies _ r _ _ _ Hflag Hfind Hcompile).
        cbn [fst].
        erewrite handleRouteConfig_applies; [|exact Hflag|exact Hfind|exact Hcompile].
        cbn [clusterRefcounts set_clusterRefcounts set_latestRouteConfig].
        rewrite reconciled_twice. reflexivity.
      * rewrite (handleRouteConfig_throws _ r _ Hflag Hfind Hcompile). cbn [fst].
        erewrite handleRouteConfig_throws; [reflexivity|exact Hflag|exact Hfind|exact Hcompile].
    + rewrite (handleRouteConfig_no_virtual_host _ r Hflag Hfind). cbn [fst].
      erewrite handleRouteConfig_no_virtual_host; [reflexivity|exact Hflag|exact Hfind].
  - rewrite !(handleRouteConfig_legacy _ _ Hflag).
    destruct (legacyScan (virtual_hosts routeConfig) (path (target r))) eqn:Hscan;
      cbn [fst set_hasReportedSuccess set_latestRouteConfig target]; rewrite Hscan;
      reflexivity.
Qed.

(** X19: a routing table that is applied publishes a cluster-manager
    configuration whose children are the entries of the table after it: the
    clusters that the routes of the virtual host name, and the clusters that
    had an entry with a ref-count other than 0. *)
Theorem published_clusters_are_routed_or_referenced (routeConfig : RouteConfiguration)
    (r : XdsResolver) (virtualHost : VirtualHost) (allConfigClusters : gset string)
    (matchList : list CompiledRoute) :
  GRPC_XDS_EXPERIMENTAL_ROUTING = true ->
  findVirtualHostForDomain (virtual_hosts routeConfig) (path (target r))
  = Some virtualHost ->
  compileRoutes (routes virtualHost) ∅ [] = Some (allConfigClusters, matchList) ->
  exists children,
    snd (fst (handleRouteConfig routeConfig r))
    = [onSuccessfulResolution (XdsClusterManagerLoadBalancingConfig children)
         (Some matchList)]
    /\ children = dom (clusterRefcounts (fst (fst (handleRouteConfig routeConfig r))))
    /\ allConfigClusters = declaredClusters (routes virtualHost)
    /\ forall clusterName,
         clusterName ∈ children
         <-> clusterName ∈ allConfigClusters
             \/ exists rc, clusterRefcounts r !! clusterName = Some rc
                  /\ refCount rc <> 0%Z.
Proof.
  intros Hflag Hfind Hcompile.
  rewrite (handleRouteConfig_applies _ _ _ _ _ Hflag Hfind Hcompile). simpl.
  eexists. split; [reflexivity|]. split; [reflexivity|]. split.
  - destruct (compilation_collects_clusters_and_routes_aux _ _ _ _ _ Hcompile) as [-> _].
    set_solver.
  - intros clusterName. rewrite elem_of_dom, reconciled_lookup.
    destruct (decide (clusterName ∈ allConfigClusters)) as [Hin|Hout].
    + split; [auto|eauto].
    + destruct (clusterRefcounts r !! clusterName) as [rc|].
      * destruct (Z.eqb_spec (refCount rc) 0) as [Hz|Hnz].
        -- split; [intros [? ?]; discriminate|].
           intros [?|(rc' & [= <-] & Hnz)]; [contradiction|congruence].
        -- split; [eauto|eauto].
      * split; [intros [? ?]; discriminate|].
        intros [?|(rc' & Hrc' & _)]; [contradiction|discriminate].
Qed.

End TableOperations.

(** ** The resolver over whole runs *)

Section Runs.
Import Resolver System.
Context `{Environment}.

Lemma handleRouteConfig_keeps_success routeConfig r :
  hasReportedSuccess r = true ->
  hasReportedSuccess (fst (fst (handleRouteConfig routeConfig r))) = true.
Proof.
  intros Hs. destruct GRPC_XDS_EXPERIMENTAL_ROUTING eqn:Hflag.
  - now rewrite experimental_routing_never_records_success.
  - rewrite (handleRouteConfig_legacy _ _ Hflag). destruct (legacyScan _ _); auto.
Qed.

Lemma unrefCluster_keeps_success clusterName r :
  hasReportedSuccess r = true ->
  hasReportedSuccess (fst (fst (unrefCluster clusterName r))) = true.
Proof.
  intros Hs. unfold unrefCluster.
  destruct (clusterRefcounts r !! clusterName) as [rc|]; [|exact Hs].
  destruct (negb _ && _); [|exact Hs].
  cbn [latestRouteConfig set_clusterRefcounts].
  destruct (latestRouteConfig r); [|exact Hs].
  now apply handleRouteConfig_keeps_success.
Qed.

Lemma refCluster_keeps_success clusterName r :
  hasReportedSuccess (refCluster clusterName r) = hasReportedSuccess r.
Proof. unfold refCluster. now destruct (clusterRefcounts r !! clusterName). Qed.

Lemma step_keeps_success draws s e :
  hasReportedSuccess (resolver s) = true ->
  hasReportedSuccess (resolver (step draws s e)) = true.
Proof.
  intros Hs. destruct e as [update|details| |update|details| |methodName metadata|i];
    simpl.
  - destruct update as [routeConfigName|routeConfig|]; simpl.
    + destruct (bool_decide _); exact Hs.
    + pose proof (handleRouteConfig_keeps_success routeConfig _ Hs) as Hh.
      destruct (handleRouteConfig routeConfig (resolver s)) as [[r' effects] completion].
      exact Hh.
    + exact Hs.
  - unfold ldsWatcher_onTransientError, onTransientError. destruct (negb _); exact Hs.
  - exact Hs.
  - now apply handleRouteConfig_keeps_success.
  - unfold rdsWatcher_onTransientError, onTransientError. destruct (negb _); exact Hs.
  - exact Hs.
  - destruct (selector s) as [matchList|]; [|exact Hs].
    destruct (configSelector matchList methodName metadata (resolver s) draws (nextDraw s))
      as [[config r'] k'] eqn:Hcs.
    destruct (configSelector_result _ _ _ _ _ _ _ _ _ Hcs)
      as [(_ & _ & ->)|(_ & _ & -> & _)]; simpl; [exact Hs|].
    now rewrite refCluster_keeps_success.
  - destruct (inFlight s !! i); [|exact Hs]. simpl.
    now apply unrefCluster_keeps_success.
Qed.

(** X20: once the resolver has recorded a reported success, nothing
    resets it: after any further events it is still recorded, and a transient
    error on either watch is swallowed, the resolver being left as it is. *)
Theorem recorded_success_is_never_reset (draws : Draws) (events : list Event)
    (s : System) (details : string) :
  hasReportedSuccess (resolver s) = true ->
  hasReportedSuccess (resolver (run draws events s)) = true
  /\ ldsWatcher_onTransientError details (resolver (run draws events s))
     = (resolver (run draws events s), [], Returned)
  /\ rdsWatcher_onTransientError details (resolver (run draws events s))
     = (resolver (run draws events s), [], Returned).
Proof.
  intros Hs.
  assert (Hrun : hasReportedSuccess (resolver (run draws events s)) = true).
  { unfold run. revert s Hs. induction events as [|e events IH]; intros s Hs; simpl;
      [exact Hs|]. apply IH. now apply step_keeps_success. }
  split; [exact Hrun|].
  unfold ldsWatcher_onTransientError, rdsWatcher_onTransientError, onTransientError.
  now rewrite Hrun.
Qed.

Lemma step_idle draws s e :
  GRPC_XDS_EXPERIMENTAL_ROUTING = false -> idle s -> idle (step draws s e).
Proof.
  intros Hflag (Htable & Hsel & Hfly).
  assert (Hhandle : forall routeConfig,
            idle (afterWatcher (handleRouteConfig routeConfig (resolver s)) s)).
  { intros routeConfig. rewrite (handleRouteConfig_legacy _ _ Hflag).
    destruct (legacyScan _ _); repeat split; simpl; auto; now rewrite Hsel. }
  destruct e as [update|details| |update|details| |methodName metadata|i]; simpl.
  - destruct update as [routeConfigName|routeConfig|]; simpl.
    + destruct (bool_decide _); repeat split; simpl; auto; rewrite Hsel.
      destruct (latestRouteConfigName (resolver s)); reflexivity.
    + destruct (Hhandle routeConfig) as (Ht & Hs' & Hf).
      destruct (handleRouteConfig routeConfig (resolver s)) as [[r' effects] completion].
      unfold afterWatcher in *. simpl in *.
      repeat split; auto. rewrite publish_app.
      rewrite (publish_errors_only _ (selector s)); [exact Hs'|].
      intros e He. destruct (truthy _); simpl in He; [|destruct He].
      destruct He as [<-|[]]. exact I.
    + repeat split; auto.
  - unfold ldsWatcher_onTransientError, onTransientError.
    destruct (negb _); repeat split; auto.
  - repeat split; auto.
  - apply Hhandle.
  - unfold rdsWatcher_onTransientError, onTransientError.
    destruct (negb _); repeat split; auto.
  - repeat split; auto.
  - rewrite Hsel. repeat split; auto.
  - rewrite Hfly. simpl. repeat split; auto.
Qed.

(** X21: without experimental routing the ref-count table stays empty
    and no config selector is ever published, whatever the xDS client
    delivers and whatever the channel calls. *)
Theorem legacy_routing_keeps_table_empty (draws : Draws) (events : list Event)
    (target : GrpcUri) :
  GRPC_XDS_EXPERIMENTAL_ROUTING = false ->
  clusterRefcounts (resolver (run draws events (initial target))) = ∅
  /\ selector (run draws events (initial target)) = None.
Proof.
  intros Hflag.
  assert (Hidle : idle (run draws events (initial target))).
  { assert (Hinit : idle (initial target)) by (repeat split).
    unfold run. revert Hinit. generalize (initial target).
    induction events as [|e events IH]; intros s Hs; simpl; [exact Hs|].
    apply IH. now apply step_idle. }
  destruct Hidle as (Ht & Hs & _). auto.
Qed.

(** X22: once every call has committed, the table holds no trace of
    them: after any events on routing tables that name their clusters, if no
    commit callback is left to call, every entry is marked as in the last
    applied routing table and has a ref-count of 0. *)
Theorem no_entry_outlives_its_calls (draws : Draws) (events : list Event)
    (target : GrpcUri) :
  forallb wellNamedEvent events = true ->
  inFlight (run draws events (initial target)) = [] ->
  forall clusterName rc,
    clusterRefcounts (resolver (run draws events (initial target))) !! clusterName
    = Some rc ->
    rc = {| inLastConfig := true; refCount := 0 |}.
Proof.
  intros Hnamed Hnone clusterName rc Hrc.
  pose proof (run_consistent draws events (initial target)
                (initial_consistent target) Hnamed) as Hc.
  pose proof (counted _ Hc clusterName rc Hrc) as Hcount.
  unfold references in Hcount. rewrite Hnone in Hcount. simpl in Hcount.
  destruct (marked_or_referenced _ Hc clusterName rc Hrc) as [Ht|Hpos]; [|lia].
  destruct rc as [flag n]. simpl in Ht, Hcount. now subst.
Qed.

Lemma configSelector_refusal matchList methodName metadata draws :
  forall r k config r' k',
  configSelector matchList methodName metadata r draws k = (config, r', k') ->
  status config = UNAVAILABLE -> pickInformation_cluster config = "".
Proof.
  induction matchList as [|m rest IH]; intros r k config r' k'; simpl.
  - intros Heq _. injection Heq as <- _ _. reflexivity.
  - destruct (matcher m methodName metadata draws k) as [matched k1].
    destruct matched; [|apply IH].
    destruct (action m draws k1) as [c k2]. intros Heq Hst.
    injection Heq as <- _ _. discriminate Hst.
Qed.

(** X23: the config selector in force routes to known clusters only:
    after any events on routing tables that name their clusters, a call that
    it routes to a cluster with a name finds the entry of that cluster, marked
    as in the last applied routing table, and raises its ref-count by one. *)
Theorem selected_cluster_has_a_marked_entry (draws : Draws) (events : list Event)
    (target : GrpcUri) (matchList : list CompiledRoute) (methodName : string)
    (metadata : Metadata) (k k' : nat) (config : CallConfig) (r' : XdsResolver) :
  forallb wellNamedEvent events = true ->
  selector (run draws events (initial target)) = Some matchList ->
  configSelector matchList methodName metadata
    (resolver (run draws events (initial target))) draws k = (config, r', k') ->
  pickInformation_cluster config <> "" ->
  exists n,
    clusterRefcounts (resolver (run draws events (initial target)))
      !! pickInformation_cluster config
    = Some {| inLastConfig := true; refCount := n |}
    /\ clusterRefcounts r' !! pickInformation_cluster config
       = Some {| inLastConfig := true; refCount := n + 1 |}.
Proof.
  intros Hnamed Hsel Hcs Hne.
  pose proof (run_consistent draws events (initial target)
                (initial_consistent target) Hnamed) as Hc.
  destruct (configSelector_result _ _ _ _ _ _ _ _ _ Hcs)
    as [(Hst & _ & ->)|(_ & _ & -> & m & k1 & Hm & Hpick)].
  - exfalso. apply Hne. eapply configSelector_refusal; eauto.
  - destruct (selector_marked _ Hc matchList m draws k1 Hsel Hm) as [Hfall|(rc & Hrc & Ht)].
    + congruence.
    + rewrite Hpick in Hrc. exists (refCount rc). split.
      * rewrite Hrc. destruct rc as [flag n]. simpl in *. congruence.
      * rewrite refCluster_lookup, decide_True by reflexivity.
        rewrite Hrc. simpl. now rewrite Ht.
Qed.

End Runs.

(** ** The watchers *)

Section Watchers.
Import Resolver.
Context `{Environment}.

Lemma handleRouteConfig_keeps_name routeConfig r :
  latestRouteConfigName (fst (fst (handleRouteConfig routeConfig r)))
  = latestRouteConfigName r.
Proof.
  unfold handleRouteConfig. destruct GRPC_XDS_EXPERIMENTAL_ROUTING; simpl.
  - destruct (findVirtualHostForDomain _ _); [|reflexivity].
    destruct (compileRoutes _ _ _) as [[? ?]|]; reflexivity.
  - destruct (legacyScan _ _); reflexivity.
Qed.

(** X24: a listener update that names a route configuration is
    idempotent: the resolver then holds that name, and the same update again
    changes nothing and asks nothing of the xDS client. *)
Theorem named_route_config_update_is_idempotent (routeConfigName : string)
    (r : XdsResolver) :
  latestRouteConfigName (fst (fst (ldsWatcher_onValidUpdate (rds routeConfigName) r)))
  = Some routeConfigName
  /\ ldsWatcher_onValidUpdate (rds routeConfigName)
       (fst (fst (ldsWatcher_onValidUpdate (rds routeConfigName) r)))
     = (fst (fst (ldsWatcher_onValidUpdate (rds routeConfigName) r)), [], Returned).
Proof.
  simpl. destruct (bool_decide (latestRouteConfigName r = Some routeConfigName)) eqn:Hd.
  - apply bool_decide_eq_true in Hd. simpl. rewrite Hd. split; [reflexivity|].
    now rewrite bool_decide_eq_true_2.
  - simpl. split; [reflexivity|]. now rewrite bool_decide_eq_true_2.
Qed.

Lemma held_name_update_is_void routeConfigName r :
  latestRouteConfigName r = Some routeConfigName ->
  ldsWatcher_onValidUpdate (rds routeConfigName) r = (r, [], Returned).
Proof.
  intros Hname. unfold ldsWatcher_onValidUpdate.
  now rewrite bool_decide_eq_true_2.
Qed.

(** X25: a listener update that embeds its route table asks the xDS
    client to remove the route watcher of the name the resolver holds, then
    handles the table, and goes on holding the name; a listener update that
    names that route configuration again is then without effect. *)
Theorem inline_route_config_keeps_watched_name (routeConfigName : string)
    (routeConfig : RouteConfiguration) (r : XdsResolver) :
  latestRouteConfigName r = Some routeConfigName -> routeConfigName <> "" ->
  snd (fst (ldsWatcher_onValidUpdate (route_config routeConfig) r))
  = removeRouteWatcher routeConfigName :: snd (fst (handleRouteConfig routeConfig r))
  /\ latestRouteConfigName (fst (fst (ldsWatcher_onValidUpdate (route_config routeConfig) r)))
     = Some routeConfigName
  /\ ldsWatcher_onValidUpdate (rds routeConfigName)
       (fst (fst (ldsWatcher_onValidUpdate (route_config routeConfig) r)))
     = (fst (fst (ldsWatcher_onValidUpdate (route_config routeConfig) r)), [], Returned).
Proof.
  intros Hname Hne.
  pose proof (handleRouteConfig_keeps_name routeConfig r) as Hkept.
  assert (Htruthy : truthy (latestRouteConfigName r) = Some routeConfigName).
  { rewrite Hname. simpl. apply String.eqb_neq in Hne. now rewrite Hne. }
  assert (Hinline : ldsWatcher_onValidUpdate (route_config routeConfig) r
                    = (fst (fst (handleRouteConfig routeConfig r)),
                       removeRouteWatcher routeConfigName
                         :: snd (fst (handleRouteConfig routeConfig r)),
                       snd (handleRouteConfig routeConfig r))).
  { unfold ldsWatcher_onValidUpdate. rewrite Htruthy.
    now destruct (handleRouteConfig routeConfig r) as [[r' effects] completion]. }
  rewrite Hinline. cbn [fst snd].
  split; [reflexivity|]. split; [congruence|].
  apply held_name_update_is_void. congruence.
Qed.

End Watchers.

(** ** The resolving call, further *)

Section ResolvingCallFurther.
Import ResolvingCall CallTrace.
Context `{Constants}.

(** X26: [getConfig] throws exactly on a call that has not ended and
    has not been started, whatever the channel answers. *)
Theorem getConfig_throws_iff_unstarted (now : Z) (configResult : GetConfigResult)
    (s : ResolvingCall) :
  getConfig now configResult s = None
  <-> ended s = false /\ (metadata s = None \/ listener s = None).
Proof.
  unfold getConfig. destruct (ended s).
  - split; [discriminate|intros [Hf _]; discriminate Hf].
  - destruct (metadata s) as [md|]; [destruct (listener s) as [l|]|].
    + split; [|intros [_ [Hn|Hn]]; discriminate Hn].
      destruct configResult as [|error|config].
      * discriminate.
      * destruct (waitForReady md); discriminate.
      * destruct (negb _); [|discriminate].
        destruct (restrictControlPlaneStatusCode _ _). discriminate.
    + split; auto.
    + split; auto.
Qed.

(** X27: on a bound call nothing is buffered: any operations are
    forwarded to the inner call, one call each and in the order given, and
    the call is left as it is. *)
Theorem bound_call_forwards_operations (ops : list Op) (s : ResolvingCall)
    (inner : InnerCall) :
  child s = Some inner -> applyOps ops s = (s, map forwarded ops).
Proof.
  intros Hc. induction ops as [|op ops IH]; simpl; [reflexivity|].
  assert (Hop : applyOp op s = (s, [forwarded op])).
  { destruct op; simpl; unfold startRead, sendMessageWithContext, halfClose;
      now rewrite Hc. }
  now rewrite Hop, IH.
Qed.

(** X28: [getConfig] either leaves the inner call as it is and asks for
    none, or binds: the channel answered with a configuration of status OK,
    the call had not ended, and the one inner call asked for has this
    configuration, the method and the host of the call, and the deadline that
    the call holds afterwards. *)
Theorem getConfig_binds_only_on_ok_config (now : Z) (configResult : GetConfigResult)
    (s s' : ResolvingCall) (effects : list Effect) :
  getConfig now configResult s = Some (s', effects) ->
  (child s' = child s /\ forall inner, ~ In (createInnerCall inner) effects)
  \/ exists config inner,
       configResult = SUCCESS config /\ status config = Status_OK /\ ended s = false
       /\ child s' = Some inner /\ In (createInnerCall inner) effects
       /\ inner_config inner = config /\ inner_method inner = method s
       /\ inner_host inner = host s /\ inner_deadline inner = deadline s'.
Proof.
  unfold getConfig. destruct (ended s) eqn:He.
  { intros [= <- <-]. left. split; [reflexivity|intros inner []]. }
  destruct (metadata s) as [md|]; [|discriminate].
  destruct (listener s) as [l|]; [|discriminate].
  assert (Hout : forall st s1 e1, outputStatus st s = (s1, e1) ->
               child s1 = child s /\ forall inner, ~ In (createInnerCall inner) e1).
  { intros st s1 e1. rewrite (outputStatus_first _ _ He). intros [= <- <-].
    split; [reflexivity|]. intros inner Hin. apply in_app_or in Hin.
    destruct Hin as [Hin|[Hin|[]]]; [|discriminate Hin].
    apply in_map_iff in Hin. destruct Hin as (w & Hw & _). discriminate Hw. }
  destruct configResult as [|error|config].
  - intros [= <- <-]. left. split; [reflexivity|].
    intros inner [Hin|[]]. discriminate Hin.
  - destruct (waitForReady md).
    + intros [= <- <-]. left. split; [reflexivity|].
      intros inner [Hin|[]]. discriminate Hin.
    + destruct (outputStatus error s) eqn:Ho. intros [= <- <-]. left. eauto.
  - destruct (Z.eqb_spec (status config) Status_OK) as [Hok|Hbad]; simpl.
    + intros [= <- <-]. right. exists config. eexists.
      split; [reflexivity|]. split; [exact Hok|]. split; [reflexivity|].
      split; [reflexivity|]. split; [simpl; tauto|].
      destruct (methodConfig_timeout config); repeat split.
    + destruct (restrictControlPlaneStatusCode _ _) as [c d].
      destruct (outputStatus _ s) eqn:Ho. intros [= <- <-]. left. eauto.
Qed.

Lemma trigger_delivers t s :
  statusWatchers (fst (trigger t s)) = statusWatchers s
  /\ ((ended (fst (trigger t s)) = ended s
       /\ List.filter isDelivery (snd (trigger t s)) = [])
      \/ (ended s = false /\ ended (fst (trigger t s)) = true
          /\ List.filter isDelivery (snd (trigger t s))
             = map (fun watcher => statusWatcher watcher (triggerStatus t))
                 (statusWatchers s)
                 ++ [nextTick (deliverStatus (triggerStatus t))])).
Proof.
  destruct (ended s) eqn:He.
  - assert (Hsame : fst (trigger t s) = s
                    /\ List.filter isDelivery (snd (trigger t s)) = []).
    { destruct t as [st|st|c d|]; simpl;
        unfold reportResolverError, child_onReceiveStatus, cancelWithStatus;
        rewrite ?(outputStatus_again _ _ He).
      - destruct (metadata s) as [md|]; [destruct (waitForReady md)|];
          rewrite ?(outputStatus_again _ _ He); auto.
      - auto.
      - destruct (child s); auto.
      - destruct (child s); auto. }
    destruct Hsame as [-> ->]. rewrite He. auto.
  - destruct (ends t s) eqn:Hends.
    + destruct (trigger_outputStatus t s Hends) as (forwarded_ & -> & Hf).
      rewrite (outputStatus_first _ _ He). simpl.
      split; [reflexivity|]. right.
      rewrite List.filter_app, Hf, filter_isDelivery_watchers. auto.
    + destruct t as [st|st|c d|]; simpl in Hends; try discriminate;
        try (destruct (metadata s); discriminate).
      destruct (metadata s) as [md|] eqn:Hm; [|discriminate].
      simpl. unfold reportResolverError. rewrite Hm.
      destruct (waitForReady md); [|discriminate]. simpl. rewrite He. auto.
Qed.

(** X29: over any sequence of end-triggering events the status watchers
    are called once at most, all with the same status, and one delivery at
    most is scheduled, of that status; on a call that has ended there is
    none. *)
Theorem status_is_delivered_at_most_once (ts : list EndTrigger) (s : ResolvingCall) :
  (List.filter isDelivery (snd (triggerAll ts s)) = []
   \/ (ended s = false
       /\ exists st,
            List.filter isDelivery (snd (triggerAll ts s))
            = map (fun watcher => statusWatcher watcher st) (statusWatchers s)
                ++ [nextTick (deliverStatus st)]))
  /\ (ended s = true -> List.filter isDelivery (snd (triggerAll ts s)) = []).
Proof.
  assert (Hended : forall ts s, ended s = true ->
            List.filter isDelivery (snd (triggerAll ts s)) = []).
  { clear ts s. induction ts as [|t ts IH]; intros s He; simpl; [reflexivity|].
    destruct (trigger_delivers t s) as (_ & [(Hsame & Hnone)|(Hf & _)]); [|congruence].
    destruct (trigger t s) as [s1 e1]. simpl in *.
    specialize (IH s1 ltac:(congruence)).
    destruct (triggerAll ts s1) as [s2 e2]. simpl in *.
    now rewrite List.filter_app, Hnone, IH. }
  split; [|apply Hended].
  revert s. induction ts as [|t ts IH]; intros s; simpl; [now left|].
  destruct (trigger_delivers t s) as (Hw & [(Hsame & Hnone)|(Hf & Ht & Hfired)]).
  - specialize (IH (fst (trigger t s))).
    destruct (trigger t s) as [s1 e1]. simpl in *.
    destruct (triggerAll ts s1) as [s2 e2]. simpl in *.
    rewrite List.filter_app, Hnone. simpl.
    destruct IH as [IH|(He1 & st & IH)]; [now left|right].
    split; [congruence|]. exists st. now rewrite IH, Hw.
  - specialize (Hended ts (fst (trigger t s)) Ht).
    destruct (trigger t s) as [s1 e1]. simpl in *.
    destruct (triggerAll ts s1) as [s2 e2]. simpl in *.
    right. split; [exact Hf|]. exists (triggerStatus t).
    now rewrite List.filter_app, Hfired, Hended, app_nil_r.
Qed.

(** X30: a call that was cancelled never binds: after
    [cancelWithStatus], on a call started or not, [getConfig] and [start]
    ask the channel for nothing, create no inner call and do nothing else,
    whatever the channel would answer. *)
Theorem cancelled_call_never_binds (code : Z) (details : string) (now : Z)
    (configResult : GetConfigResult) (md : CallMetadata) (l : nat) (s : ResolvingCall) :
  getConfig now configResult (fst (cancelWithStatus code details s))
  = Some (fst (cancelWithStatus code details s), [])
  /\ start now configResult md l (fst (cancelWithStatus code details s))
     = Some (set_started md l (fst (cancelWithStatus code details s)), [])
  /\ child (fst (cancelWithStatus code details s)) = child s.
Proof.
  assert (He : ended (fst (cancelWithStatus code details s)) = true
               /\ child (fst (cancelWithStatus code details s)) = child s).
  { unfold cancelWithStatus, outputStatus. destruct (ended s) eqn:Hended; simpl; auto. }
  destruct He as [He Hc].
  split; [|split; [|exact Hc]].
  - unfold getConfig. now rewrite He.
  - unfold start, getConfig. simpl. now rewrite He.
Qed.

End ResolvingCallFurther.

(** ** The further properties, at the sample inputs *)

Lemma ref_then_unref_restores_witness :
  @Resolver.unrefCluster Sample.routingOn "A" (Resolver.refCluster "A" Sample.routedToA)
  = (Sample.routedToA, [], Resolver.Returned).
Proof.
  apply (@ref_then_unref_restores Sample.routingOn "A" Sample.routedToA
           {| Resolver.inLastConfig := true; Resolver.refCount := 0 |}).
  - vm_compute. reflexivity.
  - left. reflexivity.
Defined.

Lemma selection_raises_one_count_witness :
  exists config r' k',
    Resolver.configSelector [Sample.routeToA] "/pkg.Service/Method" Sample.noMetadata
      Sample.routedToA Sample.noDraws 0 = (config, r', k')
    /\ dom (Resolver.clusterRefcounts r') = dom (Resolver.clusterRefcounts Sample.routedToA).
Proof.
  do 3 eexists. split; [reflexivity|].
  exact (proj2 (proj2 (selection_raises_one_count [Sample.routeToA]
                         "/pkg.Service/Method" Sample.noMetadata Sample.routedToA _
                         Sample.noDraws 0 _ _ eq_refl))).
Defined.

Lemma published_clusters_are_routed_or_referenced_witness :
  exists children,
    snd (fst (@Resolver.handleRouteConfig Sample.routingOn
                (Sample.tableFor "svc.example.com" "A")
                (Resolver.newXdsResolver Sample.svc)))
    = [Resolver.onSuccessfulResolution
         (Resolver.XdsClusterManagerLoadBalancingConfig children)
         (Some ([] ++ [Sample.routeToA]))]
    /\ "A" ∈ children.
Proof.
  destruct (@published_clusters_are_routed_or_referenced Sample.routingOn
              (Sample.tableFor "svc.example.com" "A") (Resolver.newXdsResolver Sample.svc)
              {| Resolver.domains := ["svc.example.com"];
                 Resolver.routes := [Sample.toCluster "A"] |}
              (∅ ∪ {["A"]}) ([] ++ [Sample.routeToA]) eq_refl eq_refl eq_refl)
    as (children & Heffects & _ & _ & Hmember).
  exists children. split; [exact Heffects|].
  apply Hmember. left. apply elem_of_union. right. now apply elem_of_singleton.
Defined.

Lemma recorded_success_is_never_reset_witness :
  Resolver.hasReportedSuccess
    (System.resolver
       (@System.run Sample.routingOff Sample.noDraws
          [System.RdsUpdate (Sample.tableFor "other.example.org" "B");
           System.RdsDoesNotExist]
          Sample.legacyResolved)) = true.
Proof.
  exact (proj1 (@recorded_success_is_never_reset Sample.routingOff Sample.noDraws
                  [System.RdsUpdate (Sample.tableFor "other.example.org" "B");
                   System.RdsDoesNotExist]
                  Sample.legacyResolved "connection lost" eq_refl)).
Defined.

Lemma legacy_routing_keeps_table_empty_witness :
  Resolver.clusterRefcounts
    (System.resolver
       (@System.run Sample.routingOff Sample.noDraws Sample.lifecycle
          (System.initial Sample.svc))) = ∅
  /\ System.selector
       (@System.run Sample.routingOff Sample.noDraws Sample.lifecycle
          (System.initial Sample.svc)) = None.
Proof.
  exact (@legacy_routing_keeps_table_empty Sample.routingOff Sample.noDraws
           Sample.lifecycle Sample.svc eq_refl).
Defined.

Lemma no_entry_outlives_its_calls_witness :
  System.inFlight
    (@System.run Sample.routingOn Sample.noDraws (Sample.lifecycle ++ [System.Commit 0])
       (System.initial Sample.svc)) = []
  /\ forall clusterName rc,
       Resolver.clusterRefcounts
         (System.resolver
            (@System.run Sample.routingOn Sample.noDraws
               (Sample.lifecycle ++ [System.Commit 0]) (System.initial Sample.svc)))
         !! clusterName = Some rc ->
       rc = {| Resolver.inLastConfig := true; Resolver.refCount := 0 |}.
Proof.
  assert (Hnone : System.inFlight
            (@System.run Sample.routingOn Sample.noDraws
               (Sample.lifecycle ++ [System.Commit 0]) (System.initial Sample.svc)) = [])
    by (vm_compute; reflexivity).
  split; [exact Hnone|].
  exact (@no_entry_outlives_its_calls Sample.routingOn Sample.noDraws
           (Sample.lifecycle ++ [System.Commit 0]) Sample.svc eq_refl Hnone).
Defined.

Lemma inline_route_config_keeps_watched_name_witness :
  @Resolver.ldsWatcher_onValidUpdate Sample.routingOn (Resolver.rds "route-1")
    (fst (fst (@Resolver.ldsWatcher_onValidUpdate Sample.routingOn
                 (Resolver.route_config (Sample.tableFor "svc.example.com" "A"))
                 Sample.watchingRoute1)))
  = (fst (fst (@Resolver.ldsWatcher_onValidUpdate Sample.routingOn
                 (Resolver.route_config (Sample.tableFor "svc.example.com" "A"))
                 Sample.watchingRoute1)),
     [], Resolver.Returned).
Proof.
  apply (@inline_route_config_keeps_watched_name Sample.routingOn "route-1"
           (Sample.tableFor "svc.example.com" "A") Sample.watchingRoute1).
  - reflexivity.
  - discriminate.
Defined.

Lemma bound_call_forwards_operations_witness :
  CallTrace.applyOps
    [CallTrace.OpStartRead; CallTrace.OpSendMessage 1 "a"; CallTrace.OpHalfClose]
    Sample.boundCall
  = (Sample.boundCall,
     [ResolvingCall.child_startRead; ResolvingCall.child_sendMessageWithContext 1 "a";
      ResolvingCall.child_halfClose]).
Proof.
  exact (bound_call_forwards_operations
           [CallTrace.OpStartRead; CallTrace.OpSendMessage 1 "a"; CallTrace.OpHalfClose]
           Sample.boundCall _ eq_refl).
Defined.

Lemma getConfig_binds_only_on_ok_config_witness :
  exists s' effects,
    @ResolvingCall.getConfig Sample.constants 0 (ResolvingCall.SUCCESS Sample.plainConfig)
      Sample.startedCall = Some (s', effects)
    /\ ((ResolvingCall.child s' = ResolvingCall.child Sample.startedCall
         /\ forall inner, ~ In (ResolvingCall.createInnerCall inner) effects)
        \/ exists config inner,
             ResolvingCall.SUCCESS Sample.plainConfig = ResolvingCall.SUCCESS config
             /\ ResolvingCall.status config = @Status_OK Sample.constants
             /\ ResolvingCall.ended Sample.startedCall = false
             /\ ResolvingCall.child s' = Some inner
             /\ In (ResolvingCall.createInnerCall inner) effects
             /\ ResolvingCall.inner_config inner = config
             /\ ResolvingCall.inner_method inner = ResolvingCall.method Sample.startedCall
             /\ ResolvingCall.inner_host inner = ResolvingCall.host Sample.startedCall
             /\ ResolvingCall.inner_deadline inner = ResolvingCall.deadline s').
Proof.
  do 2 eexists. split; [reflexivity|].
  apply (@getConfig_binds_only_on_ok_config Sample.constants 0
           (ResolvingCall.SUCCESS Sample.plainConfig) Sample.startedCall).
  reflexivity.
Defined.

Lemma selected_cluster_has_a_marked_entry_witness :
  exists n,
    Resolver.clusterRefcounts
      (System.resolver
         (@System.run Sample.routingOn Sample.noDraws
            [System.RdsUpdate (Sample.tableFor "svc.example.com" "A")]
            (System.initial Sample.svc))) !! "A"
    = Some {| Resolver.inLastConfig := true; Resolver.refCount := n |}
    /\ Resolver.clusterRefcounts
         (Resolver.refCluster "A"
            (System.resolver
               (@System.run Sample.routingOn Sample.noDraws
                  [System.RdsUpdate (Sample.tableFor "svc.example.com" "A")]
                  (System.initial Sample.svc)))) !! "A"
       = Some {| Resolver.inLastConfig := true; Resolver.refCount := n + 1 |}.
Proof.
  apply (@selected_cluster_has_a_marked_entry Sample.routingOn Sample.noDraws
           [System.RdsUpdate (Sample.tableFor "svc.example.com" "A")] Sample.svc
           ([] ++ [Sample.routeToA]) "/pkg.Service/Method" Sample.noMetadata 0 0
           {| Resolver.pickInformation_cluster := "A"; Resolver.status := Resolver.OK;
              Resolver.onCommitted := Some "A" |}).
  - reflexivity.
  - reflexivity.
  - reflexivity.
  - discriminate.
Defined.
